(** * FlappyBird: a model of the game loop engine

    The game script keeps one mutable world (bird, pipes, particles,
    clouds, score, run flags) that a repeating animation-frame callback
    updates and draws.  This file embeds that script as state-passing
    functions over a [World] record and proves the properties of the
    engine that its description states.

    Numbers.  The script computes with JavaScript numbers, which are
    IEEE 754 doubles.  The engine is given twice.  First over exact
    rationals ([Q]): the constants 0.3, 7.5 and 1.8 are the fractions
    3/10, 75/10 and 18/10 and no sum is rounded; the properties proved of
    this engine do not hang on the last digit of a sum.  Then, in module
    [Js], with every arithmetic operation rounded to the nearest double as
    the script rounds it ([F64.round]); the properties in which rounding
    decides the outcome (which rectangles collide, when the floor test of
    the bird update fires, which height a random number gives a pipe,
    which clouds are dropped) are proved of that engine.  Counters (score,
    spawn timer, particle life) are integers in both.

    Randomness.  [Math.random()] is an oracle [rand : nat -> Q]; the world
    counts the calls made so far, and the n-th call returns [rand n].

    Scheduling.  [requestAnimationFrame] and [cancelAnimationFrame] act on
    a list of pending callback handles kept in the world; all callbacks
    ever requested are [gameLoop].  A display refresh runs the callbacks
    that were pending when it began. *)

From Stdlib Require Import ZArith QArith Qround Qminmax Qpower Lqa Lia Bool.
From stdpp Require Import base list.

Local Open Scope Q_scope.

(** ** Comparisons on numbers *)

Definition Qltb (a b : Q) : bool := negb (Qle_bool b a).

(** ** Data model *)

Module Bird.
Record t : Type := mk { x : Q; y : Q; width : Q; height : Q; velocity : Q }.
Definition set_y (v : Q) (b : t) : t := mk (x b) v (width b) (height b) (velocity b).
Definition set_velocity (v : Q) (b : t) : t := mk (x b) (y b) (width b) (height b) v.
End Bird.
Arguments Bird.set_y v b /.
Arguments Bird.set_velocity v b /.

Module Pipe.
Record t : Type := mk { x : Q; topHeight : Q; bottomY : Q; passed : bool }.
Definition set_x (v : Q) (p : t) : t := mk v (topHeight p) (bottomY p) (passed p).
Definition set_passed (v : bool) (p : t) : t := mk (x p) (topHeight p) (bottomY p) v.
End Pipe.
Arguments Pipe.set_x v p /.
Arguments Pipe.set_passed v p /.

(** A feather.  Its colour is the constant ['white'] and is left out. *)
Module Particle.
Record t : Type := mk { x : Q; y : Q; size : Q; speedX : Q; speedY : Q; life : Z }.
End Particle.

Module Cloud.
Record t : Type := mk { x : Q; y : Q; size : Q; speed : Q }.
Definition set_x (v : Q) (c : t) : t := mk v (y c) (size c) (speed c).
End Cloud.
Arguments Cloud.set_x v c /.

Module Rect.
Record t : Type := mk { x : Q; y : Q; width : Q; height : Q }.
End Rect.

(** The routines of a frame that do update or draw work, and the end of the
    game.  The world records, in order, which of them have run. *)
Inductive Work : Type :=
| UpdateClouds | UpdateBird | UpdatePipes | UpdateParticles
| ClearCanvas | DrawClouds | DrawPipes | DrawParticles | DrawBird
| EndGame.

Definition Work_eqb (a b : Work) : bool :=
  match a, b with
  | UpdateClouds, UpdateClouds | UpdateBird, UpdateBird
  | UpdatePipes, UpdatePipes | UpdateParticles, UpdateParticles
  | ClearCanvas, ClearCanvas | DrawClouds, DrawClouds
  | DrawPipes, DrawPipes | DrawParticles, DrawParticles
  | DrawBird, DrawBird | EndGame, EndGame => true
  | _, _ => false
  end.

Definition isEnd (k : Work) : bool := Work_eqb k EndGame.
Definition isUpdateOrDraw (k : Work) : bool := negb (isEnd k).

(** The script's globals, then the page and audio elements it writes to,
    then the browser's pending animation-frame callbacks, then the two
    bookkeeping fields ([randCalls], [log]). *)
Record World : Type := mkWorld {
  bird : Bird.t;
  pipes : list Pipe.t;
  score : Z;
  gameRunning : bool;
  gameOver : bool;
  frameCount : Z;
  animationFrameId : option nat;
  particles : list Particle.t;
  clouds : list Cloud.t;
  spawnTimer : Z;
  scoreDisplay : Z;
  finalScoreDisplay : Z;
  modalHidden : bool;
  musicPlaying : bool;
  crashPlays : nat;
  pending : list nat;
  nextHandle : nat;
  randCalls : nat;
  log : list Work
}.

Definition set_bird (v : Bird.t) (w : World) : World :=
  mkWorld v (pipes w) (score w) (gameRunning w) (gameOver w) (frameCount w)
    (animationFrameId w) (particles w) (clouds w) (spawnTimer w)
    (scoreDisplay w) (finalScoreDisplay w) (modalHidden w) (musicPlaying w)
    (crashPlays w) (pending w) (nextHandle w) (randCalls w) (log w).

Definition set_pipes (v : list Pipe.t) (w : World) : World :=
  mkWorld (bird w) v (score w) (gameRunning w) (gameOver w) (frameCount w)
    (animationFrameId w) (particles w) (clouds w) (spawnTimer w)
    (scoreDisplay w) (finalScoreDisplay w) (modalHidden w) (musicPlaying w)
    (crashPlays w) (pending w) (nextHandle w) (randCalls w) (log w).

Definition set_score (v : Z) (w : World) : World :=
  mkWorld (bird w) (pipes w) v (gameRunning w) (gameOver w) (frameCount w)
    (animationFrameId w) (particles w) (clouds w) (spawnTimer w)
    (scoreDisplay w) (finalScoreDisplay w) (modalHidden w) (musicPlaying w)
    (crashPlays w) (pending w) (nextHandle w) (randCalls w) (log w).

Definition set_gameRunning (v : bool) (w : World) : World :=
  mkWorld (bird w) (pipes w) (score w) v (gameOver w) (frameCount w)
    (animationFrameId w) (particles w) (clouds w) (spawnTimer w)
    (scoreDisplay w) (finalScoreDisplay w) (modalHidden w) (musicPlaying w)
    (crashPlays w) (pending w) (nextHandle w) (randCalls w) (log w).

Definition set_gameOver (v : bool) (w : World) : World :=
  mkWorld (bird w) (pipes w) (score w) (gameRunning w) v (frameCount w)
    (animationFrameId w) (particles w) (clouds w) (spawnTimer w)
    (scoreDisplay w) (finalScoreDisplay w) (modalHidden w) (musicPlaying w)
    (crashPlays w) (pending w) (nextHandle w) (randCalls w) (log w).

Definition set_frameCount (v : Z) (w : World) : World :=
  mkWorld (bird w) (pipes w) (score w) (gameRunning w) (gameOver w) v
    (animationFrameId w) (particles w) (clouds w) (spawnTimer w)
    (scoreDisplay w) (finalScoreDisplay w) (modalHidden w) (musicPlaying w)
    (crashPlays w) (pending w) (nextHandle w) (randCalls w) (log w).

Definition set_animationFrameId (v : option nat) (w : World) : World :=
  mkWorld (bird w) (pipes w) (score w) (gameRunning w) (gameOver w)
    (frameCount w) v (particles w) (clouds w) (spawnTimer w) (scoreDisplay w)
    (finalScoreDisplay w) (modalHidden w) (musicPlaying w) (crashPlays w)
    (pending w) (nextHandle w) (randCalls w) (log w).

Definition set_particles (v : list Particle.t) (w : World) : World :=
  mkWorld (bird w) (pipes w) (score w) (gameRunning w) (gameOver w)
    (frameCount w) (animationFrameId w) v (clouds w) (spawnTimer w)
    (scoreDisplay w) (finalScoreDisplay w) (modalHidden w) (musicPlaying w)
    (crashPlays w) (pending w) (nextHandle w) (randCalls w) (log w).

Definition set_clouds (v : list Cloud.t) (w : World) : World :=
  mkWorld (bird w) (pipes w) (score w) (gameRunning w) (gameOver w)
    (frameCount w) (animationFrameId w) (particles w) v (spawnTimer w)
    (scoreDisplay w) (finalScoreDisplay w) (modalHidden w) (musicPlaying w)
    (crashPlays w) (pending w) (nextHandle w) (randCalls w) (log w).

Definition set_spawnTimer (v : Z) (w : World) : World :=
  mkWorld (bird w) (pipes w) (score w) (gameRunning w) (gameOver w)
    (frameCount w) (animationFrameId w) (particles w) (clouds w) v
    (scoreDisplay w) (finalScoreDisplay w) (modalHidden w) (musicPlaying w)
    (crashPlays w) (pending w) (nextHandle w) (randCalls w) (log w).

Definition set_scoreDisplay (v : Z) (w : World) : World :=
  mkWorld (bird w) (pipes w) (score w) (gameRunning w) (gameOver w)
    (frameCount w) (animationFrameId w) (particles w) (clouds w)
    (spawnTimer w) v (finalScoreDisplay w) (modalHidden w) (musicPlaying w)
    (crashPlays w) (pending w) (nextHandle w) (randCalls w) (log w).

Definition set_finalScoreDisplay (v : Z) (w : World) : World :=
  mkWorld (bird w) (pipes w) (score w) (gameRunning w) (gameOver w)
    (frameCount w) (animationFrameId w) (particles w) (clouds w)
    (spawnTimer w) (scoreDisplay w) v (modalHidden w) (musicPlaying w)
    (crashPlays w) (pending w) (nextHandle w) (randCalls w) (log w).

Definition set_modalHidden (v : bool) (w : World) : World :=
  mkWorld (bird w) (pipes w) (score w) (gameRunning w) (gameOver w)
    (frameCount w) (animationFrameId w) (particles w) (clouds w)
    (spawnTimer w) (scoreDisplay w) (finalScoreDisplay w) v (musicPlaying w)
    (crashPlays w) (pending w) (nextHandle w) (randCalls w) (log w).

Definition set_musicPlaying (v : bool) (w : World) : World :=
  mkWorld (bird w) (pipes w) (score w) (gameRunning w) (gameOver w)
    (frameCount w) (animationFrameId w) (particles w) (clouds w)
    (spawnTimer w) (scoreDisplay w) (finalScoreDisplay w) (modalHidden w) v
    (crashPlays w) (pending w) (nextHandle w) (randCalls w) (log w).

Definition set_crashPlays (v : nat) (w : World) : World :=
  mkWorld (bird w) (pipes w) (score w) (gameRunning w) (gameOver w)
    (frameCount w) (animationFrameId w) (particles w) (clouds w)
    (spawnTimer w) (scoreDisplay w) (finalScoreDisplay w) (modalHidden w)
    (musicPlaying w) v (pending w) (nextHandle w) (randCalls w) (log w).

Definition set_pending (v : list nat) (w : World) : World :=
  mkWorld (bird w) (pipes w) (score w) (gameRunning w) (gameOver w)
    (frameCount w) (animationFrameId w) (particles w) (clouds w)
    (spawnTimer w) (scoreDisplay w) (finalScoreDisplay w) (modalHidden w)
    (musicPlaying w) (crashPlays w) v (nextHandle w) (randCalls w) (log w).

Definition set_nextHandle (v : nat) (w : World) : World :=
  mkWorld (bird w) (pipes w) (score w) (gameRunning w) (gameOver w)
    (frameCount w) (animationFrameId w) (particles w) (clouds w)
    (spawnTimer w) (scoreDisplay w) (finalScoreDisplay w) (modalHidden w)
    (musicPlaying w) (crashPlays w) (pending w) v (randCalls w) (log w).

Definition set_randCalls (v : nat) (w : World) : World :=
  mkWorld (bird w) (pipes w) (score w) (gameRunning w) (gameOver w)
    (frameCount w) (animationFrameId w) (particles w) (clouds w)
    (spawnTimer w) (scoreDisplay w) (finalScoreDisplay w) (modalHidden w)
    (musicPlaying w) (crashPlays w) (pending w) (nextHandle w) v (log w).

Definition set_log (v : list Work) (w : World) : World :=
  mkWorld (bird w) (pipes w) (score w) (gameRunning w) (gameOver w)
    (frameCount w) (animationFrameId w) (particles w) (clouds w)
    (spawnTimer w) (scoreDisplay w) (finalScoreDisplay w) (modalHidden w)
    (musicPlaying w) (crashPlays w) (pending w) (nextHandle w) (randCalls w) v.

Arguments set_bird v w /.
Arguments set_pipes v w /.
Arguments set_score v w /.
Arguments set_gameRunning v w /.
Arguments set_gameOver v w /.
Arguments set_frameCount v w /.
Arguments set_animationFrameId v w /.
Arguments set_particles v w /.
Arguments set_clouds v w /.
Arguments set_spawnTimer v w /.
Arguments set_scoreDisplay v w /.
Arguments set_finalScoreDisplay v w /.
Arguments set_modalHidden v w /.
Arguments set_musicPlaying v w /.
Arguments set_crashPlays v w /.
Arguments set_pending v w /.
Arguments set_nextHandle v w /.
Arguments set_randCalls v w /.
Arguments set_log v w /.

(** Simplifies the field updates and reads of a world. *)
Ltac wsimpl :=
  cbn [set_bird set_pipes set_score set_gameRunning set_gameOver set_frameCount set_animationFrameId set_particles set_clouds set_spawnTimer
     set_scoreDisplay set_finalScoreDisplay set_modalHidden set_musicPlaying set_crashPlays set_pending set_nextHandle set_randCalls set_log
     bird pipes score gameRunning gameOver frameCount animationFrameId particles clouds spawnTimer
     scoreDisplay finalScoreDisplay modalHidden musicPlaying crashPlays pending nextHandle randCalls log
     Bird.set_y Bird.set_velocity Bird.x Bird.y Bird.width Bird.height
     Bird.velocity Pipe.set_x Pipe.set_passed Pipe.x Pipe.topHeight
     Pipe.bottomY Pipe.passed Cloud.set_x Cloud.x Cloud.y Cloud.size
     Cloud.speed].

Ltac wsimpl_in H :=
  cbn [set_bird set_pipes set_score set_gameRunning set_gameOver set_frameCount set_animationFrameId set_particles set_clouds set_spawnTimer
     set_scoreDisplay set_finalScoreDisplay set_modalHidden set_musicPlaying set_crashPlays set_pending set_nextHandle set_randCalls set_log
     bird pipes score gameRunning gameOver frameCount animationFrameId particles clouds spawnTimer
     scoreDisplay finalScoreDisplay modalHidden musicPlaying crashPlays pending nextHandle randCalls log
     Bird.set_y Bird.set_velocity Bird.x Bird.y Bird.width Bird.height
     Bird.velocity Pipe.set_x Pipe.set_passed Pipe.x Pipe.topHeight
     Pipe.bottomY Pipe.passed Cloud.set_x Cloud.x Cloud.y Cloud.size
     Cloud.speed] in H.

(** ** Constants *)

Definition VIRTUAL_WIDTH : Q := 400.
Definition VIRTUAL_HEIGHT : Q := 600.
Definition BIRD_X : Q := 50.
Definition BIRD_WIDTH : Q := 28.
Definition BIRD_HEIGHT : Q := 21.
Definition GRAVITY : Q := 3 # 10.
Definition FLAP_STRENGTH : Q := - (75 # 10).
Definition PIPE_WIDTH : Q := 48.
Definition PIPE_GAP : Q := 200.
Definition PIPE_SPEED : Q := 18 # 10.
Definition PIPE_INTERVAL : Z := 160.

Ltac consts :=
  unfold VIRTUAL_WIDTH, VIRTUAL_HEIGHT, BIRD_X, BIRD_WIDTH, BIRD_HEIGHT,
    GRAVITY, FLAP_STRENGTH, PIPE_WIDTH, PIPE_GAP, PIPE_SPEED in *.

Ltac qa := consts; simpl in *; lra.

(** ** Collision test *)

Definition isColliding (rect1 rect2 : Rect.t) : bool :=
  Qltb (Rect.x rect1) (Rect.x rect2 + Rect.width rect2) &&
  Qltb (Rect.x rect2) (Rect.x rect1 + Rect.width rect1) &&
  Qltb (Rect.y rect1) (Rect.y rect2 + Rect.height rect2) &&
  Qltb (Rect.y rect2) (Rect.y rect1 + Rect.height rect1).

(** ** The engine *)

Section Engine.

(** The n-th call of [Math.random()] returns [rand n]. *)
Variable rand : nat -> Q.

Definition random (w : World) : Q * World :=
  (rand (randCalls w), set_randCalls (S (randCalls w)) w).

Definition note (k : Work) (w : World) : World := set_log (log w ++ [k]) w.

(** *** Animation-frame requests *)

Definition requestAnimationFrame (w : World) : nat * World :=
  let h := nextHandle w in
  (h, set_nextHandle (S h) (set_pending (pending w ++ [h]) w)).

Definition cancelAnimationFrame (h : nat) (w : World) : World :=
  set_pending (filter (fun k => k <> h) (pending w)) w.

(** *** Clouds *)

Definition generateCloud (randomX : bool) (w : World) : World :=
  let '(r1, w) := random w in
  let '(r2, w) := random w in
  let '(r3, w) := random w in
  let '(r4, w) := random w in
  set_clouds
    (clouds w ++
       [Cloud.mk
          (if randomX then r1 * VIRTUAL_WIDTH else VIRTUAL_WIDTH + r1 * 100)
          (r2 * (VIRTUAL_HEIGHT / 2))
          (r3 * 25 + 20)
          (r4 * (4 # 10) + (1 # 10))]) w.

(** Body of the loop of [updateClouds] at index [i], where [c] is
    [clouds[i]]: the element is changed in place, then perhaps spliced
    out. *)
Definition cloudBody (i : nat) (c : Cloud.t) (cs : list Cloud.t) : list Cloud.t :=
  let c := Cloud.set_x (Cloud.x c - Cloud.speed c) c in
  let cs := <[i:=c]> cs in
  if Qltb (Cloud.x c + Cloud.size c * 3) 0 then delete i cs else cs.

(** [for (let i = n - 1; i >= 0; i--)].  The index is always in range; the
    [None] branch is never taken. *)
Fixpoint cloudsLoop (n : nat) (cs : list Cloud.t) : list Cloud.t :=
  match n with
  | O => cs
  | S i =>
      cloudsLoop i
        match cs !! i with Some c => cloudBody i c cs | None => cs end
  end.

Definition updateClouds (w : World) : World :=
  let w := note UpdateClouds w in
  let w := set_clouds (cloudsLoop (length (clouds w)) (clouds w)) w in
  if gameRunning w then
    let '(r, w) := random w in
    if Qltb r (5 # 1000) then generateCloud false w else w
  else w.

Definition drawClouds (w : World) : World := note DrawClouds w.

(** *** Feathers *)

Fixpoint createFeathers (amount : nat) (w : World) : World :=
  match amount with
  | O => w
  | S n =>
      let '(r1, w) := random w in
      let '(r2, w) := random w in
      let '(r3, w) := random w in
      let p :=
        Particle.mk
          (Bird.x (bird w))
          (Bird.y (bird w) + Bird.height (bird w) / 2)
          (r1 * 3 + 2)
          (r2 * - (2) - 1)
          ((r3 - (5 # 10)) * 2)
          30 in
      createFeathers n (set_particles (particles w ++ [p]) w)
  end.

Definition particleBody (i : nat) (p : Particle.t) (ps : list Particle.t)
  : list Particle.t :=
  let p :=
    Particle.mk
      (Particle.x p + Particle.speedX p)
      (Particle.y p + Particle.speedY p)
      (Particle.size p) (Particle.speedX p) (Particle.speedY p)
      (Particle.life p - 1) in
  let ps := <[i:=p]> ps in
  if (Particle.life p <=? 0)%Z then delete i ps else ps.

Fixpoint particlesLoop (n : nat) (ps : list Particle.t) : list Particle.t :=
  match n with
  | O => ps
  | S i =>
      particlesLoop i
        match ps !! i with Some p => particleBody i p ps | None => ps end
  end.

Definition updateParticles (w : World) : World :=
  let w := note UpdateParticles w in
  set_particles (particlesLoop (length (particles w)) (particles w)) w.

Definition drawParticles (w : World) : World := note DrawParticles w.

(** *** Pipes *)

Definition minHeight : Q := 80.
Definition maxHeight : Q := VIRTUAL_HEIGHT - PIPE_GAP - minHeight.

(** [Math.floor(r * (maxHeight - minHeight + 1)) + minHeight] *)
Definition topPipeHeight (r : Q) : Q :=
  inject_Z (Qfloor (r * (maxHeight - minHeight + 1))) + minHeight.

Definition newPipe (startX r : Q) : Pipe.t :=
  Pipe.mk startX (topPipeHeight r) (topPipeHeight r + PIPE_GAP) false.

(** [xOverride] is [Some x] when the caller passes a number. *)
Definition generatePipe (xOverride : option Q) (w : World) : World :=
  let '(r, w) := random w in
  let startX :=
    match xOverride with Some x => x | None => VIRTUAL_WIDTH end in
  set_pipes (pipes w ++ [newPipe startX r]) w.

(** *** End of the game *)

Definition endGame (w : World) : World :=
  let w := note EndGame w in
  let w := set_gameRunning false w in
  let w := set_gameOver true w in
  let w :=
    match animationFrameId w with
    | Some (S h) => cancelAnimationFrame (S h) w
    | _ => w
    end in
  let w := set_musicPlaying false w in
  let w := set_crashPlays (S (crashPlays w)) w in
  let w := set_finalScoreDisplay (score w) w in
  set_modalHidden false w.

(** *** Flap *)

Definition flap (w : World) : World :=
  if gameRunning w then
    let w := set_bird (Bird.set_velocity FLAP_STRENGTH (bird w)) w in
    createFeathers 3 w
  else w.

(** *** Bird *)

Definition updateBird (w : World) : World :=
  let w := note UpdateBird w in
  let w :=
    set_bird
      (Bird.set_velocity (Bird.velocity (bird w) + GRAVITY) (bird w)) w in
  let w :=
    set_bird
      (Bird.set_y (Bird.y (bird w) + Bird.velocity (bird w)) (bird w)) w in
  let w :=
    if Qltb VIRTUAL_HEIGHT (Bird.y (bird w) + Bird.height (bird w)) then
      let w :=
        set_bird
          (Bird.set_y (VIRTUAL_HEIGHT - Bird.height (bird w)) (bird w)) w in
      let w := set_bird (Bird.set_velocity 0 (bird w)) w in
      endGame w
    else w in
  if Qltb (Bird.y (bird w)) 0 then
    let w := set_bird (Bird.set_y 0 (bird w)) w in
    set_bird (Bird.set_velocity 0 (bird w)) w
  else w.

Definition drawBird (w : World) : World := note DrawBird w.

(** *** Pipe update *)

(** What one iteration does to the pipe it visits: move it, then decide
    whether it scores. *)
Definition movePipe (p : Pipe.t) : Pipe.t :=
  Pipe.set_x (Pipe.x p - PIPE_SPEED) p.

Definition scores (birdX : Q) (p : Pipe.t) : bool :=
  negb (Pipe.passed p) && Qltb (Pipe.x p + PIPE_WIDTH) birdX.

Definition offLeft (p : Pipe.t) : bool := Qltb (Pipe.x p + PIPE_WIDTH) 0.

(** Body of the loop of [updatePipes] at index [i], where [pipe] is
    [pipes[i]]. *)
Definition pipeBody (i : nat) (pipe : Pipe.t) (w : World) : World :=
  let pipe := movePipe pipe in
  let w := set_pipes (<[i:=pipe]> (pipes w)) w in
  let w :=
    if scores (Bird.x (bird w)) pipe then
      let w := set_score (score w + 1)%Z w in
      let w := set_scoreDisplay (score w) w in
      set_pipes (<[i:=Pipe.set_passed true pipe]> (pipes w)) w
    else w in
  if offLeft pipe then set_pipes (delete i (pipes w)) w else w.

Fixpoint pipesLoop (n : nat) (w : World) : World :=
  match n with
  | O => w
  | S i =>
      pipesLoop i
        match pipes w !! i with Some pipe => pipeBody i pipe w | None => w end
  end.

Definition updatePipes (w : World) : World :=
  let w := note UpdatePipes w in
  let w := set_spawnTimer (spawnTimer w + 1)%Z w in
  let w :=
    if (PIPE_INTERVAL <=? spawnTimer w)%Z then
      set_spawnTimer 0%Z (generatePipe None w)
    else w in
  pipesLoop (length (pipes w)) w.

Definition drawPipes (w : World) : World := note DrawPipes w.

(** *** Collisions *)

Definition birdRect (b : Bird.t) : Rect.t :=
  Rect.mk (Bird.x b) (Bird.y b) (Bird.width b) (Bird.height b).

Definition topPipeRect (p : Pipe.t) : Rect.t :=
  Rect.mk (Pipe.x p) 0 PIPE_WIDTH (Pipe.topHeight p).

Definition bottomPipeRect (p : Pipe.t) : Rect.t :=
  Rect.mk (Pipe.x p) (Pipe.bottomY p) PIPE_WIDTH
    (VIRTUAL_HEIGHT - Pipe.bottomY p).

Definition hits (b : Bird.t) (p : Pipe.t) : bool :=
  isColliding (birdRect b) (topPipeRect p) ||
  isColliding (birdRect b) (bottomPipeRect p).

(** [for (let pipe of pipes)] with its early [return]. *)
Fixpoint collisionLoop (ps : list Pipe.t) (w : World) : World :=
  match ps with
  | [] => w
  | pipe :: rest =>
      if hits (bird w) pipe then endGame w else collisionLoop rest w
  end.

Definition checkCollisions (w : World) : World := collisionLoop (pipes w) w.

(** *** Main loop *)

Definition clearCanvas (w : World) : World := note ClearCanvas w.

Definition gameLoop (w : World) : World :=
  if negb (gameRunning w) then w
  else
    let w := updateClouds w in
    let w := updateBird w in
    let w := updatePipes w in
    let w := updateParticles w in
    let w := clearCanvas w in
    let w := drawClouds w in
    let w := drawPipes w in
    let w := drawParticles w in
    let w := drawBird w in
    let w := checkCollisions w in
    let '(h, w) := requestAnimationFrame w in
    set_animationFrameId (Some h) w.

(** *** Start *)

Fixpoint initialClouds (n : nat) (w : World) : World :=
  match n with
  | O => w
  | S k => initialClouds k (generateCloud true w)
  end.

(** [for (let i = 0; i < initialPipes; i++)], entered with [i] and [n]
    iterations left. *)
Fixpoint initialPipesLoop (n : nat) (i : Z) (w : World) : World :=
  match n with
  | O => w
  | S k =>
      let spacing := inject_Z PIPE_INTERVAL * PIPE_SPEED in
      let xPos := VIRTUAL_WIDTH + inject_Z i * spacing + 50 in
      initialPipesLoop k (i + 1)%Z (generatePipe (Some xPos) w)
  end.

Definition startGame (w : World) : World :=
  let w :=
    set_bird
      (Bird.mk BIRD_X (VIRTUAL_HEIGHT / 2 - BIRD_HEIGHT / 2)
         BIRD_WIDTH BIRD_HEIGHT 0) w in
  let w := set_pipes [] w in
  let w := set_particles [] w in
  let w := set_clouds [] w in
  let w := set_score 0%Z w in
  let w := set_gameRunning true w in
  let w := set_gameOver false w in
  let w := set_frameCount 0%Z w in
  let w := set_spawnTimer 0%Z w in
  let w := set_scoreDisplay (score w) w in
  let w := set_modalHidden true w in
  let w :=
    if Nat.eqb (length (clouds w)) 0 then initialClouds 5 w else w in
  let w := initialPipesLoop 3 0%Z w in
  let w := set_musicPlaying true w in
  gameLoop w.

(** *** Events *)

(** A display refresh runs the callbacks that were pending when it began,
    oldest first, skipping the ones cancelled in the meantime. *)
Fixpoint runCallbacks (hs : list nat) (w : World) : World :=
  match hs with
  | [] => w
  | h :: rest =>
      if bool_decide (h ∈ pending w) then
        runCallbacks rest (gameLoop (cancelAnimationFrame h w))
      else runCallbacks rest w
  end.

Definition refresh (w : World) : World := runCallbacks (pending w) w.

(** What can happen after the page has loaded: a display refresh, a flap
    input (Space key, click or touch) and a click on the restart button. *)
Inductive Event : Type := Refresh | FlapInput | RestartClick.

Definition handle (w : World) (e : Event) : World :=
  match e with
  | Refresh => refresh w
  | FlapInput => flap w
  | RestartClick => startGame w
  end.

Definition run (es : list Event) (w : World) : World := foldl handle w es.

(** The world before [window.onload]: nothing is running and no callback
    is pending.  The bird is not yet defined in the script; no routine
    reads it before [startGame] sets it, and it is given zeros here. *)
Definition blank : World :=
  mkWorld (Bird.mk 0 0 0 0 0) [] 0%Z false false 0%Z None [] [] 0%Z
    0%Z 0%Z true false 0%nat [] 1%nat 0%nat [].

(** [window.onload] starts the game. *)
Definition loaded : World := startGame blank.

Inductive reachable : World -> Prop :=
| reachable_loaded : reachable loaded
| reachable_step w e : reachable w -> reachable (handle w e).

End Engine.


(** ** Double-precision arithmetic

    The script's numbers are IEEE 754 binary64 values and every [+], [-],
    [*] and [/] rounds its exact result to the nearest of them, ties to the
    even significand.  [F64.round] is that rounding on rationals: a
    positive [q] with [2^k <= q < 2^(k+1)] goes to the nearest multiple of
    [2^(k-52)], or of [2^-1074] in the subnormal range.  Results of
    magnitude [2^1024] and more, which the script would turn into
    [Infinity], are not cut off; every comparison the script makes between
    such a result and a finite number comes out the same. *)

Module F64.

Definition pow2 (e : Z) : Q := 2 ^ e.

(** [floor (log2 q)] for [q > 0]. *)
Definition ilog2 (q : Q) : Z :=
  let e := (Z.log2 (Qnum q) - Z.log2 (Z.pos (Qden q)))%Z in
  if Qle_bool (pow2 e) q then e else (e - 1)%Z.

(** The nearest integer, the even one of two equally near. *)
Definition rne (q : Q) : Z :=
  let f := Qfloor q in
  match Qcompare (q - inject_Z f) (1 # 2) with
  | Lt => f
  | Gt => (f + 1)%Z
  | Eq => if Z.even f then f else (f + 1)%Z
  end.

(** The exponent of the last place of [q > 0]. *)
Definition exponent (q : Q) : Z := Z.max (ilog2 q - 52) (-1074).

Definition roundPos (q : Q) : Q :=
  Qred (inject_Z (rne (q / pow2 (exponent q))) * pow2 (exponent q)).

Definition round (q : Q) : Q :=
  match Qcompare q 0 with
  | Eq => 0
  | Gt => roundPos q
  | Lt => - roundPos (- q)
  end.

Definition add (a b : Q) : Q := round (a + b).
Definition sub (a b : Q) : Q := round (a - b).
Definition mul (a b : Q) : Q := round (a * b).
Definition div (a b : Q) : Q := round (a / b).

(** A rational that is a double: rounding leaves it as it is. *)
Definition isDouble (q : Q) : Prop := round q == q.

End F64.

Infix "⊕" := F64.add (at level 50, left associativity).
Infix "⊖" := F64.sub (at level 50, left associativity).
Infix "⊗" := F64.mul (at level 40, left associativity).
Infix "⊘" := F64.div (at level 40, left associativity).

(** ** The engine in double precision

    The routines of the script once more, with each arithmetic operation
    rounded as the script rounds it.  The world, the random oracle, the
    record of work, the callback queue and [endGame] are those above;
    counters stay integers.  The statements in which the last digit of a
    sum decides the outcome are made about these routines. *)

Module Js.

(** The constants that are not doubles as written.  The other constants
    are integers or halves and need no rounding. *)
Definition GRAVITY : Q := F64.round (3 # 10).
Definition PIPE_SPEED : Q := F64.round (18 # 10).

Definition isColliding (rect1 rect2 : Rect.t) : bool :=
  Qltb (Rect.x rect1) (Rect.x rect2 ⊕ Rect.width rect2) &&
  Qltb (Rect.x rect2) (Rect.x rect1 ⊕ Rect.width rect1) &&
  Qltb (Rect.y rect1) (Rect.y rect2 ⊕ Rect.height rect2) &&
  Qltb (Rect.y rect2) (Rect.y rect1 ⊕ Rect.height rect1).

Section Engine.

Variable rand : nat -> Q.

(** *** Clouds *)

Definition newCloud (randomX : bool) (r1 r2 r3 r4 : Q) : Cloud.t :=
  Cloud.mk
    (if randomX then r1 ⊗ VIRTUAL_WIDTH else VIRTUAL_WIDTH ⊕ r1 ⊗ 100)
    (r2 ⊗ (VIRTUAL_HEIGHT ⊘ 2))
    (r3 ⊗ 25 ⊕ 20)
    (r4 ⊗ F64.round (4 # 10) ⊕ F64.round (1 # 10)).

Definition generateCloud (randomX : bool) (w : World) : World :=
  let '(r1, w) := random rand w in
  let '(r2, w) := random rand w in
  let '(r3, w) := random rand w in
  let '(r4, w) := random rand w in
  set_clouds (clouds w ++ [newCloud randomX r1 r2 r3 r4]) w.

Definition moveCloud (c : Cloud.t) : Cloud.t :=
  Cloud.set_x (Cloud.x c ⊖ Cloud.speed c) c.

Definition cloudGone (c : Cloud.t) : bool :=
  Qltb (Cloud.x c ⊕ Cloud.size c ⊗ 3) 0.

Definition cloudBody (i : nat) (c : Cloud.t) (cs : list Cloud.t) : list Cloud.t :=
  let c := moveCloud c in
  let cs := <[i:=c]> cs in
  if cloudGone c then delete i cs else cs.

Fixpoint cloudsLoop (n : nat) (cs : list Cloud.t) : list Cloud.t :=
  match n with
  | O => cs
  | S i =>
      cloudsLoop i
        match cs !! i with Some c => cloudBody i c cs | None => cs end
  end.

Definition updateClouds (w : World) : World :=
  let w := note UpdateClouds w in
  let w := set_clouds (cloudsLoop (length (clouds w)) (clouds w)) w in
  if gameRunning w then
    let '(r, w) := random rand w in
    if Qltb r (F64.round (5 # 1000)) then generateCloud false w else w
  else w.

(** *** Feathers *)

Definition feather (b : Bird.t) (r1 r2 r3 : Q) : Particle.t :=
  Particle.mk
    (Bird.x b)
    (Bird.y b ⊕ Bird.height b ⊘ 2)
    (r1 ⊗ 3 ⊕ 2)
    (r2 ⊗ - (2) ⊖ 1)
    ((r3 ⊖ (5 # 10)) ⊗ 2)
    30.

Fixpoint createFeathers (amount : nat) (w : World) : World :=
  match amount with
  | O => w
  | S n =>
      let '(r1, w) := random rand w in
      let '(r2, w) := random rand w in
      let '(r3, w) := random rand w in
      createFeathers n
        (set_particles (particles w ++ [feather (bird w) r1 r2 r3]) w)
  end.

Definition moveParticle (p : Particle.t) : Particle.t :=
  Particle.mk
    (Particle.x p ⊕ Particle.speedX p)
    (Particle.y p ⊕ Particle.speedY p)
    (Particle.size p) (Particle.speedX p) (Particle.speedY p)
    (Particle.life p - 1).

Definition particleBody (i : nat) (p : Particle.t) (ps : list Particle.t)
  : list Particle.t :=
  let p := moveParticle p in
  let ps := <[i:=p]> ps in
  if (Particle.life p <=? 0)%Z then delete i ps else ps.

Fixpoint particlesLoop (n : nat) (ps : list Particle.t) : list Particle.t :=
  match n with
  | O => ps
  | S i =>
      particlesLoop i
        match ps !! i with Some p => particleBody i p ps | None => ps end
  end.

Definition updateParticles (w : World) : World :=
  let w := note UpdateParticles w in
  set_particles (particlesLoop (length (particles w)) (particles w)) w.

(** *** Pipes *)

Definition minHeight : Q := 80.
Definition maxHeight : Q := VIRTUAL_HEIGHT ⊖ PIPE_GAP ⊖ minHeight.

(** [Math.floor(r * (maxHeight - minHeight + 1)) + minHeight] *)
Definition topPipeHeight (r : Q) : Q :=
  inject_Z (Qfloor (r ⊗ (maxHeight ⊖ minHeight ⊕ 1))) ⊕ minHeight.

Definition newPipe (startX r : Q) : Pipe.t :=
  Pipe.mk startX (topPipeHeight r) (topPipeHeight r ⊕ PIPE_GAP) false.

Definition generatePipe (xOverride : option Q) (w : World) : World :=
  let '(r, w) := random rand w in
  let startX :=
    match xOverride with Some x => x | None => VIRTUAL_WIDTH end in
  set_pipes (pipes w ++ [newPipe startX r]) w.

(** *** Flap *)

Definition flap (w : World) : World :=
  if gameRunning w then
    let w := set_bird (Bird.set_velocity FLAP_STRENGTH (bird w)) w in
    createFeathers 3 w
  else w.

(** *** Bird *)

Definition updateBird (w : World) : World :=
  let w := note UpdateBird w in
  let w :=
    set_bird
      (Bird.set_velocity (Bird.velocity (bird w) ⊕ GRAVITY) (bird w)) w in
  let w :=
    set_bird
      (Bird.set_y (Bird.y (bird w) ⊕ Bird.velocity (bird w)) (bird w)) w in
  let w :=
    if Qltb VIRTUAL_HEIGHT (Bird.y (bird w) ⊕ Bird.height (bird w)) then
      let w :=
        set_bird
          (Bird.set_y (VIRTUAL_HEIGHT ⊖ Bird.height (bird w)) (bird w)) w in
      let w := set_bird (Bird.set_velocity 0 (bird w)) w in
      endGame w
    else w in
  if Qltb (Bird.y (bird w)) 0 then
    let w := set_bird (Bird.set_y 0 (bird w)) w in
    set_bird (Bird.set_velocity 0 (bird w)) w
  else w.

(** *** Pipe update *)

Definition movePipe (p : Pipe.t) : Pipe.t :=
  Pipe.set_x (Pipe.x p ⊖ PIPE_SPEED) p.

Definition scores (birdX : Q) (p : Pipe.t) : bool :=
  negb (Pipe.passed p) && Qltb (Pipe.x p ⊕ PIPE_WIDTH) birdX.

Definition offLeft (p : Pipe.t) : bool := Qltb (Pipe.x p ⊕ PIPE_WIDTH) 0.

Definition pipeBody (i : nat) (pipe : Pipe.t) (w : World) : World :=
  let pipe := movePipe pipe in
  let w := set_pipes (<[i:=pipe]> (pipes w)) w in
  let w :=
    if scores (Bird.x (bird w)) pipe then
      let w := set_score (score w + 1)%Z w in
      let w := set_scoreDisplay (score w) w in
      set_pipes (<[i:=Pipe.set_passed true pipe]> (pipes w)) w
    else w in
  if offLeft pipe then set_pipes (delete i (pipes w)) w else w.

Fixpoint pipesLoop (n : nat) (w : World) : World :=
  match n with
  | O => w
  | S i =>
      pipesLoop i
        match pipes w !! i with Some pipe => pipeBody i pipe w | None => w end
  end.

Definition updatePipes (w : World) : World :=
  let w := note UpdatePipes w in
  let w := set_spawnTimer (spawnTimer w + 1)%Z w in
  let w :=
    if (PIPE_INTERVAL <=? spawnTimer w)%Z then
      set_spawnTimer 0%Z (generatePipe None w)
    else w in
  pipesLoop (length (pipes w)) w.

(** *** Collisions *)

Definition bottomPipeRect (p : Pipe.t) : Rect.t :=
  Rect.mk (Pipe.x p) (Pipe.bottomY p) PIPE_WIDTH
    (VIRTUAL_HEIGHT ⊖ Pipe.bottomY p).

Definition hits (b : Bird.t) (p : Pipe.t) : bool :=
  isColliding (birdRect b) (topPipeRect p) ||
  isColliding (birdRect b) (bottomPipeRect p).

Fixpoint collisionLoop (ps : list Pipe.t) (w : World) : World :=
  match ps with
  | [] => w
  | pipe :: rest =>
      if hits (bird w) pipe then endGame w else collisionLoop rest w
  end.

Definition checkCollisions (w : World) : World := collisionLoop (pipes w) w.

(** *** Main loop *)

Definition gameLoop (w : World) : World :=
  if negb (gameRunning w) then w
  else
    let w := updateClouds w in
    let w := updateBird w in
    let w := updatePipes w in
    let w := updateParticles w in
    let w := clearCanvas w in
    let w := drawClouds w in
    let w := drawPipes w in
    let w := drawParticles w in
    let w := drawBird w in
    let w := checkCollisions w in
    let '(h, w) := requestAnimationFrame w in
    set_animationFrameId (Some h) w.

(** *** Start *)

Fixpoint initialClouds (n : nat) (w : World) : World :=
  match n with
  | O => w
  | S k => initialClouds k (generateCloud true w)
  end.

Fixpoint initialPipesLoop (n : nat) (i : Z) (w : World) : World :=
  match n with
  | O => w
  | S k =>
      let spacing := inject_Z PIPE_INTERVAL ⊗ PIPE_SPEED in
      let xPos := VIRTUAL_WIDTH ⊕ inject_Z i ⊗ spacing ⊕ 50 in
      initialPipesLoop k (i + 1)%Z (generatePipe (Some xPos) w)
  end.

Definition startGame (w : World) : World :=
  let w :=
    set_bird
      (Bird.mk BIRD_X (VIRTUAL_HEIGHT ⊘ 2 ⊖ BIRD_HEIGHT ⊘ 2)
         BIRD_WIDTH BIRD_HEIGHT 0) w in
  let w := set_pipes [] w in
  let w := set_particles [] w in
  let w := set_clouds [] w in
  let w := set_score 0%Z w in
  let w := set_gameRunning true w in
  let w := set_gameOver false w in
  let w := set_frameCount 0%Z w in
  let w := set_spawnTimer 0%Z w in
  let w := set_scoreDisplay (score w) w in
  let w := set_modalHidden true w in
  let w :=
    if Nat.eqb (length (clouds w)) 0 then initialClouds 5 w else w in
  let w := initialPipesLoop 3 0%Z w in
  let w := set_musicPlaying true w in
  gameLoop w.

(** *** Events *)

Fixpoint runCallbacks (hs : list nat) (w : World) : World :=
  match hs with
  | [] => w
  | h :: rest =>
      if bool_decide (h ∈ pending w) then
        runCallbacks rest (gameLoop (cancelAnimationFrame h w))
      else runCallbacks rest w
  end.

Definition refresh (w : World) : World := runCallbacks (pending w) w.

Definition handle (w : World) (e : Event) : World :=
  match e with
  | Refresh => refresh w
  | FlapInput => flap w
  | RestartClick => startGame w
  end.

Definition run (es : list Event) (w : World) : World := foldl handle w es.

Definition loaded : World := startGame blank.

Inductive reachable : World -> Prop :=
| reachable_loaded : reachable loaded
| reachable_step w e : reachable w -> reachable (handle w e).

(** *** Views *)

(** The bird after gravity has acted on it, before any clamping. *)
Definition fallen (b : Bird.t) : Bird.t :=
  Bird.mk (Bird.x b) (Bird.y b ⊕ (Bird.velocity b ⊕ GRAVITY))
    (Bird.width b) (Bird.height b) (Bird.velocity b ⊕ GRAVITY).

(** The floor test of [updateBird]. *)
Definition belowFloor (b : Bird.t) : Prop :=
  VIRTUAL_HEIGHT < Bird.y b ⊕ Bird.height b.

Definition floorHit (w : World) : bool :=
  Qltb VIRTUAL_HEIGHT (Bird.y (fallen (bird w)) ⊕ Bird.height (bird w)).

Definition frameUpdates (w : World) : World :=
  updateParticles (updatePipes (updateBird (updateClouds w))).

(** The work a frame adds to the record. *)
Definition frameLog (w : World) : list Work :=
  drop (length (log w)) (log (gameLoop w)).

End Engine.

End Js.

(** Every answer of [Math.random()] is a double in [0, 1). *)
Definition unitDouble (rand : nat -> Q) : Prop :=
  forall n, F64.isDouble (rand n) /\ 0 <= rand n < 1.
(** ** Views used in the statements *)

(** A pipe after the iteration of [updatePipes] that visits it. *)
Definition pipeAfter (birdX : Q) (p : Pipe.t) : Pipe.t :=
  let p := movePipe p in
  if scores birdX p then Pipe.set_passed true p else p.

(** The pipes an update keeps, and how many it scores. *)
Definition survivors (birdX : Q) (ps : list Pipe.t) : list Pipe.t :=
  filter (fun p => offLeft p = false) (map (pipeAfter birdX) ps).

Definition scoredNow (birdX : Q) (ps : list Pipe.t) : Z :=
  Z.of_nat (length (filter (fun p => scores birdX (movePipe p) = true) ps)).

(** The axis projections of two rectangles overlap strictly. *)
Definition overlapX (r1 r2 : Rect.t) : Prop :=
  Rect.x r1 < Rect.x r2 + Rect.width r2 /\
  Rect.x r1 + Rect.width r1 > Rect.x r2.

Definition overlapY (r1 r2 : Rect.t) : Prop :=
  Rect.y r1 < Rect.y r2 + Rect.height r2 /\
  Rect.y r1 + Rect.height r1 > Rect.y r2.

(** An edge of one lies on the facing edge of the other. *)
Definition touching (r1 r2 : Rect.t) : Prop :=
  Rect.x r1 + Rect.width r1 == Rect.x r2 \/
  Rect.x r2 + Rect.width r2 == Rect.x r1 \/
  Rect.y r1 + Rect.height r1 == Rect.y r2 \/
  Rect.y r2 + Rect.height r2 == Rect.y r1.

(** One lies wholly to one side of the other. *)
Definition disjoint (r1 r2 : Rect.t) : Prop :=
  Rect.x r1 + Rect.width r1 < Rect.x r2 \/
  Rect.x r2 + Rect.width r2 < Rect.x r1 \/
  Rect.y r1 + Rect.height r1 < Rect.y r2 \/
  Rect.y r2 + Rect.height r2 < Rect.y r1.

(** [r1] lies inside [r2]. *)
Definition inside (r1 r2 : Rect.t) : Prop :=
  Rect.x r2 <= Rect.x r1 /\
  Rect.x r1 + Rect.width r1 <= Rect.x r2 + Rect.width r2 /\
  Rect.y r2 <= Rect.y r1 /\
  Rect.y r1 + Rect.height r1 <= Rect.y r2 + Rect.height r2.

(** The world as [updatePipes] has it when its loop begins: the timer has
    advanced and a due pipe has been spawned. *)
Definition beforePipesLoop (rand : nat -> Q) (w : World) : World :=
  let w := note UpdatePipes w in
  let w := set_spawnTimer (spawnTimer w + 1)%Z w in
  if (PIPE_INTERVAL <=? spawnTimer w)%Z then
    set_spawnTimer 0%Z (generatePipe rand None w)
  else w.

(** The work a frame adds to the record. *)
Definition frameLog (rand : nat -> Q) (w : World) : list Work :=
  drop (length (log w)) (log (gameLoop rand w)).

(** How often the game was ended in a stretch of work. *)
Definition ends (l : list Work) : nat := length (filter (fun k => isEnd k = true) l).

(** Whether no update or draw routine ran after the game was ended. *)
Fixpoint quietAfterEnd (l : list Work) : bool :=
  match l with
  | [] => true
  | k :: rest => if isEnd k then forallb isEnd rest else quietAfterEnd rest
  end.

(** One pipe followed over [n] frames: the pipe then, and how many times
    it has made the score go up. *)
Fixpoint pipeFrames (birdX : Q) (n : nat) (p : Pipe.t) : Pipe.t * Z :=
  match n with
  | O => (p, 0%Z)
  | S k =>
      let '(q, c) := pipeFrames birdX k p in
      (pipeAfter birdX q,
       (c + (if scores birdX (movePipe q) then 1 else 0))%Z)
  end.

Definition pipeAt (birdX : Q) (n : nat) (p : Pipe.t) : Pipe.t :=
  fst (pipeFrames birdX n p).

Definition rightEdge (p : Pipe.t) : Q := Pipe.x p + PIPE_WIDTH.

(** The bird after gravity has acted on it, before any clamping. *)
Definition fallen (b : Bird.t) : Bird.t :=
  Bird.mk (Bird.x b) (Bird.y b + (Bird.velocity b + GRAVITY))
    (Bird.width b) (Bird.height b) (Bird.velocity b + GRAVITY).

(** Its bottom is below the floor; its top is above the ceiling. *)
Definition belowFloor (b : Bird.t) : Prop :=
  VIRTUAL_HEIGHT < Bird.y b + Bird.height b.

Definition aboveCeiling (b : Bird.t) : Prop := Bird.y b < 0.

(** The bird is where the clamping leaves it. *)
Definition inRange (b : Bird.t) : Prop :=
  0 <= Bird.y b <= VIRTUAL_HEIGHT - Bird.height b.

(** A world that holds nothing but a running game with the given bird. *)
Definition worldWith (b : Bird.t) : World :=
  mkWorld b [] 0%Z true false 0%Z None [] [] 0%Z
    0%Z 0%Z true true 0%nat [] 1%nat 0%nat [].

(** The bird has the place and size [startGame] gives it. *)
Definition birdShape (b : Bird.t) : Prop :=
  Bird.x b = BIRD_X /\ Bird.width b = BIRD_WIDTH /\ Bird.height b = BIRD_HEIGHT.

(** No pipe that is still unpassed has its right edge left of the bird. *)
Definition unpassedAhead (birdX : Q) (ps : list Pipe.t) : Prop :=
  forall p, In p ps -> Pipe.passed p = false -> birdX <= rightEdge p.

(** What holds of the bird and the pipes between events. *)
Definition steady (w : World) : Prop :=
  birdShape (bird w) /\ inRange (bird w) /\
  unpassedAhead (Bird.x (bird w)) (pipes w).

(** An oracle whose every answer is 1/2, for the worked examples. *)
Definition oracleHalf : nat -> Q := fun _ => 1 # 2.

(** The three parts of a frame once its guard has let it through. *)
Definition frameUpdates (rand : nat -> Q) (w : World) : World :=
  updateParticles (updatePipes rand (updateBird (updateClouds rand w))).

Definition frameDraws (w : World) : World :=
  drawBird (drawParticles (drawPipes (drawClouds (clearCanvas w)))).

Definition scheduleNext (w : World) : World :=
  let '(h, w) := requestAnimationFrame w in
  set_animationFrameId (Some h) w.

(** The world [startGame] has made when it begins to add clouds. *)
Definition resetWorld (w : World) : World :=
  let w :=
    set_bird
      (Bird.mk BIRD_X (VIRTUAL_HEIGHT / 2 - BIRD_HEIGHT / 2)
         BIRD_WIDTH BIRD_HEIGHT 0) w in
  let w := set_pipes [] w in
  let w := set_particles [] w in
  let w := set_clouds [] w in
  let w := set_score 0%Z w in
  let w := set_gameRunning true w in
  let w := set_gameOver false w in
  let w := set_frameCount 0%Z w in
  let w := set_spawnTimer 0%Z w in
  let w := set_scoreDisplay (score w) w in
  set_modalHidden true w.

(** The world [startGame] hands to its first frame. *)
Definition beforeFirstFrame (rand : nat -> Q) (w : World) : World :=
  set_musicPlaying true
    (initialPipesLoop rand 3 0%Z (initialClouds rand 5 (resetWorld w))).

(** The feather [createFeathers] makes at the bird from three random
    numbers. *)
Definition feather (b : Bird.t) (r1 r2 r3 : Q) : Particle.t :=
  Particle.mk (Bird.x b) (Bird.y b + Bird.height b / 2)
    (r1 * 3 + 2) (r2 * - (2) - 1) ((r3 - (5 # 10)) * 2) 30.

(** The [n] feathers made from the oracle's answers number [k] onwards. *)
Fixpoint feathers (rand : nat -> Q) (b : Bird.t) (k n : nat) : list Particle.t :=
  match n with
  | O => []
  | S m =>
      feather b (rand k) (rand (S k)) (rand (S (S k))) ::
      feathers rand b (S (S (S k))) m
  end.

(** The update and draw work of a frame, in the order it is done. *)
Definition frameWork : list Work :=
  [UpdateClouds; UpdateBird; UpdatePipes; UpdateParticles;
   ClearCanvas; DrawClouds; DrawPipes; DrawParticles; DrawBird].

(** How often a routine ran in a stretch of work. *)
Definition runs (k : Work) (l : list Work) : nat :=
  length (filter (fun j => Work_eqb j k = true) l).

(** The bird update is about to put the bird on the floor. *)
Definition floorHit (w : World) : bool :=
  Qltb VIRTUAL_HEIGHT (Bird.y (fallen (bird w)) + Bird.height (bird w)).

(** A flap before each of [n] display refreshes. *)
Definition flapEveryFrame (n : nat) : list Event :=
  concat (repeat [FlapInput; Refresh] n).

(** An event other than the restart click. *)
Definition notRestart (e : Event) : Prop := e <> RestartClick.

(** ** Further routines and views *)

(** [drawBird]: the rotation of the sprite in degrees,
    [Math.max(Math.min(bird.velocity * 4, 25), -90)], before it is turned
    into radians. *)
Definition rotationDegrees (b : Bird.t) : Q :=
  Qmax (Qmin (Bird.velocity b * 4) 25) (- (90)).

(** [drawParticles]: the opacity a feather is drawn with, [p.life / 30]. *)
Definition particleAlpha (p : Particle.t) : Q :=
  inject_Z (Particle.life p) / 30.

(** A cloud, and a feather, after the iteration of the update loop that
    visits it, and whether the iteration splices it out. *)
Definition moveCloud (c : Cloud.t) : Cloud.t :=
  Cloud.set_x (Cloud.x c - Cloud.speed c) c.

Definition cloudGone (c : Cloud.t) : bool :=
  Qltb (Cloud.x c + Cloud.size c * 3) 0.

Definition moveParticle (p : Particle.t) : Particle.t :=
  Particle.mk (Particle.x p + Particle.speedX p)
    (Particle.y p + Particle.speedY p)
    (Particle.size p) (Particle.speedX p) (Particle.speedY p)
    (Particle.life p - 1).

Definition particleDead (p : Particle.t) : bool := (Particle.life p <=? 0)%Z.

(** The cloud [generateCloud] makes from four random numbers. *)
Definition newCloud (randomX : bool) (r1 r2 r3 r4 : Q) : Cloud.t :=
  Cloud.mk
    (if randomX then r1 * VIRTUAL_WIDTH else VIRTUAL_WIDTH + r1 * 100)
    (r2 * (VIRTUAL_HEIGHT / 2))
    (r3 * 25 + 20)
    (r4 * (4 # 10) + (1 # 10)).

(** The oracle answers like [Math.random()]: in [0, 1). *)
Definition unitOracle (rand : nat -> Q) : Prop := forall n, 0 <= rand n < 1.

(** Worlds reached when the restart button is only clicked while no frame
    callback is pending. *)
Inductive reachableCalmly (rand : nat -> Q) : World -> Prop :=
| calm_loaded : reachableCalmly rand (loaded rand)
| calm_refresh w :
    reachableCalmly rand w -> reachableCalmly rand (refresh rand w)
| calm_flap w :
    reachableCalmly rand w -> reachableCalmly rand (flap rand w)
| calm_restart w :
    reachableCalmly rand w -> pending w = [] ->
    reachableCalmly rand (startGame rand w).

(** The lifecycle flags agree with one another. *)
Definition flagsAgree (w : World) : Prop :=
  gameOver w = negb (gameRunning w) /\
  modalHidden w = gameRunning w /\
  musicPlaying w = gameRunning w.

(** The bird's kinetic energy is bounded by what one flap and the fall
    from the ceiling give it. *)
Definition energyBounded (b : Bird.t) : Prop :=
  Bird.velocity b * Bird.velocity b <=
  FLAP_STRENGTH * FLAP_STRENGTH + 2 * GRAVITY * Bird.y b.

(** A pipe has the shape [generatePipe] gives pipes. *)
Definition pipeShape (p : Pipe.t) : Prop :=
  minHeight <= Pipe.topHeight p <= maxHeight /\
  Pipe.bottomY p == Pipe.topHeight p + PIPE_GAP.

(** A cloud has the shape [generateCloud] gives clouds. *)
Definition cloudShape (c : Cloud.t) : Prop :=
  0 <= Cloud.y c < VIRTUAL_HEIGHT / 2 /\
  20 <= Cloud.size c < 45 /\
  (1 # 10) <= Cloud.speed c < (5 # 10).

(** The bird and the pipe overlap horizontally. *)
Definition abreast (b : Bird.t) (p : Pipe.t) : Prop :=
  Bird.x b < Pipe.x p + PIPE_WIDTH /\ Pipe.x p < Bird.x b + Bird.width b.

(** The bird is within the gap of the pipe. *)
Definition inGap (b : Bird.t) (p : Pipe.t) : Prop :=
  Pipe.topHeight p <= Bird.y b /\ Bird.y b + Bird.height b <= Pipe.bottomY p.

(** ** Views used by the further properties *)

(** The clouds an update keeps: each moved left by its speed, those wholly
    past the left edge dropped. *)
Definition keptClouds (cs : list Cloud.t) : list Cloud.t :=
  filter (fun c => cloudGone c = false) (map moveCloud cs).

(** The feathers an update keeps: each moved by its velocity and a frame
    older, those with no life left dropped. *)
Definition keptParticles (ps : list Particle.t) : list Particle.t :=
  filter (fun p => particleDead p = false) (map moveParticle ps).

(** A feather has between 1 and 30 frames of life left. *)
Definition alive (p : Particle.t) : Prop := (1 <= Particle.life p <= 30)%Z.

(** Every feather of the world is alive. *)
Definition feathersAlive (w : World) : Prop :=
  forall p, In p (particles w) -> alive p.

(** The score readout shows the score. *)
Definition displaySynced (w : World) : Prop := scoreDisplay w = score w.

(** The spawn timer is below the spawn interval. *)
Definition timerInRange (w : World) : Prop :=
  (0 <= spawnTimer w < PIPE_INTERVAL)%Z.

(** While the game runs the bird touches no pipe. *)
Definition clearOfPipes (w : World) : Prop :=
  gameRunning w = true -> forall p, In p (pipes w) -> hits (bird w) p = false.

(** At most one frame callback is pending, and while the game runs it is
    the one the script remembers. *)
Definition oneChain (w : World) : Prop :=
  (length (pending w) <= 1)%nat /\
  (gameRunning w = true ->
   exists h, pending w = [h] /\ animationFrameId w = Some h).

(** The bird as flaps and falls leave it: placed and sized as at the
    start, in range, with bounded energy and rising no faster than a flap
    makes it. *)
Definition birdTame (w : World) : Prop :=
  birdShape (bird w) /\ inRange (bird w) /\ energyBounded (bird w) /\
  FLAP_STRENGTH <= Bird.velocity (bird w).

(** The pipes [startGame] makes: [n] of them, the first with index [i], from
    the oracle's answers number [k] onwards. *)
Fixpoint initialPipes (rand : nat -> Q) (n : nat) (i : Z) (k : nat)
  : list Pipe.t :=
  match n with
  | O => []
  | S m =>
      newPipe
        (VIRTUAL_WIDTH + inject_Z i * (inject_Z PIPE_INTERVAL * PIPE_SPEED) + 50)
        (rand k) ::
      initialPipes rand m (i + 1)%Z (S k)
  end.

(** A cloud as [startGame] places clouds: well shaped, within the
    viewport's width. *)
Definition cloudSeeded (c : Cloud.t) : Prop :=
  cloudShape c /\ 0 <= Cloud.x c < VIRTUAL_WIDTH.

(** A pipe that is unpassed and at least two frames right of the bird. *)
Definition farRight (p : Pipe.t) : Prop :=
  Pipe.passed p = false /\ 100 <= Pipe.x p.

(** Every pipe of the world has the shape [generatePipe] gives pipes. *)
Definition pipesShaped (w : World) : Prop :=
  forall p, In p (pipes w) -> pipeShape p.

(** While the game runs, the bird is no lower than 520 whenever some
    unpassed pipe has come as far as the bird's right edge. *)
Definition nearPipesHigh (w : World) : Prop :=
  gameRunning w = true ->
  forall p, In p (pipes w) -> Pipe.passed p = false ->
  Pipe.x p < Bird.x (bird w) + Bird.width (bird w) ->
  Bird.y (bird w) <= 520.

(** Once the game is over the final score shown is the score. *)
Definition finalShown (w : World) : Prop :=
  gameOver w = true -> finalScoreDisplay w = score w.

(** All that is kept between events. *)
Definition settled (w : World) : Prop :=
  steady w /\ birdTame w /\ clearOfPipes w /\ pipesShaped w /\
  flagsAgree w /\ nearPipesHigh w /\ finalShown w.


(** The corner a rectangle is placed at is a pair of doubles. *)
Definition doubleCorner (r : Rect.t) : Prop :=
  F64.isDouble (Rect.x r) /\ F64.isDouble (Rect.y r).

(** The projections overlap strictly when the far edges are the sums as
    the script computes them. *)
Definition overlapXComputed (r1 r2 : Rect.t) : Prop :=
  Rect.x r1 < Rect.x r2 ⊕ Rect.width r2 /\
  Rect.x r1 ⊕ Rect.width r1 > Rect.x r2.

Definition overlapYComputed (r1 r2 : Rect.t) : Prop :=
  Rect.y r1 < Rect.y r2 ⊕ Rect.height r2 /\
  Rect.y r1 ⊕ Rect.height r1 > Rect.y r2.

(** A flight that lasts until the first pipe leaves the viewport: 275
    display refreshes with a flap before the 20th and before every 49th
    after it. *)
Definition flightPastFirstPipe : list Event :=
  repeat Refresh 19 ++
  concat (repeat (FlapInput :: repeat Refresh 49) 5) ++
  FlapInput :: repeat Refresh 11.

(** The clouds an update keeps, in the script's arithmetic: each moved
    left by its speed, those it finds wholly past the left edge dropped. *)
Definition keptCloudsComputed (cs : list Cloud.t) : list Cloud.t :=
  filter (fun c => Js.cloudGone c = false) (map Js.moveCloud cs).

(** The shape [generateCloud] gives clouds, the upper ends of size and
    speed included: rounding reaches them. *)
Definition cloudInShape (c : Cloud.t) : Prop :=
  0 <= Cloud.y c < VIRTUAL_HEIGHT / 2 /\
  20 <= Cloud.size c <= 45 /\
  (1 # 10) <= Cloud.speed c <= (5 # 10).
(** * Proofs *)

(** ** The comparison *)

Lemma Qltb_lt (a b : Q) : Qltb a b = true <-> a < b.
Proof.
  unfold Qltb. rewrite negb_true_iff.
  destruct (Qle_bool b a) eqn:E.
  - apply Qle_bool_iff in E. split; [discriminate | intros H; lra].
  - split; [intros _ | reflexivity].
    destruct (Qlt_le_dec a b) as [H | H]; [exact H |].
    apply Qle_bool_iff in H. congruence.
Qed.

Lemma Qltb_ge (a b : Q) : Qltb a b = false <-> b <= a.
Proof.
  unfold Qltb. rewrite negb_false_iff. apply Qle_bool_iff.
Qed.

Section Loops.

Variable rand : nat -> Q.

Lemma world_eta (w : World) :
  set_pipes (pipes w) (set_scoreDisplay (scoreDisplay w) (set_score (score w) w)) = w.
Proof. destruct w; reflexivity. Qed.

Lemma pipeBody_spec (l l2 : list Pipe.t) (p : Pipe.t) (w : World) :
  pipes w = l ++ p :: l2 ->
  pipeBody (length l) p w =
    let bx := Bird.x (bird w) in
    let hit := scores bx (movePipe p) in
    set_pipes
      (l ++ (if offLeft (movePipe p) then [] else [pipeAfter bx p]) ++ l2)
      (set_scoreDisplay (if hit then (score w + 1)%Z else scoreDisplay w)
         (set_score (if hit then (score w + 1)%Z else score w) w)).
Proof.
  intros Hp. unfold pipeBody, pipeAfter. cbn zeta.
  destruct w as [b ps sc gr go fc af pa cl st sd fsd mh mp cp pe nh rc lg].
  cbn in *. subst ps.
  replace (length l) with (length l + 0)%nat by lia.
  destruct (scores (Bird.x b) (movePipe p)) eqn:Hs; cbn;
    rewrite ?insert_app_r; cbn;
    destruct (offLeft (movePipe p)) eqn:Ho; cbn;
    rewrite ?insert_app_r; cbn;
    rewrite ?Nat.add_0_r, ?delete_middle; reflexivity.
Qed.

Lemma offLeft_pipeAfter (bx : Q) (p : Pipe.t) :
  offLeft (pipeAfter bx p) = offLeft (movePipe p).
Proof. unfold pipeAfter. cbn zeta. destruct (scores bx (movePipe p)); reflexivity. Qed.

Lemma survivors_snoc (bx : Q) (l : list Pipe.t) (p : Pipe.t) :
  survivors bx (l ++ [p]) =
  survivors bx l ++ (if offLeft (movePipe p) then [] else [pipeAfter bx p]).
Proof.
  unfold survivors. rewrite map_app, filter_app. f_equal.
  cbn [map]. rewrite filter_cons, filter_nil, offLeft_pipeAfter.
  destruct (offLeft (movePipe p)); reflexivity.
Qed.

Lemma scoredNow_snoc (bx : Q) (l : list Pipe.t) (p : Pipe.t) :
  scoredNow bx (l ++ [p]) =
  (scoredNow bx l + (if scores bx (movePipe p) then 1 else 0))%Z.
Proof.
  unfold scoredNow. rewrite filter_app, length_app, Nat2Z.inj_add. f_equal.
  rewrite filter_cons, filter_nil.
  destruct (scores bx (movePipe p)); reflexivity.
Qed.

Lemma scoredNow_nonneg (bx : Q) (l : list Pipe.t) : (0 <= scoredNow bx l)%Z.
Proof. unfold scoredNow. lia. Qed.

(** The loop of [updatePipes], run over the first [length l] pipes, in
    closed form. *)
Lemma pipesLoop_spec (l : list Pipe.t) :
  forall (l2 : list Pipe.t) (w : World),
  pipes w = l ++ l2 ->
  pipesLoop (length l) w =
    let bx := Bird.x (bird w) in
    let k := scoredNow bx l in
    set_pipes (survivors bx l ++ l2)
      (set_scoreDisplay (if (k =? 0)%Z then scoreDisplay w else (score w + k)%Z)
         (set_score (score w + k)%Z w)).
Proof.
  induction l as [| p l IH] using rev_ind; intros l2 w Hw.
  - cbn. rewrite Z.add_0_r. cbn in Hw. rewrite <- Hw. apply eq_sym, world_eta.
  - rewrite length_app. cbn [length]. rewrite Nat.add_1_r. cbn [pipesLoop].
    rewrite <- app_assoc in Hw. cbn [app] in Hw.
    rewrite Hw, list_lookup_middle by reflexivity.
    rewrite (pipeBody_spec l l2 p w Hw). cbn zeta.
    erewrite IH by reflexivity.
    cbn zeta. rewrite survivors_snoc, scoredNow_snoc.
    pose proof (scoredNow_nonneg (Bird.x (bird w)) l) as Hk.
    destruct w as [b ps sc gr go fc af pa cl st sd fsd mh mp cp pe nh rc lg].
    cbn in *. rewrite <- app_assoc.
    destruct (scores (Bird.x b) (movePipe p)); wsimpl;
      f_equal; try lia;
      repeat match goal with
             | |- context [(?a =? 0)%Z] => destruct (Z.eqb_spec a 0)
             end; lia.
Qed.
End Loops.


(** ** What each routine leaves alone *)

Section Frames.

Variable rand : nat -> Q.

Ltac split_ifs :=
  repeat match goal with
         | |- context [if ?c then _ else _] => destruct c eqn:?
         | |- context [match ?c with Some _ => _ | None => _ end] => destruct c eqn:?
         | |- context [match ?c with O => _ | S _ => _ end] => destruct c eqn:?
         end.

Create HintDb engine.

#[local] Hint Unfold random note requestAnimationFrame cancelAnimationFrame
  generateCloud updateClouds drawClouds updateParticles drawParticles
  generatePipe endGame flap updateBird drawBird drawPipes clearCanvas
  beforePipesLoop : engine.

Ltac frame := autounfold with engine; wsimpl; split_ifs; reflexivity.

Lemma updatePipes_loop (w : World) :
  updatePipes rand w =
  pipesLoop (length (pipes (beforePipesLoop rand w))) (beforePipesLoop rand w).
Proof. reflexivity. Qed.

(** [updatePipes] in closed form. *)
Lemma updatePipes_spec (w : World) :
  updatePipes rand w =
    let w0 := beforePipesLoop rand w in
    let bx := Bird.x (bird w) in
    let k := scoredNow bx (pipes w0) in
    set_pipes (survivors bx (pipes w0))
      (set_scoreDisplay
         (if (k =? 0)%Z then scoreDisplay w else (score w + k)%Z)
         (set_score (score w + k)%Z w0)).
Proof.
  rewrite updatePipes_loop.
  rewrite (pipesLoop_spec (pipes (beforePipesLoop rand w)) [])
    by (rewrite app_nil_r; reflexivity).
  cbn zeta. rewrite app_nil_r.
  assert (Hb : bird (beforePipesLoop rand w) = bird w)
    by frame.
  assert (Hs : score (beforePipesLoop rand w) = score w)
    by frame.
  assert (Hd : scoreDisplay (beforePipesLoop rand w) = scoreDisplay w)
    by frame.
  rewrite Hb, Hs, Hd. reflexivity.
Qed.


(** *** Ending the game *)

Lemma endGame_bird (w : World) : bird (endGame w) = bird w.
Proof. frame. Qed.

Lemma endGame_pipes (w : World) : pipes (endGame w) = pipes w.
Proof. frame. Qed.

Lemma endGame_score (w : World) : score (endGame w) = score w.
Proof. frame. Qed.

Lemma endGame_particles (w : World) : particles (endGame w) = particles w.
Proof. frame. Qed.

Lemma endGame_clouds (w : World) : clouds (endGame w) = clouds w.
Proof. frame. Qed.

Lemma endGame_log (w : World) : log (endGame w) = log w ++ [EndGame].
Proof. frame. Qed.

Lemma endGame_gameRunning (w : World) : gameRunning (endGame w) = false.
Proof. frame. Qed.

(** *** The collision check either does nothing or ends the game *)

Lemma collisionLoop_cases (ps : list Pipe.t) (w : World) :
  (Forall (fun p => hits (bird w) p = false) ps /\ collisionLoop ps w = w) \/
  (Exists (fun p => hits (bird w) p = true) ps /\ collisionLoop ps w = endGame w).
Proof.
  induction ps as [| p ps IH]; cbn [collisionLoop].
  - left. split; [constructor | reflexivity].
  - destruct (hits (bird w) p) eqn:Hp.
    + right. split; [left; exact Hp | reflexivity].
    + destruct IH as [[Hall ->] | [Hex ->]].
      * left. split; [constructor; assumption | reflexivity].
      * right. split; [right; exact Hex | reflexivity].
Qed.

Lemma checkCollisions_cases (w : World) :
  checkCollisions w = w \/ checkCollisions w = endGame w.
Proof.
  unfold checkCollisions.
  destruct (collisionLoop_cases (pipes w) w) as [[_ ->] | [_ ->]]; auto.
Qed.

Lemma checkCollisions_bird (w : World) : bird (checkCollisions w) = bird w.
Proof. destruct (checkCollisions_cases w) as [-> | ->]; [| apply endGame_bird]; reflexivity. Qed.

Lemma checkCollisions_pipes (w : World) : pipes (checkCollisions w) = pipes w.
Proof. destruct (checkCollisions_cases w) as [-> | ->]; [| apply endGame_pipes]; reflexivity. Qed.

Lemma checkCollisions_score (w : World) : score (checkCollisions w) = score w.
Proof. destruct (checkCollisions_cases w) as [-> | ->]; [| apply endGame_score]; reflexivity. Qed.

(** *** Clouds *)

Lemma updateClouds_bird (w : World) : bird (updateClouds rand w) = bird w.
Proof. frame. Qed.

Lemma updateClouds_pipes (w : World) : pipes (updateClouds rand w) = pipes w.
Proof. frame. Qed.

Lemma updateClouds_score (w : World) : score (updateClouds rand w) = score w.
Proof. frame. Qed.

Lemma updateClouds_gameRunning (w : World) :
  gameRunning (updateClouds rand w) = gameRunning w.
Proof. frame. Qed.

Lemma updateClouds_log (w : World) :
  log (updateClouds rand w) = log w ++ [UpdateClouds].
Proof. frame. Qed.

(** *** Bird *)

Lemma updateBird_pipes (w : World) : pipes (updateBird w) = pipes w.
Proof. frame. Qed.

Lemma updateBird_score (w : World) : score (updateBird w) = score w.
Proof. frame. Qed.

Lemma updateBird_x (w : World) : Bird.x (bird (updateBird w)) = Bird.x (bird w).
Proof. frame. Qed.

Lemma updateBird_width (w : World) :
  Bird.width (bird (updateBird w)) = Bird.width (bird w).
Proof. frame. Qed.

Lemma updateBird_height (w : World) :
  Bird.height (bird (updateBird w)) = Bird.height (bird w).
Proof. frame. Qed.

(** *** Pipes *)

Lemma beforePipesLoop_bird (w : World) : bird (beforePipesLoop rand w) = bird w.
Proof. frame. Qed.

Lemma beforePipesLoop_score (w : World) : score (beforePipesLoop rand w) = score w.
Proof. frame. Qed.

Lemma beforePipesLoop_log (w : World) :
  log (beforePipesLoop rand w) = log w ++ [UpdatePipes].
Proof. frame. Qed.

Lemma beforePipesLoop_gameRunning (w : World) :
  gameRunning (beforePipesLoop rand w) = gameRunning w.
Proof. frame. Qed.

Lemma updatePipes_bird (w : World) : bird (updatePipes rand w) = bird w.
Proof. rewrite updatePipes_spec. wsimpl. apply beforePipesLoop_bird. Qed.

Lemma updatePipes_score (w : World) :
  score (updatePipes rand w) =
  (score w + scoredNow (Bird.x (bird w)) (pipes (beforePipesLoop rand w)))%Z.
Proof. rewrite updatePipes_spec. reflexivity. Qed.

Lemma updatePipes_pipes (w : World) :
  pipes (updatePipes rand w) =
  survivors (Bird.x (bird w)) (pipes (beforePipesLoop rand w)).
Proof. rewrite updatePipes_spec. reflexivity. Qed.

Lemma updatePipes_log (w : World) :
  log (updatePipes rand w) = log w ++ [UpdatePipes].
Proof. rewrite updatePipes_spec. wsimpl. apply beforePipesLoop_log. Qed.

Lemma updatePipes_gameRunning (w : World) :
  gameRunning (updatePipes rand w) = gameRunning w.
Proof. rewrite updatePipes_spec. wsimpl. apply beforePipesLoop_gameRunning. Qed.

(** *** Feathers *)

Lemma createFeathers_bird (n : nat) (w : World) :
  bird (createFeathers rand n w) = bird w.
Proof.
  revert w. induction n as [| n IH]; intros w; [reflexivity |].
  cbn [createFeathers]. unfold random. wsimpl. rewrite IH. reflexivity.
Qed.

Lemma createFeathers_pipes (n : nat) (w : World) :
  pipes (createFeathers rand n w) = pipes w.
Proof.
  revert w. induction n as [| n IH]; intros w; [reflexivity |].
  cbn [createFeathers]. unfold random. wsimpl. rewrite IH. reflexivity.
Qed.

Lemma createFeathers_score (n : nat) (w : World) :
  score (createFeathers rand n w) = score w.
Proof.
  revert w. induction n as [| n IH]; intros w; [reflexivity |].
  cbn [createFeathers]. unfold random. wsimpl. rewrite IH. reflexivity.
Qed.


(** *** The frame *)

Lemma updateParticles_bird (w : World) : bird (updateParticles w) = bird w.
Proof. reflexivity. Qed.

Lemma updateParticles_pipes (w : World) : pipes (updateParticles w) = pipes w.
Proof. reflexivity. Qed.

Lemma updateParticles_score (w : World) : score (updateParticles w) = score w.
Proof. reflexivity. Qed.

Lemma frameDraws_bird (w : World) : bird (frameDraws w) = bird w.
Proof. reflexivity. Qed.

Lemma frameDraws_pipes (w : World) : pipes (frameDraws w) = pipes w.
Proof. reflexivity. Qed.

Lemma frameDraws_score (w : World) : score (frameDraws w) = score w.
Proof. reflexivity. Qed.

Lemma scheduleNext_bird (w : World) : bird (scheduleNext w) = bird w.
Proof. reflexivity. Qed.

Lemma scheduleNext_pipes (w : World) : pipes (scheduleNext w) = pipes w.
Proof. reflexivity. Qed.

Lemma scheduleNext_score (w : World) : score (scheduleNext w) = score w.
Proof. reflexivity. Qed.

Lemma gameLoop_stopped (w : World) : gameRunning w = false -> gameLoop rand w = w.
Proof. intros H. unfold gameLoop. rewrite H. reflexivity. Qed.

Lemma gameLoop_running (w : World) :
  gameRunning w = true ->
  gameLoop rand w =
  scheduleNext (checkCollisions (frameDraws (frameUpdates rand w))).
Proof. intros H. unfold gameLoop. rewrite H. reflexivity. Qed.

Lemma gameLoop_bird (w : World) :
  gameRunning w = true ->
  bird (gameLoop rand w) = bird (updateBird (updateClouds rand w)).
Proof.
  intros H. rewrite gameLoop_running by exact H.
  rewrite scheduleNext_bird, checkCollisions_bird, frameDraws_bird.
  unfold frameUpdates. rewrite updateParticles_bird. apply updatePipes_bird.
Qed.

Lemma gameLoop_score (w : World) :
  gameRunning w = true ->
  score (gameLoop rand w) =
  (score w +
   scoredNow (Bird.x (bird w))
     (pipes (beforePipesLoop rand (updateBird (updateClouds rand w)))))%Z.
Proof.
  intros H. rewrite gameLoop_running by exact H.
  rewrite scheduleNext_score, checkCollisions_score, frameDraws_score.
  unfold frameUpdates. rewrite updateParticles_score.
  rewrite updatePipes_score, updateBird_score, updateClouds_score.
  rewrite updateBird_x, updateClouds_bird. reflexivity.
Qed.

Lemma gameLoop_pipes (w : World) :
  gameRunning w = true ->
  pipes (gameLoop rand w) =
  survivors (Bird.x (bird w))
    (pipes (beforePipesLoop rand (updateBird (updateClouds rand w)))).
Proof.
  intros H. rewrite gameLoop_running by exact H.
  rewrite scheduleNext_pipes, checkCollisions_pipes, frameDraws_pipes.
  unfold frameUpdates. rewrite updateParticles_pipes.
  rewrite updatePipes_pipes, updateBird_x, updateClouds_bird. reflexivity.
Qed.

End Frames.
(** ** Collision test *)

Section Collision.

Lemma isColliding_iff (r1 r2 : Rect.t) :
  isColliding r1 r2 = true <-> overlapX r1 r2 /\ overlapY r1 r2.
Proof.
  unfold isColliding, overlapX, overlapY.
  rewrite !andb_true_iff, !Qltb_lt. tauto.
Qed.

Lemma isColliding_false (r1 r2 : Rect.t) :
  isColliding r1 r2 = false <-> ~ (overlapX r1 r2 /\ overlapY r1 r2).
Proof.
  rewrite <- isColliding_iff. destruct (isColliding r1 r2); split; congruence.
Qed.

End Collision.

(** ** Scoring *)

Section Scoring.

Variable birdX : Q.

Lemma pipeAt_S (n : nat) (p : Pipe.t) :
  pipeAt birdX (S n) p = pipeAfter birdX (pipeAt birdX n p).
Proof.
  unfold pipeAt. cbn [pipeFrames].
  destruct (pipeFrames birdX n p) as [q c]. reflexivity.
Qed.


Lemma pipeAfter_x (p : Pipe.t) : Pipe.x (pipeAfter birdX p) = Pipe.x p - PIPE_SPEED.
Proof.
  unfold pipeAfter, movePipe. cbn zeta.
  destruct (scores birdX _); reflexivity.
Qed.

Lemma pipeAfter_passed (p : Pipe.t) :
  Pipe.passed (pipeAfter birdX p) =
  Pipe.passed p || Qltb (rightEdge (pipeAfter birdX p)) birdX.
Proof.
  unfold rightEdge. rewrite pipeAfter_x.
  unfold pipeAfter, scores, movePipe. cbn zeta. wsimpl.
  destruct (Pipe.passed p); cbn [negb andb orb]; [reflexivity |].
  destruct (Qltb (Pipe.x p - PIPE_SPEED + PIPE_WIDTH) birdX); reflexivity.
Qed.


(** The right edge moves left by [PIPE_SPEED] every frame. *)
Lemma rightEdge_S (n : nat) (p : Pipe.t) :
  rightEdge (pipeAt birdX (S n) p) == rightEdge (pipeAt birdX n p) - PIPE_SPEED.
Proof. unfold rightEdge. rewrite pipeAt_S, pipeAfter_x. ring. Qed.

Lemma rightEdge_at (n : nat) (p : Pipe.t) :
  rightEdge (pipeAt birdX n p) ==
  rightEdge p - inject_Z (Z.of_nat n) * PIPE_SPEED.
Proof.
  induction n as [| n IH].
  - unfold pipeAt. cbn. ring.
  - rewrite rightEdge_S, IH, Nat2Z.inj_succ. unfold Z.succ.
    rewrite inject_Z_plus. ring.
Qed.

Lemma rightEdge_mono (i j : nat) (p : Pipe.t) :
  (i <= j)%nat -> rightEdge (pipeAt birdX j p) <= rightEdge (pipeAt birdX i p).
Proof.
  induction 1 as [| j Hle IH]; [lra |].
  pose proof (rightEdge_S j p). consts. lra.
Qed.





End Scoring.




(** ** The bird update *)

Section BirdUpdate.

Lemma updateBird_floor (w : World) :
  Bird.height (bird w) <= VIRTUAL_HEIGHT ->
  belowFloor (fallen (bird w)) ->
  updateBird w =
  endGame
    (set_bird
       (Bird.mk (Bird.x (bird w)) (VIRTUAL_HEIGHT - Bird.height (bird w))
          (Bird.width (bird w)) (Bird.height (bird w)) 0)
       (note UpdateBird w)).
Proof.
  unfold belowFloor, fallen. cbn [Bird.y Bird.height]. intros Hh Hf.
  unfold updateBird. cbv zeta. unfold note. wsimpl.
  apply Qltb_lt in Hf. rewrite Hf. rewrite endGame_bird. wsimpl.
  replace (Qltb (VIRTUAL_HEIGHT - Bird.height (bird w)) 0) with false
    by (symmetry; apply Qltb_ge; lra).
  reflexivity.
Qed.

Lemma updateBird_ceiling (w : World) :
  Bird.height (bird w) <= VIRTUAL_HEIGHT ->
  aboveCeiling (fallen (bird w)) ->
  updateBird w =
  set_bird
    (Bird.mk (Bird.x (bird w)) 0 (Bird.width (bird w)) (Bird.height (bird w)) 0)
    (note UpdateBird w).
Proof.
  unfold aboveCeiling, fallen. cbn [Bird.y Bird.height]. intros Hh Hc.
  unfold updateBird. cbv zeta. unfold note. wsimpl.
  replace (Qltb VIRTUAL_HEIGHT _) with false
    by (symmetry; apply Qltb_ge; lra).
  wsimpl. apply Qltb_lt in Hc. rewrite Hc. reflexivity.
Qed.

Lemma updateBird_free (w : World) :
  ~ belowFloor (fallen (bird w)) ->
  ~ aboveCeiling (fallen (bird w)) ->
  updateBird w = set_bird (fallen (bird w)) (note UpdateBird w).
Proof.
  unfold belowFloor, aboveCeiling, fallen. cbn [Bird.y Bird.height].
  intros Hf Hc.
  unfold updateBird. cbv zeta. unfold note. wsimpl.
  replace (Qltb VIRTUAL_HEIGHT _) with false
    by (symmetry; apply Qltb_ge; lra).
  wsimpl.
  replace (Qltb _ 0) with false by (symmetry; apply Qltb_ge; lra).
  reflexivity.
Qed.

(** Whatever happens, the bird ends the update in range. *)
Lemma updateBird_inRange (w : World) :
  Bird.height (bird w) <= VIRTUAL_HEIGHT -> inRange (bird (updateBird w)).
Proof.
  intros Hh.
  destruct (Qlt_le_dec VIRTUAL_HEIGHT
              (Bird.y (fallen (bird w)) + Bird.height (fallen (bird w))))
    as [Hf | Hf].
  - rewrite updateBird_floor by assumption. rewrite endGame_bird.
    unfold inRange. wsimpl. lra.
  - destruct (Qlt_le_dec (Bird.y (fallen (bird w))) 0) as [Hc | Hc].
    + rewrite updateBird_ceiling by assumption.
      unfold inRange. wsimpl. lra.
    + rewrite updateBird_free by (unfold belowFloor, aboveCeiling; lra).
      unfold inRange. wsimpl. cbn [fallen Bird.y Bird.height] in *. lra.
Qed.

End BirdUpdate.

(** C6 (amended).  A bird at y = 0 whose upward velocity is at least the
    pull of gravity ([velocity <= - GRAVITY]) is at y = 0 with velocity 0
    after one bird update, and the update does not end the game. *)
Theorem updateBird_at_ceiling (w : World) :
  Bird.height (bird w) <= VIRTUAL_HEIGHT ->
  Bird.y (bird w) == 0 ->
  Bird.velocity (bird w) <= - GRAVITY ->
  Bird.y (bird (updateBird w)) == 0 /\
  Bird.velocity (bird (updateBird w)) == 0 /\
  gameRunning (updateBird w) = gameRunning w /\
  log (updateBird w) = log w ++ [UpdateBird].
Proof.
  intros Hh Hy Hv.
  destruct (Qlt_le_dec (Bird.y (fallen (bird w))) 0) as [Hc | Hc].
  - rewrite updateBird_ceiling by assumption.
    unfold note. wsimpl. repeat split; reflexivity.
  - cbn [fallen Bird.y] in Hc.
    rewrite updateBird_free.
    + unfold note, fallen. wsimpl. repeat split; lra.
    + unfold belowFloor. cbn [fallen Bird.y Bird.height]. lra.
    + unfold aboveCeiling. cbn [fallen Bird.y]. lra.
Qed.

(** A flap at the ceiling: velocity -7.5 at y = 0. *)
Lemma updateBird_at_ceiling_witness :
  Bird.y (bird (updateBird (worldWith (Bird.mk 50 0 28 21 FLAP_STRENGTH)))) == 0 /\
  Bird.velocity (bird (updateBird (worldWith (Bird.mk 50 0 28 21 FLAP_STRENGTH)))) == 0.
Proof.
  destruct (updateBird_at_ceiling (worldWith (Bird.mk 50 0 28 21 FLAP_STRENGTH)))
    as (Hy & Hv & _).
  - cbn. consts. lra.
  - cbn. lra.
  - cbn. consts. lra.
  - split; [exact Hy | exact Hv].
Defined.

(** C6 as stated fails.  A bird at y = 0 with upward velocity 1/4 is pulled
    to velocity 1/20 downward by gravity, moves to y = 1/20, and is not
    clamped: neither its position nor its velocity is 0 afterwards. *)
Lemma slow_rise_not_clamped :
  let w := worldWith (Bird.mk 50 0 28 21 (- (1 # 4))) in
  Bird.y (bird w) == 0 /\
  Bird.velocity (bird w) < 0 /\
  Bird.y (bird (updateBird w)) == 1 # 20 /\
  Bird.velocity (bird (updateBird w)) == 1 # 20 /\
  ~ Bird.y (bird (updateBird w)) == 0 /\
  ~ Bird.velocity (bird (updateBird w)) == 0.
Proof.
  cbv zeta. repeat split; vm_compute; congruence.
Qed.

(** ** What holds in every reachable world *)

Section Invariants.

Variable rand : nat -> Q.

Lemma steady_ext (w w' : World) :
  bird w' = bird w -> pipes w' = pipes w -> steady w -> steady w'.
Proof. unfold steady. intros -> ->. auto. Qed.

Lemma In_survivors (bx : Q) (l : list Pipe.t) (p : Pipe.t) :
  In p (survivors bx l) <->
  offLeft p = false /\ exists q, In q l /\ p = pipeAfter bx q.
Proof.
  unfold survivors. rewrite <- list_elem_of_In, list_elem_of_filter,
    list_elem_of_In, in_map_iff.
  split; intros [Ho (q & H1 & H2)]; (split; [exact Ho |]); exists q; auto.
Qed.

Lemma survivors_ahead (bx : Q) (l : list Pipe.t) :
  unpassedAhead bx (survivors bx l).
Proof.
  intros p Hin Hp. apply In_survivors in Hin as (_ & q & _ & ->).
  rewrite pipeAfter_passed in Hp. apply orb_false_iff in Hp as [_ Hp].
  apply Qltb_ge in Hp. exact Hp.
Qed.

Lemma gameLoop_steady_running (w : World) :
  gameRunning w = true -> birdShape (bird w) -> steady (gameLoop rand w).
Proof.
  intros Hr (Hx & Hw & Hh). unfold steady.
  rewrite gameLoop_bird, gameLoop_pipes by exact Hr.
  rewrite updateBird_x, updateClouds_bird.
  split; [| split].
  - unfold birdShape.
    rewrite updateBird_x, updateBird_width, updateBird_height, updateClouds_bird.
    auto.
  - apply updateBird_inRange. rewrite updateClouds_bird, Hh. consts. lra.
  - apply survivors_ahead.
Qed.

Lemma gameLoop_steady (w : World) : steady w -> steady (gameLoop rand w).
Proof.
  intros Hs. destruct (gameRunning w) eqn:Hr.
  - apply gameLoop_steady_running; [exact Hr | apply Hs].
  - rewrite gameLoop_stopped by exact Hr. exact Hs.
Qed.

Lemma runCallbacks_steady (hs : list nat) :
  forall w : World, steady w -> steady (runCallbacks rand hs w).
Proof.
  induction hs as [| h hs IH]; intros w Hs; cbn [runCallbacks]; [exact Hs |].
  destruct (bool_decide (h ∈ pending w)); [| apply IH; exact Hs].
  apply IH, gameLoop_steady.
  apply (steady_ext w); [reflexivity | reflexivity | exact Hs].
Qed.

Lemma flap_steady (w : World) : steady w -> steady (flap rand w).
Proof.
  intros Hs. unfold flap.
  destruct (gameRunning w); [| exact Hs].
  destruct Hs as (Hb & Hy & Hp).
  unfold steady. rewrite createFeathers_bird, createFeathers_pipes. wsimpl.
  split; [exact Hb | split; [exact Hy | exact Hp]].
Qed.

Lemma initialClouds_bird (n : nat) :
  forall w : World, bird (initialClouds rand n w) = bird w.
Proof.
  induction n as [| n IH]; intros w; cbn [initialClouds]; [reflexivity |].
  rewrite IH. unfold generateCloud, random. wsimpl. reflexivity.
Qed.

Lemma initialClouds_gameRunning (n : nat) :
  forall w : World, gameRunning (initialClouds rand n w) = gameRunning w.
Proof.
  induction n as [| n IH]; intros w; cbn [initialClouds]; [reflexivity |].
  rewrite IH. unfold generateCloud, random. wsimpl. reflexivity.
Qed.

Lemma initialPipesLoop_bird (n : nat) :
  forall (i : Z) (w : World), bird (initialPipesLoop rand n i w) = bird w.
Proof.
  induction n as [| n IH]; intros i w; cbn [initialPipesLoop]; [reflexivity |].
  cbv zeta. rewrite IH. unfold generatePipe, random. wsimpl. reflexivity.
Qed.

Lemma initialPipesLoop_gameRunning (n : nat) :
  forall (i : Z) (w : World),
  gameRunning (initialPipesLoop rand n i w) = gameRunning w.
Proof.
  induction n as [| n IH]; intros i w; cbn [initialPipesLoop]; [reflexivity |].
  cbv zeta. rewrite IH. unfold generatePipe, random. wsimpl. reflexivity.
Qed.

Lemma resetWorld_clouds (w : World) : clouds (resetWorld w) = [].
Proof. destruct w. reflexivity. Qed.

Lemma startGame_eq (w : World) :
  startGame rand w = gameLoop rand (beforeFirstFrame rand w).
Proof.
  pose proof (resetWorld_clouds w) as E.
  unfold startGame, beforeFirstFrame. unfold resetWorld in *. cbv zeta in *.
  rewrite E. reflexivity.
Qed.

Lemma resetWorld_bird (w : World) :
  bird (resetWorld w) =
  Bird.mk BIRD_X (VIRTUAL_HEIGHT / 2 - BIRD_HEIGHT / 2) BIRD_WIDTH BIRD_HEIGHT 0.
Proof. destruct w. reflexivity. Qed.

Lemma resetWorld_gameRunning (w : World) : gameRunning (resetWorld w) = true.
Proof. destruct w. reflexivity. Qed.

Lemma set_musicPlaying_bird (v : bool) (w : World) :
  bird (set_musicPlaying v w) = bird w.
Proof. reflexivity. Qed.

Lemma set_musicPlaying_gameRunning (v : bool) (w : World) :
  gameRunning (set_musicPlaying v w) = gameRunning w.
Proof. reflexivity. Qed.

Lemma beforeFirstFrame_bird (w : World) :
  bird (beforeFirstFrame rand w) =
  Bird.mk BIRD_X (VIRTUAL_HEIGHT / 2 - BIRD_HEIGHT / 2) BIRD_WIDTH BIRD_HEIGHT 0.
Proof.
  unfold beforeFirstFrame.
  rewrite set_musicPlaying_bird, initialPipesLoop_bird, initialClouds_bird.
  apply resetWorld_bird.
Qed.

Lemma beforeFirstFrame_gameRunning (w : World) :
  gameRunning (beforeFirstFrame rand w) = true.
Proof.
  unfold beforeFirstFrame.
  rewrite set_musicPlaying_gameRunning, initialPipesLoop_gameRunning,
    initialClouds_gameRunning.
  apply resetWorld_gameRunning.
Qed.

Lemma startGame_steady (w : World) : steady (startGame rand w).
Proof.
  rewrite startGame_eq. apply gameLoop_steady_running.
  - apply beforeFirstFrame_gameRunning.
  - rewrite beforeFirstFrame_bird. repeat split.
Qed.

Lemma handle_steady (w : World) (e : Event) :
  steady w -> steady (handle rand w e).
Proof.
  intros Hs. destruct e; cbn [handle].
  - apply runCallbacks_steady, Hs.
  - apply flap_steady, Hs.
  - apply startGame_steady.
Qed.

Lemma reachable_steady (w : World) : reachable rand w -> steady w.
Proof.
  induction 1 as [| w e _ IH].
  - apply startGame_steady.
  - apply handle_steady, IH.
Qed.

Lemma run_reachable (es : list Event) :
  forall w : World, reachable rand w -> reachable rand (run rand es w).
Proof.
  induction es as [| e es IH]; intros w Hw; [exact Hw |].
  apply IH. constructor. exact Hw.
Qed.

End Invariants.

(** ** The bird stays in range; pruned pipes were scored *)

Section RangeAndPruning.

Variable rand : nat -> Q.

Lemma flap_bird (w : World) :
  Bird.x (bird (flap rand w)) = Bird.x (bird w) /\
  Bird.y (bird (flap rand w)) = Bird.y (bird w) /\
  Bird.width (bird (flap rand w)) = Bird.width (bird w) /\
  Bird.height (bird (flap rand w)) = Bird.height (bird w).
Proof.
  unfold flap. destruct (gameRunning w); [| auto].
  rewrite createFeathers_bird. wsimpl. auto.
Qed.

Lemma beforePipesLoop_pipes (w : World) :
  pipes (beforePipesLoop rand w) = pipes w \/
  exists r, pipes (beforePipesLoop rand w) = pipes w ++ [newPipe VIRTUAL_WIDTH r].
Proof.
  unfold beforePipesLoop, generatePipe, random, note. wsimpl.
  destruct (PIPE_INTERVAL <=? spawnTimer w + 1)%Z; wsimpl; eauto.
Qed.

Lemma newPipe_not_offLeft (r : Q) : offLeft (movePipe (newPipe VIRTUAL_WIDTH r)) = false.
Proof. apply Qltb_ge. unfold movePipe, newPipe. wsimpl. consts. lra. Qed.

Lemma offLeft_passed (bx : Q) (p : Pipe.t) :
  0 <= bx -> offLeft (movePipe p) = true -> Pipe.passed (pipeAfter bx p) = true.
Proof.
  intros Hb Ho. rewrite pipeAfter_passed. apply orb_true_iff. right.
  apply Qltb_lt. unfold rightEdge. rewrite pipeAfter_x.
  apply Qltb_lt in Ho. unfold movePipe in Ho. wsimpl_in Ho. lra.
Qed.

Lemma pruned_already_passed (w : World) (p : Pipe.t) :
  steady w ->
  In p (pipes (beforePipesLoop rand w)) ->
  offLeft (movePipe p) = true ->
  In p (pipes w) /\ Pipe.passed p = true.
Proof.
  intros ((Hx & _) & _ & Hahead) Hin Ho.
  assert (In p (pipes w)) as Hin'.
  { destruct (beforePipesLoop_pipes w) as [E | [r E]]; rewrite E in Hin;
      [exact Hin |].
    apply in_app_iff in Hin as [Hin | [<- | []]]; [exact Hin |].
    rewrite newPipe_not_offLeft in Ho. discriminate. }
  split; [exact Hin' |].
  destruct (Pipe.passed p) eqn:Hp; [reflexivity | exfalso].
  specialize (Hahead p Hin' Hp). rewrite Hx in Hahead.
  apply Qltb_lt in Ho. unfold movePipe in Ho. wsimpl_in Ho.
  unfold rightEdge in Hahead. consts. lra.
Qed.

End RangeAndPruning.

(** C4.  The bird update leaves the bird's vertical position between 0 and
    [VIRTUAL_HEIGHT - height]; flapping and the cloud, pipe and particle
    updates, the drawing and the collision check do not move the bird; and
    in every reachable world, and after the bird update of every frame run
    from one, the position is in that range. *)
Theorem bird_stays_in_range (rand : nat -> Q) :
  (forall w : World,
     Bird.height (bird w) <= VIRTUAL_HEIGHT -> inRange (bird (updateBird w))) /\
  (forall w : World,
     Bird.y (bird (flap rand w)) = Bird.y (bird w) /\
     Bird.height (bird (flap rand w)) = Bird.height (bird w) /\
     bird (updateClouds rand w) = bird w /\
     bird (updatePipes rand w) = bird w /\
     bird (updateParticles w) = bird w /\
     bird (drawBird (drawParticles (drawPipes (drawClouds (clearCanvas w))))) =
       bird w /\
     bird (checkCollisions w) = bird w) /\
  (forall w : World,
     reachable rand w ->
     inRange (bird w) /\
     inRange (bird (updateBird (updateClouds rand w))) /\
     inRange (bird (gameLoop rand w))).
Proof.
  split; [apply updateBird_inRange |]. split.
  - intros w. destruct (flap_bird rand w) as (_ & Hy & _ & Hh).
    repeat split;
      auto using updateClouds_bird, updatePipes_bird, checkCollisions_bird.
  - intros w Hw. pose proof (reachable_steady rand w Hw) as Hs.
    split; [apply Hs |]. split.
    + apply updateBird_inRange. rewrite updateClouds_bird.
      destruct Hs as ((_ & _ & ->) & _). consts. lra.
    + apply (gameLoop_steady rand w Hs).
Qed.

(** The world right after loading is reachable, so its bird is in range. *)
Lemma bird_stays_in_range_witness : inRange (bird (loaded oracleHalf)).
Proof.
  exact (proj1 (proj2 (proj2 (bird_stays_in_range oracleHalf))
                  (loaded oracleHalf) (reachable_loaded oracleHalf))).
Defined.

(** C10.  In an iteration of the pipe loop the scoring test comes before
    the pruning test, and the bird is right of the viewport's left edge, so
    a pipe that is pruned leaves with its flag set.  More: in every
    reachable world the bird is at [BIRD_X], and each pipe that the next
    update prunes was in the list before and had its flag set already, by
    an earlier frame.  The pipes an update keeps are those not off the left
    edge. *)
Theorem pruned_pipes_were_scored (rand : nat -> Q) :
  0 < BIRD_X /\
  (forall p : Pipe.t,
     offLeft (movePipe p) = true ->
     Pipe.passed (pipeAfter BIRD_X p) = true) /\
  (forall w : World,
     reachable rand w ->
     Bird.x (bird w) = BIRD_X /\
     (forall p : Pipe.t,
        In p (pipes (beforePipesLoop rand w)) ->
        offLeft (movePipe p) = true ->
        In p (pipes w) /\ Pipe.passed p = true) /\
     (forall q : Pipe.t,
        In q (pipes (updatePipes rand w)) <->
        offLeft q = false /\
        exists p, In p (pipes (beforePipesLoop rand w)) /\
                  q = pipeAfter BIRD_X p)).
Proof.
  split; [consts; lra |]. split.
  - intros p. apply offLeft_passed. consts. lra.
  - intros w Hw. pose proof (reachable_steady rand w Hw) as Hs.
    assert (Bird.x (bird w) = BIRD_X) as Hx by apply Hs.
    split; [exact Hx |]. split.
    + intros p. apply pruned_already_passed. exact Hs.
    + intros q. rewrite updatePipes_pipes, Hx. apply In_survivors.
Qed.


(** ** Flap *)

Section Flap.

Variable rand : nat -> Q.

Lemma world_eta_particles (w : World) :
  set_particles (particles w) (set_randCalls (randCalls w) w) = w.
Proof. destruct w. reflexivity. Qed.

(** [createFeathers] in closed form. *)
Lemma createFeathers_spec (n : nat) :
  forall w : World,
  createFeathers rand n w =
  set_particles (particles w ++ feathers rand (bird w) (randCalls w) n)
    (set_randCalls (randCalls w + 3 * n) w).
Proof.
  induction n as [| n IH]; intros w.
  - cbn [createFeathers feathers]. rewrite app_nil_r, Nat.mul_0_r, Nat.add_0_r.
    symmetry. apply world_eta_particles.
  - cbn [createFeathers feathers]. unfold random. cbv zeta. rewrite IH.
    destruct w as [b ps sc gr go fc af pa cl st sd fsd mh mp cp pe nh rc lg].
    wsimpl. rewrite <- app_assoc. cbn [app]. unfold feather.
    replace (S (S (S rc)) + 3 * n)%nat with (rc + 3 * S n)%nat by lia.
    reflexivity.
Qed.

Lemma feathers_length (b : Bird.t) (n : nat) :
  forall k, length (feathers rand b k n) = n.
Proof. induction n as [| n IH]; intros k; cbn [feathers length]; [| rewrite IH]; reflexivity. Qed.

Lemma feathers_at_bird (b : Bird.t) (n : nat) :
  forall k p, In p (feathers rand b k n) ->
  Particle.x p = Bird.x b /\
  Particle.y p = Bird.y b + Bird.height b / 2 /\
  Particle.life p = 30%Z.
Proof.
  induction n as [| n IH]; intros k p; cbn [feathers In]; [intros [] |].
  intros [<- | Hin]; [repeat split | exact (IH _ _ Hin)].
Qed.

Lemma flap_running (w : World) :
  gameRunning w = true ->
  flap rand w =
  set_particles (particles w ++ feathers rand (bird w) (randCalls w) 3)
    (set_randCalls (randCalls w + 9)
       (set_bird (Bird.set_velocity FLAP_STRENGTH (bird w)) w)).
Proof.
  intros Hr. unfold flap. rewrite Hr. cbv zeta. rewrite createFeathers_spec.
  destruct w. reflexivity.
Qed.

End Flap.

(** C9.  While the game runs, [flap] sets the bird's velocity to
    [FLAP_STRENGTH] whatever it was, leaves the rest of the bird alone, and
    appends three feathers placed at the bird with a life of 30 frames; it
    changes nothing else but the count of random numbers drawn.  While the
    game does not run, [flap] returns the world as it got it. *)
Theorem flap_effect (rand : nat -> Q) (w : World) :
  (gameRunning w = true ->
     bird (flap rand w) =
       Bird.mk (Bird.x (bird w)) (Bird.y (bird w)) (Bird.width (bird w))
         (Bird.height (bird w)) FLAP_STRENGTH /\
     FLAP_STRENGTH == - (75 # 10) /\
     (exists fs,
        particles (flap rand w) = particles w ++ fs /\
        length fs = 3%nat /\
        forall p, In p fs ->
          Particle.x p = Bird.x (bird w) /\
          Particle.y p = Bird.y (bird w) + Bird.height (bird w) / 2 /\
          Particle.life p = 30%Z) /\
     flap rand w =
       set_particles (particles (flap rand w))
         (set_randCalls (randCalls w + 9)
            (set_bird (bird (flap rand w)) w))) /\
  (gameRunning w = false -> flap rand w = w).
Proof.
  split.
  - intros Hr. rewrite (flap_running rand w Hr).
    split; [reflexivity |]. split; [reflexivity |]. split; [| reflexivity].
    exists (feathers rand (bird w) (randCalls w) 3).
    split; [reflexivity |]. split; [apply feathers_length |].
    apply feathers_at_bird.
  - intros Hr. unfold flap. rewrite Hr. reflexivity.
Qed.

(** A flap of a bird that is falling at 4 per frame. *)
Lemma flap_effect_witness :
  Bird.velocity (bird (flap oracleHalf (worldWith (Bird.mk 50 300 28 21 4)))) =
  FLAP_STRENGTH.
Proof.
  exact (f_equal Bird.velocity
           (proj1 (proj1 (flap_effect oracleHalf
                            (worldWith (Bird.mk 50 300 28 21 4))) eq_refl))).
Defined.

(** ** Spawning a pipe *)

Section Spawn.

Lemma span_241 : maxHeight - minHeight + 1 == 241.
Proof. unfold maxHeight, minHeight. consts. lra. Qed.

(** The integer drawn for a random number in [0, 1). *)
Lemma topPipeHeight_int (r : Q) :
  topPipeHeight r == inject_Z (Qfloor (r * 241) + 80).
Proof.
  unfold topPipeHeight. rewrite span_241, inject_Z_plus.
  unfold minHeight. reflexivity.
Qed.

End Spawn.

Lemma topPipeHeight_bounds (r : Q) :
  0 <= r < 1 ->
  exists k : Z,
    (80 <= k <= 320)%Z /\ topPipeHeight r == inject_Z k.
Proof.
  intros [H0 H1]. exists (Qfloor (r * 241) + 80)%Z.
  split; [| apply topPipeHeight_int].
  assert (0 <= Qfloor (r * 241))%Z as Hlo.
  { change 0%Z with (Qfloor 0). apply Qfloor_resp_le. lra. }
  assert (Qfloor (r * 241) < 241)%Z as Hhi.
  { rewrite Zlt_Qlt. change (inject_Z 241) with 241.
    pose proof (Qfloor_le (r * 241)). lra. }
  lia.
Qed.

Lemma generatePipe_pipes (rand : nat -> Q) (xOverride : option Q) (w : World) :
  pipes (generatePipe rand xOverride w) =
  pipes w ++
    [newPipe match xOverride with Some x => x | None => VIRTUAL_WIDTH end
       (rand (randCalls w))].
Proof. reflexivity. Qed.

Lemma oracleHalf_range (n : nat) : 0 <= oracleHalf n < 1.
Proof. unfold oracleHalf. lra. Qed.


(** ** After the end of the game *)

Section Stopped.

Variable rand : nat -> Q.

Lemma updateBird_log_quiet (w : World) :
  Bird.height (bird w) <= VIRTUAL_HEIGHT ->
  ~ belowFloor (fallen (bird w)) ->
  log (updateBird w) = log w ++ [UpdateBird] /\
  gameRunning (updateBird w) = gameRunning w.
Proof.
  intros Hh Hf.
  destruct (Qlt_le_dec (Bird.y (fallen (bird w))) 0) as [Hc | Hc].
  - rewrite updateBird_ceiling by assumption. split; reflexivity.
  - rewrite updateBird_free; [split; reflexivity | exact Hf |].
    unfold aboveCeiling. lra.
Qed.

Lemma updateParticles_log (w : World) :
  log (updateParticles w) = log w ++ [UpdateParticles].
Proof. reflexivity. Qed.

Lemma updateParticles_gameRunning (w : World) :
  gameRunning (updateParticles w) = gameRunning w.
Proof. reflexivity. Qed.

Lemma frameDraws_log (w : World) :
  log (frameDraws w) =
  log w ++ [ClearCanvas; DrawClouds; DrawPipes; DrawParticles; DrawBird].
Proof.
  unfold frameDraws, drawBird, drawParticles, drawPipes, drawClouds,
    clearCanvas, note.
  destruct w. wsimpl. rewrite <- !app_assoc. reflexivity.
Qed.

Lemma scheduleNext_log (w : World) : log (scheduleNext w) = log w.
Proof. reflexivity. Qed.

Lemma scheduleNext_gameRunning (w : World) :
  gameRunning (scheduleNext w) = gameRunning w.
Proof. reflexivity. Qed.

Lemma frameUpdates_log_quiet (w : World) :
  Bird.height (bird w) <= VIRTUAL_HEIGHT ->
  ~ belowFloor (fallen (bird w)) ->
  log (frameUpdates rand w) =
  log w ++ [UpdateClouds; UpdateBird; UpdatePipes; UpdateParticles].
Proof.
  intros Hh Hf. unfold frameUpdates.
  rewrite updateParticles_log, updatePipes_log.
  destruct (updateBird_log_quiet (updateClouds rand w)) as [-> _];
    [rewrite updateClouds_bird; exact Hh
    | rewrite updateClouds_bird; exact Hf |].
  rewrite updateClouds_log, <- !app_assoc. reflexivity.
Qed.

(** The work of a frame in which the bird update does not end the game:
    all the updates and draws, then the end if the collision check finds
    a hit. *)
Lemma gameLoop_log_quiet (w : World) :
  gameRunning w = true ->
  Bird.height (bird w) <= VIRTUAL_HEIGHT ->
  ~ belowFloor (fallen (bird w)) ->
  log (gameLoop rand w) = log w ++ frameWork \/
  log (gameLoop rand w) = log w ++ frameWork ++ [EndGame].
Proof.
  intros Hr Hh Hf. rewrite gameLoop_running by exact Hr.
  rewrite scheduleNext_log.
  assert (log (frameDraws (frameUpdates rand w)) = log w ++ frameWork) as E.
  { rewrite frameDraws_log, frameUpdates_log_quiet by assumption.
    rewrite <- app_assoc. reflexivity. }
  destruct (checkCollisions_cases (frameDraws (frameUpdates rand w)))
    as [-> | ->].
  - left. exact E.
  - right. rewrite endGame_log, E, <- app_assoc. reflexivity.
Qed.

Lemma frameLog_quiet (w : World) :
  gameRunning w = true ->
  Bird.height (bird w) <= VIRTUAL_HEIGHT ->
  ~ belowFloor (fallen (bird w)) ->
  frameLog rand w = frameWork \/ frameLog rand w = frameWork ++ [EndGame].
Proof.
  intros Hr Hh Hf. unfold frameLog.
  destruct (gameLoop_log_quiet w Hr Hh Hf) as [-> | ->];
    rewrite drop_app_length; auto.
Qed.

Lemma cancel_stopped (h : nat) (w : World) :
  gameRunning (cancelAnimationFrame h w) = gameRunning w.
Proof. reflexivity. Qed.

Lemma set_pending_twice (p q : list nat) (w : World) :
  set_pending p (set_pending q w) = set_pending p w.
Proof. reflexivity. Qed.

Lemma set_pending_same (w : World) : set_pending (pending w) w = w.
Proof. destruct w. reflexivity. Qed.

Lemma set_pending_pending (p : list nat) (w : World) :
  pending (set_pending p w) = p.
Proof. reflexivity. Qed.

(** Callbacks that fire while the game is stopped change nothing but the
    browser's list of pending callbacks. *)
Lemma runCallbacks_stopped (hs : list nat) :
  forall w : World,
  gameRunning w = false ->
  runCallbacks rand hs w = set_pending (pending (runCallbacks rand hs w)) w.
Proof.
  induction hs as [| h hs IH]; intros w Hr; cbn [runCallbacks].
  - symmetry. apply set_pending_same.
  - destruct (bool_decide (h ∈ pending w)); [| apply IH; exact Hr].
    rewrite gameLoop_stopped by exact Hr.
    rewrite (IH (cancelAnimationFrame h w)) by exact Hr.
    unfold cancelAnimationFrame at 2.
    rewrite set_pending_twice, set_pending_pending. reflexivity.
Qed.

Lemma handle_stopped (w : World) (e : Event) :
  notRestart e ->
  gameRunning w = false ->
  handle rand w e = set_pending (pending (handle rand w e)) w.
Proof.
  intros He Hr. destruct e; cbn [handle].
  - apply runCallbacks_stopped. exact Hr.
  - unfold flap. rewrite Hr. symmetry. apply set_pending_same.
  - exfalso. apply He. reflexivity.
Qed.

Lemma run_stopped (es : list Event) :
  forall w : World,
  Forall notRestart es ->
  gameRunning w = false ->
  run rand es w = set_pending (pending (run rand es w)) w.
Proof.
  induction es as [| e es IH]; intros w Hes Hr; cbn [run foldl].
  - symmetry. apply set_pending_same.
  - inversion Hes as [| ? ? He Hes']; subst.
    fold (run rand es (handle rand w e)).
    rewrite (handle_stopped w e He Hr).
    rewrite IH; [| exact Hes' | exact Hr].
    rewrite set_pending_twice, set_pending_pending. reflexivity.
Qed.

End Stopped.

(** ** The frame that ends the game, and what follows *)

(** C8 (amended).  While the game is stopped, a frame callback returns the
    world as it got it, and so does a flap; any run of refreshes and flap
    inputs changes nothing but the browser's list of pending callbacks.
    In a frame whose bird update does not end the game, no update or draw
    routine runs after the end of the game: the work of the frame is the
    nine update and draw routines, followed by the end if the collision
    check finds a hit.  (A frame whose bird update ends the game is not
    part of this statement.) *)
Theorem stopped_game_does_no_work (rand : nat -> Q) :
  (forall w : World,
     gameRunning w = false -> gameLoop rand w = w /\ flap rand w = w) /\
  (forall (es : list Event) (w : World),
     Forall notRestart es ->
     gameRunning w = false ->
     run rand es w = set_pending (pending (run rand es w)) w) /\
  (forall w : World,
     gameRunning w = true ->
     Bird.height (bird w) <= VIRTUAL_HEIGHT ->
     ~ belowFloor (fallen (bird w)) ->
     (frameLog rand w = frameWork \/ frameLog rand w = frameWork ++ [EndGame]) /\
     quietAfterEnd (frameLog rand w) = true).
Proof.
  split; [| split].
  - intros w Hr. split; [apply gameLoop_stopped; exact Hr |].
    unfold flap. rewrite Hr. reflexivity.
  - intros es w. apply run_stopped.
  - intros w Hr Hh Hf.
    pose proof (frameLog_quiet rand w Hr Hh Hf) as H.
    split; [exact H |]. destruct H as [-> | ->]; reflexivity.
Qed.

(** The world after the free fall has ended the game: the pending callback
    fires and nothing happens. *)
Lemma stopped_game_does_no_work_witness :
  let w := endGame (worldWith (Bird.mk 50 579 28 21 0)) in
  gameLoop oracleHalf w = w.
Proof.
  exact (proj1 (proj1 (stopped_game_does_no_work oracleHalf)
                  (endGame (worldWith (Bird.mk 50 579 28 21 0))) eq_refl)).
Defined.

(** C8 as stated fails.  Left alone, the bird falls from the start; 43
    frames in (one at the start, 42 refreshes) it is at 573.3 with velocity
    12.9 and the first pipe at 372.6.  In the next frame the bird update
    ends the game, and the frame goes on: the pipes are updated (the first
    moves to 370.8), the particles are updated and everything is drawn. *)
Lemma floor_frame_keeps_working :
  let w := run oracleHalf (repeat Refresh 42) (loaded oracleHalf) in
  reachable oracleHalf w /\
  (gameRunning w, floorHit w,
   Qred (Bird.y (bird w)), Qred (Bird.velocity (bird w)),
   map (fun p => Qred (Pipe.x p)) (pipes w)) =
  (true, true, 5733 # 10, 129 # 10, [1863 # 5; 3303 # 5; 4743 # 5]) /\
  (frameLog oracleHalf w,
   quietAfterEnd (frameLog oracleHalf w),
   map (fun p => Qred (Pipe.x p)) (pipes (gameLoop oracleHalf w))) =
  ([UpdateClouds; UpdateBird; EndGame; UpdatePipes; UpdateParticles;
    ClearCanvas; DrawClouds; DrawPipes; DrawParticles; DrawBird],
   false, [1854 # 5; 3294 # 5; 4734 # 5]).
Proof.
  cbv zeta. split; [apply run_reachable, reachable_loaded |].
  pattern (run oracleHalf (repeat Refresh 42) (loaded oracleHalf)).
  vm_compute. split; reflexivity.
Qed.

(** C3 as stated fails.  Flapping before each of 144 refreshes keeps the
    bird at the ceiling; left alone for 61 more it falls to 567.3 with
    velocity 18.3 while the first pipe comes to 79.2, just right of the
    bird.  In the next frame the bird update puts the bird on the floor and
    ends the game, the pipe moves to 77.4 and now overlaps the bird, and
    the collision check ends the game a second time. *)
Lemma floor_and_pipe_end_twice :
  let w :=
    run oracleHalf (flapEveryFrame 144 ++ repeat Refresh 61)
      (loaded oracleHalf) in
  reachable oracleHalf w /\
  (gameRunning w, floorHit w,
   Qred (Bird.y (bird w)), Qred (Bird.velocity (bird w)),
   map (fun p => Qred (Pipe.x p)) (pipes w),
   frameLog oracleHalf w,
   ends (frameLog oracleHalf w)) =
  (true, true, 5673 # 10, 183 # 10,
   [396 # 5; 1836 # 5; 3276 # 5; 1577 # 5],
   [UpdateClouds; UpdateBird; EndGame; UpdatePipes; UpdateParticles;
    ClearCanvas; DrawClouds; DrawPipes; DrawParticles; DrawBird; EndGame],
   2%nat).
Proof.
  cbv zeta. split; [apply run_reachable, reachable_loaded |].
  pattern (run oracleHalf (flapEveryFrame 144 ++ repeat Refresh 61)
             (loaded oracleHalf)).
  vm_compute. reflexivity.
Qed.

(** C7 fails on the code.  [startGame] does not cancel a pending frame
    callback.  The bird, left alone, ends the game in the 44th frame; that
    frame still requests a callback (handle 44).  A restart click before
    the next refresh starts a second chain (handle 45) beside it, and from
    then on every refresh runs the frame twice: the next one runs the bird
    update twice, moves the bird from 289.8 to 291.3, and leaves two
    callbacks pending again. *)
Lemma quick_restart_runs_two_chains :
  let ended := run oracleHalf (repeat Refresh 43) (loaded oracleHalf) in
  let w := handle oracleHalf ended RestartClick in
  reachable oracleHalf w /\
  (gameRunning ended, pending ended) = (false, [44%nat]) /\
  (gameRunning w, pending w, Qred (Bird.y (bird w))) =
  (true, [44%nat; 45%nat], 1449 # 5) /\
  (runs UpdateBird (drop (length (log w)) (log (refresh oracleHalf w))),
   pending (refresh oracleHalf w),
   Qred (Bird.y (bird (refresh oracleHalf w)))) =
  (2%nat, [46%nat; 47%nat], 2913 # 10).
Proof.
  cbv zeta.
  split; [apply reachable_step, run_reachable, reachable_loaded |].
  pattern (run oracleHalf (repeat Refresh 43) (loaded oracleHalf)).
  vm_compute. repeat split; reflexivity.
Qed.

(** ** What each routine changes *)

Section Shapes.

Variable rand : nat -> Q.

Lemma endGame_pending (w : World) :
  pending (endGame w) =
  match animationFrameId w with
  | Some (S h) => filter (fun k => k <> S h) (pending w)
  | _ => pending w
  end.
Proof.
  unfold endGame, cancelAnimationFrame, note.
  destruct w as [b ps sc gr go fc af pa cl st sd fsd mh mp cp pe nh rc lg].
  destruct af as [[| h] |]; reflexivity.
Qed.

Lemma endGame_shape (w : World) :
  endGame w =
  set_modalHidden false
    (set_finalScoreDisplay (score w)
       (set_crashPlays (S (crashPlays w))
          (set_musicPlaying false
             (set_pending (pending (endGame w))
                (set_gameOver true
                   (set_gameRunning false
                      (set_log (log w ++ [EndGame]) w))))))).
Proof.
  unfold endGame, cancelAnimationFrame, note.
  destruct w as [b ps sc gr go fc af pa cl st sd fsd mh mp cp pe nh rc lg].
  destruct af as [[| h] |]; reflexivity.
Qed.

Lemma scheduleNext_shape (w : World) :
  scheduleNext w =
  set_animationFrameId (Some (nextHandle w))
    (set_nextHandle (S (nextHandle w))
       (set_pending (pending w ++ [nextHandle w]) w)).
Proof. reflexivity. Qed.

Lemma frameDraws_shape (w : World) :
  frameDraws w =
  set_log
    (log w ++ [ClearCanvas; DrawClouds; DrawPipes; DrawParticles; DrawBird]) w.
Proof.
  unfold frameDraws, drawBird, drawParticles, drawPipes, drawClouds,
    clearCanvas, note.
  destruct w. wsimpl. rewrite <- !app_assoc. reflexivity.
Qed.

Lemma updateParticles_shape (w : World) :
  updateParticles w =
  set_particles (particlesLoop (length (particles w)) (particles w))
    (set_log (log w ++ [UpdateParticles]) w).
Proof. reflexivity. Qed.

Lemma beforePipesLoop_shape (w : World) :
  beforePipesLoop rand w =
  set_pipes (pipes (beforePipesLoop rand w))
    (set_randCalls (randCalls (beforePipesLoop rand w))
       (set_spawnTimer (spawnTimer (beforePipesLoop rand w))
          (set_log (log w ++ [UpdatePipes]) w))).
Proof.
  unfold beforePipesLoop, generatePipe, random, note.
  destruct w as [b ps sc gr go fc af pa cl st sd fsd mh mp cp pe nh rc lg].
  wsimpl. destruct (PIPE_INTERVAL <=? st + 1)%Z; reflexivity.
Qed.

Lemma updatePipes_shape (w : World) :
  updatePipes rand w =
  set_pipes (pipes (updatePipes rand w))
    (set_score (score (updatePipes rand w))
       (set_scoreDisplay (scoreDisplay (updatePipes rand w))
          (set_randCalls (randCalls (beforePipesLoop rand w))
             (set_spawnTimer (spawnTimer (beforePipesLoop rand w))
                (set_log (log w ++ [UpdatePipes]) w))))).
Proof.
  rewrite updatePipes_spec. cbv zeta.
  pose proof (beforePipesLoop_shape w) as E.
  set (B := beforePipesLoop rand w) in *. clearbody B.
  rewrite E. destruct w. reflexivity.
Qed.

Lemma updateClouds_shape (w : World) :
  updateClouds rand w =
  set_clouds (clouds (updateClouds rand w))
    (set_randCalls (randCalls (updateClouds rand w))
       (set_log (log w ++ [UpdateClouds]) w)).
Proof.
  unfold updateClouds, generateCloud, random, note.
  destruct w as [b ps sc gr go fc af pa cl st sd fsd mh mp cp pe nh rc lg].
  wsimpl. destruct gr; [| reflexivity].
  destruct (Qltb (rand rc) (5 # 1000)); reflexivity.
Qed.

Lemma updateBird_shape (w : World) :
  updateBird w =
  set_bird (bird (updateBird w))
    (if floorHit w then endGame (note UpdateBird w) else note UpdateBird w).
Proof.
  destruct w as [b ps sc gr go fc af pa cl st sd fsd mh mp cp pe nh rc lg].
  unfold updateBird, floorHit, fallen, endGame, cancelAnimationFrame, note.
  wsimpl.
  destruct (Qltb VIRTUAL_HEIGHT _); wsimpl;
    [destruct af as [[| h] |]; wsimpl |];
    destruct (Qltb _ 0); reflexivity.
Qed.

Lemma generateCloud_only (randomX : bool) (w : World) :
  generateCloud rand randomX w =
  set_clouds (clouds (generateCloud rand randomX w))
    (set_randCalls (randCalls (generateCloud rand randomX w)) w).
Proof. destruct w. reflexivity. Qed.

Lemma generatePipe_only (xOverride : option Q) (w : World) :
  generatePipe rand xOverride w =
  set_pipes (pipes (generatePipe rand xOverride w))
    (set_randCalls (randCalls (generatePipe rand xOverride w)) w).
Proof. destruct w. reflexivity. Qed.

Lemma set_clouds_randCalls_twice (c c' : list Cloud.t) (k k' : nat) (w : World) :
  set_clouds c (set_randCalls k (set_clouds c' (set_randCalls k' w))) =
  set_clouds c (set_randCalls k w).
Proof. reflexivity. Qed.

Lemma set_pipes_randCalls_twice (p p' : list Pipe.t) (k k' : nat) (w : World) :
  set_pipes p (set_randCalls k (set_pipes p' (set_randCalls k' w))) =
  set_pipes p (set_randCalls k w).
Proof. reflexivity. Qed.

Lemma initialClouds_shape (n : nat) :
  forall w : World,
  initialClouds rand n w =
  set_clouds (clouds (initialClouds rand n w))
    (set_randCalls (randCalls (initialClouds rand n w)) w).
Proof.
  induction n as [| n IH]; intros w; cbn [initialClouds].
  - destruct w. reflexivity.
  - rewrite (IH (generateCloud rand true w)) at 1.
    rewrite (generateCloud_only true w) at 3.
    apply set_clouds_randCalls_twice.
Qed.

Lemma initialPipesLoop_shape (n : nat) :
  forall (i : Z) (w : World),
  initialPipesLoop rand n i w =
  set_pipes (pipes (initialPipesLoop rand n i w))
    (set_randCalls (randCalls (initialPipesLoop rand n i w)) w).
Proof.
  induction n as [| n IH]; intros i w; cbn [initialPipesLoop].
  - destruct w. reflexivity.
  - cbv zeta.
    rewrite (IH (i + 1)%Z (generatePipe rand (Some _) w)) at 1.
    rewrite (generatePipe_only (Some _) w) at 3.
    apply set_pipes_randCalls_twice.
Qed.

Lemma start_shapes_compose (v t u : World) :
  t = set_clouds (clouds t) (set_randCalls (randCalls t) v) ->
  u = set_pipes (pipes u) (set_randCalls (randCalls u) t) ->
  set_musicPlaying true u =
  set_musicPlaying true
    (set_pipes (pipes (set_musicPlaying true u))
       (set_clouds (clouds (set_musicPlaying true u))
          (set_randCalls (randCalls (set_musicPlaying true u)) v))).
Proof. intros E1 E2. rewrite E2, E1. destruct v. reflexivity. Qed.

(** The world handed to the first frame differs from the reset world in
    its clouds, its pipes, the count of random numbers and the music. *)
Lemma beforeFirstFrame_shape (w : World) :
  beforeFirstFrame rand w =
  set_musicPlaying true
    (set_pipes (pipes (beforeFirstFrame rand w))
       (set_clouds (clouds (beforeFirstFrame rand w))
          (set_randCalls (randCalls (beforeFirstFrame rand w))
             (resetWorld w)))).
Proof.
  unfold beforeFirstFrame.
  apply (start_shapes_compose (resetWorld w)
           (initialClouds rand 5 (resetWorld w)));
    [apply initialClouds_shape | apply initialPipesLoop_shape].
Qed.

Lemma resetWorld_shape (w : World) :
  resetWorld w =
  mkWorld
    (Bird.mk BIRD_X (VIRTUAL_HEIGHT / 2 - BIRD_HEIGHT / 2) BIRD_WIDTH
       BIRD_HEIGHT 0)
    [] 0%Z true false 0%Z (animationFrameId w) [] [] 0%Z 0%Z
    (finalScoreDisplay w) true (musicPlaying w) (crashPlays w) (pending w)
    (nextHandle w) (randCalls w) (log w).
Proof. destruct w. reflexivity. Qed.

(** To show that something holds in every reachable world it is enough
    to show it of the world handed to the first frame and to show that
    every routine of a frame, a cancelled callback and a flap keep it. *)
Lemma gameLoop_by_stages (P : World -> Prop) :
  (forall w, P w -> P (updateClouds rand w)) ->
  (forall w, P w -> P (updateBird w)) ->
  (forall w, P w -> P (updatePipes rand w)) ->
  (forall w, P w -> P (updateParticles w)) ->
  (forall w, P w -> P (frameDraws w)) ->
  (forall w, P w -> P (endGame w)) ->
  (forall w, P w -> P (scheduleNext w)) ->
  forall w, P w -> P (gameLoop rand w).
Proof.
  intros Hc Hb Hp Hf Hd He Hs w Hw.
  destruct (gameRunning w) eqn:Hr.
  - rewrite gameLoop_running by exact Hr. apply Hs.
    destruct (checkCollisions_cases (frameDraws (frameUpdates rand w)))
      as [-> | ->]; [| apply He]; apply Hd, Hf, Hp, Hb, Hc, Hw.
  - rewrite gameLoop_stopped by exact Hr. exact Hw.
Qed.

Lemma frame_by_stages (P : World -> Prop) :
  (forall w, P w -> P (updateClouds rand w)) ->
  (forall w, P w -> P (updateBird w)) ->
  (forall w, P w -> P (updatePipes rand w)) ->
  (forall w, P w -> P (updateParticles w)) ->
  (forall w, P w -> P (frameDraws w)) ->
  (forall w, P w -> P (endGame w)) ->
  forall w, P w -> P (checkCollisions (frameDraws (frameUpdates rand w))).
Proof.
  intros Hc Hb Hp Hf Hd He w Hw.
  destruct (checkCollisions_cases (frameDraws (frameUpdates rand w)))
    as [-> | ->]; [| apply He]; apply Hd, Hf, Hp, Hb, Hc, Hw.
Qed.

Lemma runCallbacks_by_stages (P : World -> Prop) :
  (forall w, P w -> P (gameLoop rand w)) ->
  (forall w h, P w -> P (cancelAnimationFrame h w)) ->
  forall hs w, P w -> P (runCallbacks rand hs w).
Proof.
  intros Hg Hc hs. induction hs as [| h hs IH]; intros w Hw; cbn [runCallbacks].
  - exact Hw.
  - destruct (bool_decide (h ∈ pending w)); apply IH; [apply Hg, Hc |]; exact Hw.
Qed.

Lemma reachable_by_stages (P : World -> Prop) :
  (forall w, P (beforeFirstFrame rand w)) ->
  (forall w, P w -> P (gameLoop rand w)) ->
  (forall w h, P w -> P (cancelAnimationFrame h w)) ->
  (forall w, P w -> P (flap rand w)) ->
  forall w, reachable rand w -> P w.
Proof.
  intros H0 Hg Hc Hf w Hw. induction Hw as [| w e _ IH].
  - unfold loaded. rewrite startGame_eq. apply Hg, H0.
  - destruct e; cbn [handle].
    + unfold refresh. apply runCallbacks_by_stages; assumption.
    + apply Hf, IH.
    + rewrite startGame_eq. apply Hg, H0.
Qed.

End Shapes.

(** ** Clouds *)

Section Clouds.

Variable rand : nat -> Q.

Lemma cloudBody_spec (l l2 : list Cloud.t) (c : Cloud.t) :
  cloudBody (length l) c (l ++ c :: l2) =
  l ++ (if cloudGone (moveCloud c) then [] else [moveCloud c]) ++ l2.
Proof.
  unfold cloudBody, cloudGone, moveCloud. cbv zeta.
  replace (length l) with (length l + 0)%nat by lia.
  rewrite insert_app_r. cbn [insert list_insert].
  destruct (Qltb _ 0); [| reflexivity].
  rewrite Nat.add_0_r. apply delete_middle.
Qed.

Lemma keptClouds_snoc (l : list Cloud.t) (c : Cloud.t) :
  keptClouds (l ++ [c]) =
  keptClouds l ++ (if cloudGone (moveCloud c) then [] else [moveCloud c]).
Proof.
  unfold keptClouds. rewrite map_app, filter_app. f_equal.
  cbn [map]. rewrite filter_cons, filter_nil.
  destruct (cloudGone (moveCloud c)); reflexivity.
Qed.

(** The loop of [updateClouds] in closed form. *)
Lemma cloudsLoop_spec (l : list Cloud.t) :
  forall l2, cloudsLoop (length l) (l ++ l2) = keptClouds l ++ l2.
Proof.
  induction l as [| c l IH] using rev_ind; intros l2; [reflexivity |].
  rewrite length_app. cbn [length]. rewrite Nat.add_1_r. cbn [cloudsLoop].
  rewrite <- app_assoc. cbn [app].
  rewrite list_lookup_middle by reflexivity.
  rewrite cloudBody_spec, IH, keptClouds_snoc, <- app_assoc. reflexivity.
Qed.

Lemma generateCloud_shape (randomX : bool) (w : World) :
  generateCloud rand randomX w =
  set_clouds
    (clouds w ++
       [newCloud randomX (rand (randCalls w)) (rand (S (randCalls w)))
          (rand (S (S (randCalls w)))) (rand (S (S (S (randCalls w)))))])
    (set_randCalls (S (S (S (S (randCalls w))))) w).
Proof. destruct w. reflexivity. Qed.

Lemma updateClouds_clouds (w : World) :
  clouds (updateClouds rand w) =
  keptClouds (clouds w) ++
    (if gameRunning w && Qltb (rand (randCalls w)) (5 # 1000) then
       [newCloud false (rand (1 + randCalls w)) (rand (2 + randCalls w))
          (rand (3 + randCalls w)) (rand (4 + randCalls w))]
     else []).
Proof.
  pose proof (cloudsLoop_spec (clouds w) []) as E.
  rewrite !app_nil_r in E.
  unfold updateClouds, generateCloud, random, note.
  destruct w as [b ps sc gr go fc af pa cl st sd fsd mh mp cp pe nh rc lg].
  wsimpl. wsimpl_in E. rewrite E.
  destruct gr; cbn [andb]; wsimpl; [| rewrite app_nil_r; reflexivity].
  destruct (Qltb (rand rc) (5 # 1000)); wsimpl;
    [reflexivity | rewrite app_nil_r; reflexivity].
Qed.

Lemma In_keptClouds (l : list Cloud.t) (c : Cloud.t) :
  In c (keptClouds l) <->
  cloudGone c = false /\ exists d, In d l /\ c = moveCloud d.
Proof.
  unfold keptClouds. rewrite <- list_elem_of_In, list_elem_of_filter,
    list_elem_of_In, in_map_iff.
  split; intros [Ho (q & H1 & H2)]; (split; [exact Ho |]); exists q; auto.
Qed.

Lemma newCloud_shape (randomX : bool) (r1 r2 r3 r4 : Q) :
  0 <= r1 < 1 -> 0 <= r2 < 1 -> 0 <= r3 < 1 -> 0 <= r4 < 1 ->
  cloudShape (newCloud randomX r1 r2 r3 r4) /\
  (if randomX then 0 <= Cloud.x (newCloud randomX r1 r2 r3 r4) < VIRTUAL_WIDTH
   else VIRTUAL_WIDTH <= Cloud.x (newCloud randomX r1 r2 r3 r4)
        < VIRTUAL_WIDTH + 100).
Proof.
  intros H1 H2 H3 H4. unfold cloudShape, newCloud. wsimpl.
  unfold Qdiv. change (/ 2) with (1 # 2). consts.
  destruct randomX; repeat split; lra.
Qed.

End Clouds.


(** ** Feathers *)

Section Particles.

Variable rand : nat -> Q.

Lemma particleBody_spec (l l2 : list Particle.t) (p : Particle.t) :
  particleBody (length l) p (l ++ p :: l2) =
  l ++ (if particleDead (moveParticle p) then [] else [moveParticle p]) ++ l2.
Proof.
  unfold particleBody, particleDead, moveParticle. cbv zeta.
  replace (length l) with (length l + 0)%nat by lia.
  rewrite insert_app_r. cbn [insert list_insert Particle.life].
  destruct (_ <=? 0)%Z; [| reflexivity].
  rewrite Nat.add_0_r. apply delete_middle.
Qed.

Lemma keptParticles_snoc (l : list Particle.t) (p : Particle.t) :
  keptParticles (l ++ [p]) =
  keptParticles l ++
    (if particleDead (moveParticle p) then [] else [moveParticle p]).
Proof.
  unfold keptParticles. rewrite map_app, filter_app. f_equal.
  cbn [map]. rewrite filter_cons, filter_nil.
  destruct (particleDead (moveParticle p)); reflexivity.
Qed.

(** The loop of [updateParticles] in closed form. *)
Lemma particlesLoop_spec (l : list Particle.t) :
  forall l2, particlesLoop (length l) (l ++ l2) = keptParticles l ++ l2.
Proof.
  induction l as [| p l IH] using rev_ind; intros l2; [reflexivity |].
  rewrite length_app. cbn [length]. rewrite Nat.add_1_r. cbn [particlesLoop].
  rewrite <- app_assoc. cbn [app].
  rewrite list_lookup_middle by reflexivity.
  rewrite particleBody_spec, IH, keptParticles_snoc, <- app_assoc. reflexivity.
Qed.

Lemma updateParticles_particles (w : World) :
  particles (updateParticles w) = keptParticles (particles w).
Proof.
  pose proof (particlesLoop_spec (particles w) []) as E.
  rewrite !app_nil_r in E. rewrite updateParticles_shape. exact E.
Qed.

Lemma In_keptParticles (l : list Particle.t) (p : Particle.t) :
  In p (keptParticles l) <->
  particleDead p = false /\ exists q, In q l /\ p = moveParticle q.
Proof.
  unfold keptParticles. rewrite <- list_elem_of_In, list_elem_of_filter,
    list_elem_of_In, in_map_iff.
  split; intros [Ho (q & H1 & H2)]; (split; [exact Ho |]); exists q; auto.
Qed.

Lemma keptParticles_alive (l : list Particle.t) :
  (forall p, In p l -> alive p) -> forall p, In p (keptParticles l) -> alive p.
Proof.
  intros Hl p Hp. apply In_keptParticles in Hp as (Hd & q & Hq & ->).
  specialize (Hl q Hq). unfold alive, particleDead, moveParticle in *.
  cbn [Particle.life] in *. apply Z.leb_gt in Hd. lia.
Qed.

Lemma flap_feathersAlive (w : World) :
  feathersAlive w -> feathersAlive (flap rand w).
Proof.
  intros Hw. destruct (gameRunning w) eqn:Hr.
  - rewrite flap_running by exact Hr. intros p Hp.
    change (In p (particles w ++ feathers rand (bird w) (randCalls w) 3)) in Hp.
    apply in_app_iff in Hp as [Hp | Hp]; [exact (Hw p Hp) |].
    apply feathers_at_bird in Hp as (_ & _ & Hl). unfold alive. lia.
  - unfold flap. rewrite Hr. exact Hw.
Qed.

Lemma gameLoop_feathersAlive (w : World) :
  feathersAlive w -> feathersAlive (gameLoop rand w).
Proof.
  apply (gameLoop_by_stages rand feathersAlive); clear w; intros w Hw.
  - rewrite updateClouds_shape. exact Hw.
  - rewrite updateBird_shape.
    destruct (floorHit w); [rewrite endGame_shape |]; exact Hw.
  - rewrite updatePipes_shape. exact Hw.
  - unfold feathersAlive. rewrite updateParticles_particles.
    apply keptParticles_alive, Hw.
  - rewrite frameDraws_shape. exact Hw.
  - rewrite endGame_shape. exact Hw.
  - exact Hw.
Qed.

Lemma reachable_feathersAlive (w : World) :
  reachable rand w -> feathersAlive w.
Proof.
  apply (reachable_by_stages rand feathersAlive); clear w.
  - intros w. rewrite beforeFirstFrame_shape, resetWorld_shape. intros p [].
  - apply gameLoop_feathersAlive.
  - intros w h Hw. exact Hw.
  - apply flap_feathersAlive.
Qed.

Lemma moveParticle_iter_life (k : nat) (p : Particle.t) :
  Particle.life (Nat.iter k moveParticle p) = (Particle.life p - Z.of_nat k)%Z.
Proof.
  induction k as [| k IH]; [cbn; lia |].
  change (Nat.iter (S k) moveParticle p)
    with (moveParticle (Nat.iter k moveParticle p)).
  unfold moveParticle at 1. cbn [Particle.life]. rewrite IH. lia.
Qed.

End Particles.

(** One particle update moves every feather by its velocity, takes one
    frame off its life, drops exactly the feathers whose life is then 0 or
    less and keeps the others in their order.  In every reachable world
    every feather has between 1 and 30 frames of life left, so the opacity
    [life / 30] it is drawn with is above 0 and at most 1.  A feather made
    by a flap (life 30) is kept by the next 29 updates and dropped by the
    30th. *)
Theorem feathers_fade_and_go (rand : nat -> Q) :
  (forall (w : World) (p : Particle.t),
     In p (particles (updateParticles w)) <->
     (0 < Particle.life p)%Z /\
     exists q, In q (particles w) /\
       p = Particle.mk (Particle.x q + Particle.speedX q)
             (Particle.y q + Particle.speedY q) (Particle.size q)
             (Particle.speedX q) (Particle.speedY q) (Particle.life q - 1)) /\
  (forall w : World,
     particles (updateParticles w) = keptParticles (particles w)) /\
  (forall (w : World) (p : Particle.t),
     reachable rand w -> In p (particles w) ->
     (1 <= Particle.life p <= 30)%Z /\ 0 < particleAlpha p <= 1) /\
  (forall (b : Bird.t) (r1 r2 r3 : Q) (k : nat),
     particleDead (Nat.iter (S k) moveParticle (feather b r1 r2 r3)) = false <->
     (k < 29)%nat).
Proof.
  split; [| split; [| split]].
  - intros w p. rewrite updateParticles_particles, In_keptParticles.
    unfold particleDead. rewrite Z.leb_gt. reflexivity.
  - apply updateParticles_particles.
  - intros w p Hw Hp. pose proof (reachable_feathersAlive rand w Hw p Hp) as Ha.
    split; [exact Ha |]. unfold alive in Ha. unfold particleAlpha.
    assert (1 <= inject_Z (Particle.life p) <= 30) as Hq.
    { split; [change 1 with (inject_Z 1) | change 30 with (inject_Z 30)];
        rewrite <- Zle_Qle; lia. }
    unfold Qdiv. change (/ 30) with (1 # 30). lra.
  - intros b r1 r2 r3 k. unfold particleDead.
    rewrite moveParticle_iter_life. cbn [feather Particle.life].
    rewrite Z.leb_gt. lia.
Qed.

(** A feather is still there after 29 updates. *)
Lemma feathers_fade_and_go_witness :
  particleDead
    (Nat.iter 29 moveParticle
       (feather (Bird.mk 50 300 28 21 0) (1 # 2) (1 # 2) (1 # 2))) = false.
Proof.
  apply (proj2 (proj2 (proj2 (feathers_fade_and_go oracleHalf)))
           (Bird.mk 50 300 28 21 0) (1 # 2) (1 # 2) (1 # 2) 28%nat).
  lia.
Defined.

(** ** Flags, readout, spawn timer and clouds between events *)

Section Lifecycle.

Variable rand : nat -> Q.

(** *** Lifecycle flags *)

Lemma gameLoop_flagsAgree (w : World) :
  flagsAgree w -> flagsAgree (gameLoop rand w).
Proof.
  apply (gameLoop_by_stages rand flagsAgree); clear w; intros w Hw.
  - rewrite updateClouds_shape. exact Hw.
  - rewrite updateBird_shape.
    destruct (floorHit w); [rewrite endGame_shape; repeat split | exact Hw].
  - rewrite updatePipes_shape. exact Hw.
  - exact Hw.
  - rewrite frameDraws_shape. exact Hw.
  - rewrite endGame_shape. repeat split.
  - exact Hw.
Qed.

Lemma reachable_flagsAgree (w : World) : reachable rand w -> flagsAgree w.
Proof.
  apply (reachable_by_stages rand flagsAgree); clear w.
  - intros w. rewrite beforeFirstFrame_shape, resetWorld_shape. repeat split.
  - apply gameLoop_flagsAgree.
  - intros w h Hw. exact Hw.
  - intros w Hw. destruct (gameRunning w) eqn:Hr.
    + rewrite flap_running by exact Hr. exact Hw.
    + unfold flap. rewrite Hr. exact Hw.
Qed.

(** *** Score readout *)

Lemma updatePipes_displaySynced (w : World) :
  displaySynced w -> displaySynced (updatePipes rand w).
Proof.
  unfold displaySynced. intros Hw. rewrite updatePipes_spec. cbv zeta.
  cbn [scoreDisplay score set_pipes set_scoreDisplay set_score].
  destruct (Z.eqb_spec (scoredNow (Bird.x (bird w))
                          (pipes (beforePipesLoop rand w))) 0) as [-> | _];
    [rewrite Hw; lia | reflexivity].
Qed.

Lemma gameLoop_displaySynced (w : World) :
  displaySynced w -> displaySynced (gameLoop rand w).
Proof.
  apply (gameLoop_by_stages rand displaySynced); clear w; intros w Hw.
  - rewrite updateClouds_shape. exact Hw.
  - rewrite updateBird_shape.
    destruct (floorHit w); [rewrite endGame_shape |]; exact Hw.
  - apply updatePipes_displaySynced, Hw.
  - exact Hw.
  - rewrite frameDraws_shape. exact Hw.
  - rewrite endGame_shape. exact Hw.
  - exact Hw.
Qed.

Lemma reachable_displaySynced (w : World) : reachable rand w -> displaySynced w.
Proof.
  apply (reachable_by_stages rand displaySynced); clear w.
  - intros w. rewrite beforeFirstFrame_shape, resetWorld_shape. reflexivity.
  - apply gameLoop_displaySynced.
  - intros w h Hw. exact Hw.
  - intros w Hw. destruct (gameRunning w) eqn:Hr.
    + rewrite flap_running by exact Hr. exact Hw.
    + unfold flap. rewrite Hr. exact Hw.
Qed.

(** *** Spawn timer *)

Lemma beforePipesLoop_cases (w : World) :
  ((spawnTimer w + 1 < PIPE_INTERVAL)%Z /\
   spawnTimer (beforePipesLoop rand w) = (spawnTimer w + 1)%Z /\
   pipes (beforePipesLoop rand w) = pipes w /\
   randCalls (beforePipesLoop rand w) = randCalls w) \/
  ((PIPE_INTERVAL <= spawnTimer w + 1)%Z /\
   spawnTimer (beforePipesLoop rand w) = 0%Z /\
   pipes (beforePipesLoop rand w) =
     pipes w ++ [newPipe VIRTUAL_WIDTH (rand (randCalls w))] /\
   randCalls (beforePipesLoop rand w) = S (randCalls w)).
Proof.
  unfold beforePipesLoop, generatePipe, random, note.
  destruct w as [b ps sc gr go fc af pa cl st sd fsd mh mp cp pe nh rc lg].
  wsimpl. destruct (Z.leb_spec PIPE_INTERVAL (st + 1)); wsimpl; auto.
Qed.

Lemma updatePipes_spawnTimer (w : World) :
  spawnTimer (updatePipes rand w) = spawnTimer (beforePipesLoop rand w).
Proof. rewrite updatePipes_shape. reflexivity. Qed.

Lemma updatePipes_timerInRange (w : World) :
  timerInRange w -> timerInRange (updatePipes rand w).
Proof.
  unfold timerInRange. rewrite updatePipes_spawnTimer. intros Hw.
  destruct (beforePipesLoop_cases w) as [(H & -> & _) | (H & -> & _)];
    unfold PIPE_INTERVAL in *; lia.
Qed.

Lemma gameLoop_timerInRange (w : World) :
  timerInRange w -> timerInRange (gameLoop rand w).
Proof.
  apply (gameLoop_by_stages rand timerInRange); clear w; intros w Hw.
  - rewrite updateClouds_shape. exact Hw.
  - rewrite updateBird_shape.
    destruct (floorHit w); [rewrite endGame_shape |]; exact Hw.
  - apply updatePipes_timerInRange, Hw.
  - exact Hw.
  - rewrite frameDraws_shape. exact Hw.
  - rewrite endGame_shape. exact Hw.
  - exact Hw.
Qed.

Lemma reachable_timerInRange (w : World) : reachable rand w -> timerInRange w.
Proof.
  apply (reachable_by_stages rand timerInRange); clear w.
  - intros w. rewrite beforeFirstFrame_shape, resetWorld_shape.
    unfold timerInRange, PIPE_INTERVAL. cbn [spawnTimer set_musicPlaying
      set_pipes set_clouds set_randCalls]. lia.
  - apply gameLoop_timerInRange.
  - intros w h Hw. exact Hw.
  - intros w Hw. destruct (gameRunning w) eqn:Hr.
    + rewrite flap_running by exact Hr. exact Hw.
    + unfold flap. rewrite Hr. exact Hw.
Qed.

(** *** Clouds *)



Lemma clouds_of_pipes_change (p : list Pipe.t) (k : nat) (b : bool) (w : World) :
  clouds (set_musicPlaying b (set_pipes p (set_randCalls k w))) = clouds w.
Proof. reflexivity. Qed.

Lemma beforeFirstFrame_clouds (w : World) :
  clouds (beforeFirstFrame rand w) = clouds (initialClouds rand 5 (resetWorld w)).
Proof.
  unfold beforeFirstFrame. rewrite initialPipesLoop_shape.
  apply clouds_of_pipes_change.
Qed.

End Lifecycle.

(** In every reachable world the lifecycle flags agree: the game is over
    exactly when it is not running, the game-over panel is hidden exactly
    while it runs, and the last command given to the background music was
    play exactly while it runs. *)
Theorem lifecycle_flags_agree (rand : nat -> Q) (w : World) :
  reachable rand w ->
  gameOver w = negb (gameRunning w) /\
  modalHidden w = gameRunning w /\
  musicPlaying w = gameRunning w.
Proof. apply reachable_flagsAgree. Qed.

Lemma lifecycle_flags_agree_witness :
  gameOver (loaded oracleHalf) = negb (gameRunning (loaded oracleHalf)).
Proof.
  exact (proj1 (lifecycle_flags_agree oracleHalf (loaded oracleHalf)
                  (reachable_loaded oracleHalf))).
Defined.

(** In every reachable world the score readout shows the current score. *)
Theorem score_readout_in_sync (rand : nat -> Q) (w : World) :
  reachable rand w -> scoreDisplay w = score w.
Proof. apply reachable_displaySynced. Qed.

Lemma score_readout_in_sync_witness :
  scoreDisplay (loaded oracleHalf) = score (loaded oracleHalf).
Proof.
  exact (score_readout_in_sync oracleHalf (loaded oracleHalf)
           (reachable_loaded oracleHalf)).
Defined.

(** The spawn timer counts the pipe updates since the last spawn.  In
    every reachable world it is between 0 and 159.  A pipe update that
    finds it at 159 appends one new unpassed pipe at the right edge of the
    viewport, which the same update then moves like the others, and sets
    the timer to 0; any other pipe update adds one to the timer and
    appends nothing. *)
Theorem pipe_spawned_every_interval (rand : nat -> Q) :
  (forall w : World,
     reachable rand w -> (0 <= spawnTimer w < PIPE_INTERVAL)%Z) /\
  (forall w : World,
     (0 <= spawnTimer w < PIPE_INTERVAL)%Z ->
     let bx := Bird.x (bird w) in
     if (spawnTimer w =? PIPE_INTERVAL - 1)%Z then
       spawnTimer (updatePipes rand w) = 0%Z /\
       pipes (updatePipes rand w) =
         survivors bx
           (pipes w ++ [Pipe.mk VIRTUAL_WIDTH (topPipeHeight (rand (randCalls w)))
                          (topPipeHeight (rand (randCalls w)) + PIPE_GAP) false])
     else
       spawnTimer (updatePipes rand w) = (spawnTimer w + 1)%Z /\
       pipes (updatePipes rand w) = survivors bx (pipes w)).
Proof.
  split; [apply reachable_timerInRange |].
  intros w Hw. cbv zeta.
  rewrite updatePipes_spawnTimer, updatePipes_pipes.
  destruct (beforePipesLoop_cases rand w) as [(H & -> & -> & _) | (H & -> & -> & _)];
    destruct (Z.eqb_spec (spawnTimer w) (PIPE_INTERVAL - 1));
    try (exfalso; lia); split; reflexivity.
Qed.

Lemma pipe_spawned_every_interval_witness :
  spawnTimer (updatePipes oracleHalf
                (set_spawnTimer 159 (worldWith (Bird.mk 50 300 28 21 0)))) = 0%Z.
Proof.
  assert (0 <= 159 < PIPE_INTERVAL)%Z as H by (unfold PIPE_INTERVAL; lia).
  exact (proj1 (proj2 (pipe_spawned_every_interval oracleHalf)
                  (set_spawnTimer 159 (worldWith (Bird.mk 50 300 28 21 0)))
                  H)).
Defined.


(** ** The collision check *)

Section Collisions.

Variable rand : nat -> Q.

(** For a bird in range, hitting a pipe is being abreast of it and not
    within its gap. *)
Lemma hits_iff (b : Bird.t) (p : Pipe.t) :
  inRange b -> 0 < Bird.height b ->
  hits b p = true <-> abreast b p /\ ~ inGap b p.
Proof.
  unfold inRange, abreast, inGap, hits. intros Hr Hh.
  rewrite orb_true_iff, !isColliding_iff.
  unfold overlapX, overlapY, birdRect, topPipeRect, bottomPipeRect.
  cbn [Rect.x Rect.y Rect.width Rect.height].
  split.
  - intros [[[H1 H2] [H3 H4]] | [[H1 H2] [H3 H4]]];
      (split; [split; lra | intros [H5 H6]; lra]).
  - intros [[H1 H2] Hg].
    destruct (Qlt_le_dec (Bird.y b) (Pipe.topHeight p)) as [Ht | Ht].
    + left. repeat split; lra.
    + right. repeat split; lra.
Qed.

Lemma hits_abreast (b : Bird.t) (p : Pipe.t) : hits b p = true -> abreast b p.
Proof.
  unfold abreast, hits. rewrite orb_true_iff, !isColliding_iff.
  unfold overlapX, birdRect, topPipeRect, bottomPipeRect.
  cbn [Rect.x Rect.width].
  intros [[[H1 H2] _] | [[H1 H2] _]]; split; lra.
Qed.

Lemma checkCollisions_clear (w : World) :
  (forall p, In p (pipes w) -> hits (bird w) p = false) ->
  checkCollisions w = w.
Proof.
  intros Hall. unfold checkCollisions.
  destruct (collisionLoop_cases (pipes w) w) as [[_ E] | [Hex _]];
    [exact E |].
  rewrite Exists_exists in Hex. destruct Hex as (p & Hp & Hh).
  rewrite (Hall p) in Hh; [discriminate |].
  apply list_elem_of_In. exact Hp.
Qed.

Lemma checkCollisions_clearOfPipes (w : World) :
  clearOfPipes (checkCollisions w).
Proof.
  unfold checkCollisions.
  destruct (collisionLoop_cases (pipes w) w) as [[Hall ->] | [_ ->]].
  - intros _ p Hp. rewrite Forall_forall in Hall. apply Hall.
    apply list_elem_of_In. exact Hp.
  - intros Hr. rewrite endGame_gameRunning in Hr. discriminate.
Qed.

Lemma clearOfPipes_ext (w w' : World) :
  bird w' = bird w -> pipes w' = pipes w -> gameRunning w' = gameRunning w ->
  clearOfPipes w -> clearOfPipes w'.
Proof. unfold clearOfPipes. intros -> -> ->. auto. Qed.

Lemma gameLoop_clearOfPipes (w : World) : clearOfPipes (gameLoop rand w).
Proof.
  destruct (gameRunning w) eqn:Hr.
  - rewrite gameLoop_running by exact Hr.
    apply (clearOfPipes_ext (checkCollisions (frameDraws (frameUpdates rand w)))).
    + apply scheduleNext_bird.
    + apply scheduleNext_pipes.
    + apply scheduleNext_gameRunning.
    + apply checkCollisions_clearOfPipes.
  - rewrite gameLoop_stopped by exact Hr. intros Hr'. congruence.
Qed.

Lemma flap_clearOfPipes (w : World) : clearOfPipes w -> clearOfPipes (flap rand w).
Proof.
  intros Hw. destruct (gameRunning w) eqn:Hr.
  - intros _ p Hp. destruct (flap_bird rand w) as (Hx & Hy & Hwd & Hh).
    rewrite flap_running in Hp by exact Hr.
    specialize (Hw Hr p Hp). unfold hits, birdRect in *.
    rewrite Hx, Hy, Hwd, Hh. exact Hw.
  - unfold flap. rewrite Hr. exact Hw.
Qed.

End Collisions.


(** ** Frame callbacks *)

Section Callbacks.

Variable rand : nat -> Q.

Lemma endGame_pending_empty (w : World) :
  pending w = [] -> pending (endGame w) = [].
Proof.
  intros Hw. rewrite endGame_pending, Hw.
  destruct (animationFrameId w) as [[| h] |]; reflexivity.
Qed.

Lemma set_bird_pending (b : Bird.t) (w : World) :
  pending (set_bird b w) = pending w.
Proof. reflexivity. Qed.

Lemma frame_pending_empty (w : World) :
  pending w = [] ->
  pending (checkCollisions (frameDraws (frameUpdates rand w))) = [].
Proof.
  apply (frame_by_stages rand (fun v => pending v = [])); clear w; intros w Hw.
  - rewrite updateClouds_shape. exact Hw.
  - rewrite updateBird_shape.
    destruct (floorHit w); [| exact Hw].
    rewrite set_bird_pending. apply endGame_pending_empty. exact Hw.
  - rewrite updatePipes_shape. exact Hw.
  - exact Hw.
  - rewrite frameDraws_shape. exact Hw.
  - apply endGame_pending_empty, Hw.
Qed.

Lemma gameLoop_oneChain (w : World) :
  pending w = [] -> gameRunning w = true \/ oneChain w ->
  oneChain (gameLoop rand w).
Proof.
  intros Hw Hor. destruct (gameRunning w) eqn:Hr.
  - rewrite gameLoop_running by exact Hr.
    pose proof (frame_pending_empty w Hw) as HY.
    generalize dependent (checkCollisions (frameDraws (frameUpdates rand w))).
    intros Y HY. rewrite scheduleNext_shape. unfold oneChain.
    cbn [pending animationFrameId gameRunning set_animationFrameId
           set_nextHandle set_pending].
    rewrite HY. cbn [app length].
    split; [lia |]. intros _. eexists. split; reflexivity.
  - rewrite gameLoop_stopped by exact Hr.
    destruct Hor as [? | H]; [discriminate | exact H].
Qed.

Lemma refresh_cases (w : World) :
  (length (pending w) <= 1)%nat ->
  (pending w = [] /\ refresh rand w = w) \/
  (exists h, pending w = [h] /\
             refresh rand w = gameLoop rand (cancelAnimationFrame h w)).
Proof.
  intros Hl. unfold refresh.
  destruct (pending w) as [| h [| h' t]] eqn:E; cbn [length] in Hl;
    [left; split; reflexivity | | lia].
  right. exists h. split; [reflexivity |].
  cbn [runCallbacks]. rewrite E.
  rewrite bool_decide_eq_true_2 by (apply list_elem_of_singleton; reflexivity).
  reflexivity.
Qed.

Lemma cancel_only_pending (h : nat) (w : World) :
  pending (cancelAnimationFrame h w) = [] -> gameRunning w = false ->
  oneChain (cancelAnimationFrame h w).
Proof.
  intros Hp Hr. split; [rewrite Hp; cbn; lia |].
  intros Hr'. rewrite cancel_stopped in Hr'. congruence.
Qed.

Lemma refresh_oneChain (w : World) : oneChain w -> oneChain (refresh rand w).
Proof.
  intros Hw. destruct (refresh_cases w (proj1 Hw)) as [[_ ->] | (h & E & ->)];
    [exact Hw |].
  assert (pending (cancelAnimationFrame h w) = []) as Hp.
  { unfold cancelAnimationFrame. cbn [pending set_pending]. rewrite E.
    rewrite filter_cons, filter_nil.
    destruct (decide (h <> h)) as [Hne | _]; [congruence | reflexivity]. }
  apply gameLoop_oneChain; [exact Hp |].
  rewrite cancel_stopped.
  destruct (gameRunning w) eqn:Hr; [left; reflexivity | right].
  apply cancel_only_pending; assumption.
Qed.

Lemma flap_oneChain (w : World) : oneChain w -> oneChain (flap rand w).
Proof.
  intros Hw. destruct (gameRunning w) eqn:Hr.
  - rewrite flap_running by exact Hr. exact Hw.
  - unfold flap. rewrite Hr. exact Hw.
Qed.

Lemma beforeFirstFrame_pending (w : World) :
  pending (beforeFirstFrame rand w) = pending w /\
  gameRunning (beforeFirstFrame rand w) = true.
Proof.
  rewrite beforeFirstFrame_shape, resetWorld_shape. split; reflexivity.
Qed.

Lemma startGame_oneChain (w : World) :
  pending w = [] -> oneChain (startGame rand w).
Proof.
  intros Hw. rewrite startGame_eq.
  destruct (beforeFirstFrame_pending w) as [Hp Hr].
  apply gameLoop_oneChain; [rewrite Hp; exact Hw | left; exact Hr].
Qed.

Lemma reachableCalmly_oneChain (w : World) :
  reachableCalmly rand w -> oneChain w.
Proof.
  induction 1 as [| w _ IH | w _ IH | w _ IH Hp].
  - apply startGame_oneChain. reflexivity.
  - apply refresh_oneChain, IH.
  - apply flap_oneChain, IH.
  - apply startGame_oneChain, Hp.
Qed.

Lemma handle_Refresh (w : World) : handle rand w Refresh = refresh rand w.
Proof. reflexivity. Qed.

Lemma handle_FlapInput (w : World) : handle rand w FlapInput = flap rand w.
Proof. reflexivity. Qed.

Lemma handle_RestartClick (w : World) :
  handle rand w RestartClick = startGame rand w.
Proof. reflexivity. Qed.

Lemma reachableCalmly_reachable (w : World) :
  reachableCalmly rand w -> reachable rand w.
Proof.
  induction 1 as [| w _ IH | w _ IH | w _ IH Hp].
  - apply reachable_loaded.
  - rewrite <- (handle_Refresh w). apply reachable_step, IH.
  - rewrite <- (handle_FlapInput w). apply reachable_step, IH.
  - rewrite <- (handle_RestartClick w). apply reachable_step, IH.
Qed.

End Callbacks.

(** When the restart button is only clicked while no frame callback is
    pending, there is one chain of frame callbacks: at most one callback
    is ever pending; while the game runs exactly one is, and it is the one
    whose handle the script remembers; and a display refresh runs the game
    loop once or, with nothing pending, not at all. *)
Theorem one_callback_chain_without_early_restart (rand : nat -> Q) (w : World) :
  reachableCalmly rand w ->
  (length (pending w) <= 1)%nat /\
  (gameRunning w = true ->
   exists h, pending w = [h] /\ animationFrameId w = Some h) /\
  ((pending w = [] /\ refresh rand w = w) \/
   (exists h, pending w = [h] /\
              refresh rand w = gameLoop rand (cancelAnimationFrame h w))).
Proof.
  intros Hw. destruct (reachableCalmly_oneChain rand w Hw) as [Hl Hr].
  split; [exact Hl |]. split; [exact Hr |]. apply refresh_cases, Hl.
Qed.

Lemma one_callback_chain_without_early_restart_witness :
  (length (pending (refresh oracleHalf (loaded oracleHalf))) <= 1)%nat.
Proof.
  exact (proj1 (one_callback_chain_without_early_restart oracleHalf
                  (refresh oracleHalf (loaded oracleHalf))
                  (calm_refresh oracleHalf (loaded oracleHalf)
                     (calm_loaded oracleHalf)))).
Defined.

(** ** The bird's speed *)

Section Speed.

Variable rand : nat -> Q.

Lemma birdTame_ext (w w' : World) : bird w' = bird w -> birdTame w -> birdTame w'.
Proof. unfold birdTame. intros ->. auto. Qed.

Lemma updateBird_birdTame (w : World) : birdTame w -> birdTame (updateBird w).
Proof.
  intros ((Hx & Hwd & Hh) & Hr & He & Hv).
  assert (Bird.height (bird w) <= VIRTUAL_HEIGHT) as Hle
    by (rewrite Hh; consts; lra).
  unfold birdTame, birdShape.
  rewrite updateBird_x, updateBird_width, updateBird_height.
  split; [auto |]. split; [apply updateBird_inRange; exact Hle |].
  unfold energyBounded, inRange in *.
  destruct (Qlt_le_dec VIRTUAL_HEIGHT
              (Bird.y (fallen (bird w)) + Bird.height (fallen (bird w))))
    as [Hf | Hf].
  - rewrite updateBird_floor by assumption. rewrite endGame_bird.
    cbn [bird set_bird Bird.velocity Bird.y]. rewrite Hh. consts. lra.
  - destruct (Qlt_le_dec (Bird.y (fallen (bird w))) 0) as [Hc | Hc].
    + rewrite updateBird_ceiling by assumption.
      cbn [bird set_bird Bird.velocity Bird.y]. consts. lra.
    + rewrite updateBird_free by (unfold belowFloor, aboveCeiling; lra).
      cbn [bird set_bird fallen Bird.velocity Bird.y] in *.
      generalize dependent (Bird.velocity (bird w)).
      generalize dependent (Bird.y (bird w)).
      intros y Hr v He Hv Hf Hc. consts. split; nra.
Qed.

Lemma flap_birdTame (w : World) : birdTame w -> birdTame (flap rand w).
Proof.
  intros Hw. destruct (gameRunning w) eqn:Hrun.
  - destruct Hw as (Hs & Hr & He & Hv).
    rewrite flap_running by exact Hrun.
    unfold birdTame, birdShape, inRange, energyBounded in *.
    cbn [bird set_particles set_randCalls set_bird Bird.set_velocity
           Bird.x Bird.y Bird.width Bird.height Bird.velocity].
    split; [exact Hs |]. split; [exact Hr |]. consts. split; lra.
  - unfold flap. rewrite Hrun. exact Hw.
Qed.

Lemma gameLoop_birdTame (w : World) : birdTame w -> birdTame (gameLoop rand w).
Proof.
  apply (gameLoop_by_stages rand birdTame); clear w; intros w Hw.
  - apply (birdTame_ext w); [apply updateClouds_bird | exact Hw].
  - apply updateBird_birdTame, Hw.
  - apply (birdTame_ext w); [apply updatePipes_bird | exact Hw].
  - exact Hw.
  - apply (birdTame_ext w); [apply frameDraws_bird | exact Hw].
  - apply (birdTame_ext w); [apply endGame_bird | exact Hw].
  - exact Hw.
Qed.

Lemma reachable_birdTame (w : World) : reachable rand w -> birdTame w.
Proof.
  apply (reachable_by_stages rand birdTame); clear w.
  - intros w. unfold birdTame. rewrite beforeFirstFrame_bird.
    unfold birdShape, inRange, energyBounded.
    cbn [Bird.x Bird.y Bird.width Bird.height Bird.velocity].
    unfold Qdiv. change (/ 2) with (1 # 2). consts.
    repeat split; lra.
  - apply gameLoop_birdTame.
  - intros w h Hw. exact Hw.
  - apply flap_birdTame.
Qed.

Lemma speed_bounds (b : Bird.t) :
  inRange b -> Bird.height b == BIRD_HEIGHT -> energyBounded b ->
  Bird.velocity b <= 201 # 10.
Proof.
  unfold inRange, energyBounded. intros Hr Hh He.
  generalize dependent (Bird.velocity b). generalize dependent (Bird.y b).
  generalize dependent (Bird.height b).
  intros h Hh y Hr v He. consts.
  destruct (Qlt_le_dec (201 # 10) v) as [Hv | Hv]; [exfalso | exact Hv].
  nra.
Qed.

End Speed.

(** In every reachable world the bird's velocity is between the flap
    impulse -7.5 and 20.1, and its square is at most
    [FLAP_STRENGTH^2 + 2 * GRAVITY * y]: a free fall loses [GRAVITY^2] of
    [velocity^2 - 2 * GRAVITY * y] every frame, and a flap or a clamp
    resets it. *)
Theorem bird_speed_bounded (rand : nat -> Q) (w : World) :
  reachable rand w ->
  FLAP_STRENGTH <= Bird.velocity (bird w) <= 201 # 10 /\
  Bird.velocity (bird w) * Bird.velocity (bird w) <=
    FLAP_STRENGTH * FLAP_STRENGTH + 2 * GRAVITY * Bird.y (bird w).
Proof.
  intros Hw. destruct (reachable_birdTame rand w Hw) as ((_ & _ & Hh) & Hr & He & Hv).
  split; [split; [exact Hv |] | exact He].
  apply speed_bounds; [exact Hr | rewrite Hh; reflexivity | exact He].
Qed.

Lemma bird_speed_bounded_witness :
  Bird.velocity (bird (loaded oracleHalf)) <= 201 # 10.
Proof.
  exact (proj2 (proj1 (bird_speed_bounded oracleHalf (loaded oracleHalf)
                         (reachable_loaded oracleHalf)))).
Defined.

(** The sprite's rotation in [drawBird] is [min(4 * velocity, 25)] degrees
    in every reachable world, between -30 and 25: the lower clamp at -90
    never takes effect. *)
Theorem bird_rotation_never_clamped_below (rand : nat -> Q) (w : World) :
  reachable rand w ->
  rotationDegrees (bird w) == Qmin (Bird.velocity (bird w) * 4) 25 /\
  - (30) <= rotationDegrees (bird w) <= 25.
Proof.
  intros Hw. destruct (bird_speed_bounded rand w Hw) as [[Hlo _] _].
  unfold rotationDegrees.
  assert (- (30) <= Qmin (Bird.velocity (bird w) * 4) 25 <= 25) as Hm.
  { destruct (Q.min_spec (Bird.velocity (bird w) * 4) 25) as [[H1 ->] | [H1 ->]];
      consts; lra. }
  assert (Qmax (Qmin (Bird.velocity (bird w) * 4) 25) (- (90)) ==
          Qmin (Bird.velocity (bird w) * 4) 25) as E
    by (apply Q.max_l; lra).
  split; [exact E |]. rewrite E. exact Hm.
Qed.

Lemma bird_rotation_never_clamped_below_witness :
  - (30) <= rotationDegrees (bird (loaded oracleHalf)) <= 25.
Proof.
  exact (proj2 (bird_rotation_never_clamped_below oracleHalf (loaded oracleHalf)
                  (reachable_loaded oracleHalf))).
Defined.

(** ** Fields through the frame *)

Section Fields.

Variable rand : nat -> Q.

Ltac by_shape lem := rewrite lem; reflexivity.

Ltac by_bird_shape w :=
  rewrite updateBird_shape;
  destruct (floorHit w); [rewrite endGame_shape |]; reflexivity.

Ltac by_check w :=
  destruct (checkCollisions_cases w) as [-> | ->];
  [reflexivity | rewrite endGame_shape; reflexivity].

(** *** Clouds *)

Lemma updateBird_clouds (w : World) : clouds (updateBird w) = clouds w.
Proof. by_bird_shape w. Qed.

Lemma updatePipes_clouds (w : World) : clouds (updatePipes rand w) = clouds w.
Proof. by_shape updatePipes_shape. Qed.

Lemma checkCollisions_clouds (w : World) : clouds (checkCollisions w) = clouds w.
Proof. by_check w. Qed.

Lemma frameDraws_clouds (w : World) : clouds (frameDraws w) = clouds w.
Proof. by_shape frameDraws_shape. Qed.

Lemma scheduleNext_clouds (w : World) : clouds (scheduleNext w) = clouds w.
Proof. reflexivity. Qed.

Lemma updateParticles_clouds (w : World) : clouds (updateParticles w) = clouds w.
Proof. reflexivity. Qed.

Lemma gameLoop_clouds (w : World) :
  gameRunning w = true -> clouds (gameLoop rand w) = clouds (updateClouds rand w).
Proof.
  intros Hr. rewrite gameLoop_running by exact Hr.
  rewrite scheduleNext_clouds, checkCollisions_clouds, frameDraws_clouds.
  unfold frameUpdates.
  rewrite updateParticles_clouds, updatePipes_clouds. apply updateBird_clouds.
Qed.

(** *** Feathers *)

Lemma updateClouds_particles (w : World) :
  particles (updateClouds rand w) = particles w.
Proof. by_shape updateClouds_shape. Qed.

Lemma updateBird_particles (w : World) : particles (updateBird w) = particles w.
Proof. by_bird_shape w. Qed.

Lemma updatePipes_particles (w : World) :
  particles (updatePipes rand w) = particles w.
Proof. by_shape updatePipes_shape. Qed.

Lemma checkCollisions_particles (w : World) :
  particles (checkCollisions w) = particles w.
Proof. by_check w. Qed.

Lemma frameDraws_particles (w : World) : particles (frameDraws w) = particles w.
Proof. by_shape frameDraws_shape. Qed.

Lemma scheduleNext_particles (w : World) : particles (scheduleNext w) = particles w.
Proof. reflexivity. Qed.

Lemma gameLoop_particles (w : World) :
  gameRunning w = true ->
  particles (gameLoop rand w) = keptParticles (particles w).
Proof.
  intros Hr. rewrite gameLoop_running by exact Hr.
  rewrite scheduleNext_particles, checkCollisions_particles,
    frameDraws_particles.
  unfold frameUpdates. rewrite updateParticles_particles.
  rewrite updatePipes_particles, updateBird_particles, updateClouds_particles.
  reflexivity.
Qed.

(** *** Spawn timer *)

Lemma updateClouds_spawnTimer (w : World) :
  spawnTimer (updateClouds rand w) = spawnTimer w.
Proof. by_shape updateClouds_shape. Qed.

Lemma updateBird_spawnTimer (w : World) : spawnTimer (updateBird w) = spawnTimer w.
Proof. by_bird_shape w. Qed.

Lemma checkCollisions_spawnTimer (w : World) :
  spawnTimer (checkCollisions w) = spawnTimer w.
Proof. by_check w. Qed.

Lemma frameDraws_spawnTimer (w : World) : spawnTimer (frameDraws w) = spawnTimer w.
Proof. by_shape frameDraws_shape. Qed.

Lemma scheduleNext_spawnTimer (w : World) :
  spawnTimer (scheduleNext w) = spawnTimer w.
Proof. reflexivity. Qed.

Lemma updateParticles_spawnTimer (w : World) :
  spawnTimer (updateParticles w) = spawnTimer w.
Proof. reflexivity. Qed.

Lemma gameLoop_spawnTimer (w : World) :
  gameRunning w = true ->
  spawnTimer (gameLoop rand w) =
  spawnTimer (beforePipesLoop rand (updateBird (updateClouds rand w))).
Proof.
  intros Hr. rewrite gameLoop_running by exact Hr.
  rewrite scheduleNext_spawnTimer, checkCollisions_spawnTimer,
    frameDraws_spawnTimer.
  unfold frameUpdates. rewrite updateParticles_spawnTimer.
  apply updatePipes_spawnTimer.
Qed.

(** *** Pending callbacks in a frame that does not end the game *)

Lemma updateClouds_pending (w : World) :
  pending (updateClouds rand w) = pending w /\
  nextHandle (updateClouds rand w) = nextHandle w.
Proof. rewrite updateClouds_shape. split; reflexivity. Qed.

Lemma updateBird_pending_quiet (w : World) :
  floorHit w = false ->
  pending (updateBird w) = pending w /\
  nextHandle (updateBird w) = nextHandle w /\
  gameRunning (updateBird w) = gameRunning w.
Proof.
  intros Hf. rewrite updateBird_shape, Hf. repeat split; reflexivity.
Qed.

Lemma updatePipes_pending (w : World) :
  pending (updatePipes rand w) = pending w /\
  nextHandle (updatePipes rand w) = nextHandle w.
Proof. rewrite updatePipes_shape. split; reflexivity. Qed.

Lemma frameDraws_pending (w : World) :
  pending (frameDraws w) = pending w /\
  nextHandle (frameDraws w) = nextHandle w /\
  gameRunning (frameDraws w) = gameRunning w.
Proof. rewrite frameDraws_shape. repeat split; reflexivity. Qed.

Lemma updateParticles_pending (w : World) :
  pending (updateParticles w) = pending w /\
  nextHandle (updateParticles w) = nextHandle w.
Proof. split; reflexivity. Qed.

Lemma frame_pending_quiet (w : World) :
  floorHit (updateClouds rand w) = false ->
  pending (frameDraws (frameUpdates rand w)) = pending w /\
  nextHandle (frameDraws (frameUpdates rand w)) = nextHandle w /\
  gameRunning (frameDraws (frameUpdates rand w)) = gameRunning w.
Proof.
  intros Hf.
  destruct (frameDraws_pending (frameUpdates rand w)) as (-> & -> & ->).
  unfold frameUpdates.
  destruct (updateParticles_pending
              (updatePipes rand (updateBird (updateClouds rand w))))
    as (-> & ->).
  rewrite updateParticles_gameRunning, updatePipes_gameRunning.
  destruct (updatePipes_pending (updateBird (updateClouds rand w))) as (-> & ->).
  destruct (updateBird_pending_quiet (updateClouds rand w) Hf) as (-> & -> & ->).
  destruct (updateClouds_pending w) as (-> & ->).
  rewrite updateClouds_gameRunning. repeat split; reflexivity.
Qed.

(** A frame in which neither the bird update nor the collision check ends
    the game requests one callback and remembers its handle. *)
Lemma gameLoop_quiet (w : World) :
  gameRunning w = true ->
  floorHit (updateClouds rand w) = false ->
  checkCollisions (frameDraws (frameUpdates rand w)) =
    frameDraws (frameUpdates rand w) ->
  gameRunning (gameLoop rand w) = true /\
  pending (gameLoop rand w) = pending w ++ [nextHandle w] /\
  animationFrameId (gameLoop rand w) = Some (nextHandle w) /\
  nextHandle (gameLoop rand w) = S (nextHandle w).
Proof.
  intros Hr Hf Hc. rewrite gameLoop_running by exact Hr. rewrite Hc.
  destruct (frame_pending_quiet w Hf) as (Hp & Hn & Hg).
  generalize dependent (frameDraws (frameUpdates rand w)). intros d _ Hp Hn Hg.
  rewrite scheduleNext_shape.
  cbn [gameRunning pending animationFrameId nextHandle set_animationFrameId
         set_nextHandle set_pending].
  rewrite Hp, Hn, Hg. auto.
Qed.

End Fields.

(** ** Starting and restarting *)

Section Start.

Variable rand : nat -> Q.

Lemma generatePipe_randCalls (xOverride : option Q) (w : World) :
  randCalls (generatePipe rand xOverride w) = S (randCalls w).
Proof. reflexivity. Qed.

Lemma initialPipesLoop_pipes (n : nat) :
  forall (i : Z) (w : World),
  pipes (initialPipesLoop rand n i w) =
  pipes w ++ initialPipes rand n i (randCalls w).
Proof.
  induction n as [| n IH]; intros i w; cbn [initialPipesLoop initialPipes].
  - rewrite app_nil_r. reflexivity.
  - cbv zeta. rewrite IH, generatePipe_pipes, generatePipe_randCalls.
    rewrite <- app_assoc. reflexivity.
Qed.

Lemma initialClouds_pipes (n : nat) (w : World) :
  pipes (initialClouds rand n w) = pipes w.
Proof. rewrite initialClouds_shape. reflexivity. Qed.

Lemma generateCloud_randCalls (randomX : bool) (w : World) :
  randCalls (generateCloud rand randomX w) = (4 + randCalls w)%nat.
Proof. rewrite generateCloud_shape. reflexivity. Qed.

Lemma initialClouds_randCalls (n : nat) :
  forall w, randCalls (initialClouds rand n w) = (4 * n + randCalls w)%nat.
Proof.
  induction n as [| n IH]; intros w; cbn [initialClouds]; [reflexivity |].
  rewrite IH, generateCloud_randCalls. lia.
Qed.

Lemma generateCloud_length (randomX : bool) (w : World) :
  length (clouds (generateCloud rand randomX w)) = S (length (clouds w)).
Proof.
  rewrite generateCloud_shape. cbn [clouds set_clouds].
  rewrite length_app. cbn [length]. lia.
Qed.

Lemma initialClouds_length (n : nat) :
  forall w, length (clouds (initialClouds rand n w)) = (n + length (clouds w))%nat.
Proof.
  induction n as [| n IH]; intros w; cbn [initialClouds]; [reflexivity |].
  rewrite IH, generateCloud_length. lia.
Qed.

Lemma set_musicPlaying_pipes (b : bool) (w : World) :
  pipes (set_musicPlaying b w) = pipes w.
Proof. reflexivity. Qed.

Lemma resetWorld_fields (w : World) :
  pipes (resetWorld w) = [] /\ randCalls (resetWorld w) = randCalls w /\
  clouds (resetWorld w) = [].
Proof. rewrite resetWorld_shape. repeat split; reflexivity. Qed.

Lemma beforeFirstFrame_pipes (w : World) :
  pipes (beforeFirstFrame rand w) = initialPipes rand 3 0%Z (20 + randCalls w).
Proof.
  destruct (resetWorld_fields w) as (Hp & Hr & _).
  unfold beforeFirstFrame.
  rewrite set_musicPlaying_pipes, initialPipesLoop_pipes, initialClouds_pipes,
    initialClouds_randCalls, Hp, Hr.
  reflexivity.
Qed.

Lemma beforeFirstFrame_fields (w : World) :
  score (beforeFirstFrame rand w) = 0%Z /\
  scoreDisplay (beforeFirstFrame rand w) = 0%Z /\
  particles (beforeFirstFrame rand w) = [] /\
  spawnTimer (beforeFirstFrame rand w) = 0%Z /\
  gameOver (beforeFirstFrame rand w) = false /\
  modalHidden (beforeFirstFrame rand w) = true /\
  musicPlaying (beforeFirstFrame rand w) = true /\
  pending (beforeFirstFrame rand w) = pending w /\
  nextHandle (beforeFirstFrame rand w) = nextHandle w.
Proof.
  rewrite beforeFirstFrame_shape, resetWorld_shape. repeat split; reflexivity.
Qed.


Lemma survivors_farRight (l : list Pipe.t) :
  Forall farRight l ->
  survivors BIRD_X l = map movePipe l /\ scoredNow BIRD_X l = 0%Z.
Proof.
  induction 1 as [| p l [Hp Hx] _ [IH1 IH2]]; [split; reflexivity |].
  assert (scores BIRD_X (movePipe p) = false) as Hs.
  { unfold scores. apply andb_false_iff. right. apply Qltb_ge.
    unfold movePipe. cbn [Pipe.x Pipe.set_x]. consts. lra. }
  assert (offLeft (movePipe p) = false) as Ho.
  { apply Qltb_ge. unfold movePipe. cbn [Pipe.x Pipe.set_x]. consts. lra. }
  split.
  - unfold survivors in *. cbn [map]. rewrite filter_cons.
    rewrite offLeft_pipeAfter, Ho.
    destruct (decide (false = false)) as [_ | Hne]; [| congruence].
    rewrite IH1. unfold pipeAfter. cbv zeta. rewrite Hs. reflexivity.
  - unfold scoredNow in *. rewrite filter_cons, Hs.
    destruct (decide (false = true)) as [Hne | _]; [discriminate | exact IH2].
Qed.

Lemma hits_far (b : Bird.t) (p : Pipe.t) :
  Bird.x b + Bird.width b <= Pipe.x p -> hits b p = false.
Proof.
  intros Hx. destruct (hits b p) eqn:Hh; [| reflexivity].
  apply hits_abreast in Hh. unfold abreast in Hh. lra.
Qed.

Lemma initialPipes_farRight (k : nat) : Forall farRight (initialPipes rand 3 0%Z k).
Proof.
  cbn [initialPipes]. repeat constructor; vm_compute; discriminate.
Qed.

Lemma seeded_kept (l : list Cloud.t) :
  Forall cloudSeeded l -> keptClouds l = map moveCloud l.
Proof.
  induction 1 as [| c l [(Hy & Hs & Hv) Hx] _ IH]; [reflexivity |].
  unfold keptClouds in *. cbn [map]. rewrite filter_cons, IH.
  assert (cloudGone (moveCloud c) = false) as ->.
  { apply Qltb_ge. unfold moveCloud. cbn [Cloud.x Cloud.size Cloud.set_x]. lra. }
  destruct (decide (false = false)) as [_ | Hne]; [reflexivity | congruence].
Qed.

Lemma initialClouds_seeded (n : nat) :
  unitOracle rand ->
  forall w, Forall cloudSeeded (clouds w) ->
  Forall cloudSeeded (clouds (initialClouds rand n w)).
Proof.
  intros Hr. induction n as [| n IH]; intros w Hw; cbn [initialClouds];
    [exact Hw |].
  apply IH. rewrite generateCloud_shape. cbn [clouds set_clouds].
  apply Forall_app. split; [exact Hw |]. constructor; [| constructor].
  destruct (newCloud_shape true (rand (randCalls w)) (rand (S (randCalls w)))
              (rand (S (S (randCalls w)))) (rand (S (S (S (randCalls w)))))
              (Hr _) (Hr _) (Hr _) (Hr _)) as [Hs Hx].
  split; assumption.
Qed.

Lemma beforeFirstFrame_clouds_seeded (w : World) :
  unitOracle rand ->
  Forall cloudSeeded (clouds (beforeFirstFrame rand w)) /\
  length (clouds (beforeFirstFrame rand w)) = 5%nat.
Proof.
  intros Hr. destruct (resetWorld_fields w) as (_ & _ & Hc).
  rewrite beforeFirstFrame_clouds. split.
  - apply initialClouds_seeded; [exact Hr |]. rewrite Hc. constructor.
  - rewrite initialClouds_length, Hc. reflexivity.
Qed.

End Start.

Section FirstFrame.

Variable rand : nat -> Q.

(** The first frame, run on a world [F] that has the fields of the world
    [startGame] hands over. *)
Lemma first_frame (F : World) (k : nat) :
  bird F =
    Bird.mk BIRD_X (VIRTUAL_HEIGHT / 2 - BIRD_HEIGHT / 2) BIRD_WIDTH BIRD_HEIGHT 0 ->
  gameRunning F = true ->
  pipes F = initialPipes rand 3 0%Z k ->
  spawnTimer F = 0%Z ->
  gameRunning (gameLoop rand F) = true /\
  pending (gameLoop rand F) = pending F ++ [nextHandle F] /\
  animationFrameId (gameLoop rand F) = Some (nextHandle F) /\
  bird (gameLoop rand F) = fallen (bird F) /\
  pipes (gameLoop rand F) = map movePipe (pipes F) /\
  score (gameLoop rand F) = score F /\
  spawnTimer (gameLoop rand F) = 1%Z.
Proof.
  intros Hb Hr Hp Ht.
  assert (bird (updateClouds rand F) = bird F) as Hb1 by apply updateClouds_bird.
  assert (floorHit (updateClouds rand F) = false) as Hfloor.
  { unfold floorHit. rewrite Hb1, Hb. reflexivity. }
  assert (bird (updateBird (updateClouds rand F)) = fallen (bird F)) as Hb2.
  { rewrite updateBird_free.
    - cbn [bird set_bird]. rewrite Hb1. reflexivity.
    - unfold belowFloor. rewrite Hb1, Hb. vm_compute. discriminate.
    - unfold aboveCeiling. rewrite Hb1, Hb. vm_compute. discriminate. }
  assert (pipes (beforePipesLoop rand (updateBird (updateClouds rand F))) = pipes F
          /\ spawnTimer (beforePipesLoop rand (updateBird (updateClouds rand F))) = 1%Z)
    as [Hp0 Ht0].
  { destruct (beforePipesLoop_cases rand (updateBird (updateClouds rand F)))
      as [(_ & E1 & E2 & _) | (H & _)].
    - rewrite E1, E2, updateBird_pipes, updateClouds_pipes,
        updateBird_spawnTimer, updateClouds_spawnTimer, Ht. auto.
    - rewrite updateBird_spawnTimer, updateClouds_spawnTimer, Ht in H.
      unfold PIPE_INTERVAL in H. lia. }
  assert (Bird.x (bird F) = BIRD_X) as Hx by (rewrite Hb; reflexivity).
  destruct (survivors_farRight (pipes F)) as [Hsurv Hzero];
    [rewrite Hp; apply initialPipes_farRight |].
  assert (pipes (gameLoop rand F) = map movePipe (pipes F)) as Hpipes.
  { rewrite gameLoop_pipes by exact Hr. rewrite Hp0, Hx. exact Hsurv. }
  assert (checkCollisions (frameDraws (frameUpdates rand F)) =
          frameDraws (frameUpdates rand F)) as Hclear.
  { apply checkCollisions_clear. intros p Hin.
    rewrite frameDraws_pipes in Hin. rewrite frameDraws_bird.
    unfold frameUpdates in *.
    rewrite updateParticles_pipes, updatePipes_pipes in Hin.
    rewrite updateParticles_bird, updatePipes_bird, Hb2.
    rewrite updateBird_x, Hb1, Hp0, Hx, Hsurv, Hp in Hin.
    apply hits_far. rewrite Hb. cbn [fallen Bird.x Bird.width].
    cbn [initialPipes map In] in Hin.
    destruct Hin as [<- | [<- | [<- | []]]]; vm_compute; discriminate. }
  destruct (gameLoop_quiet rand F Hr Hfloor Hclear) as (Hg & Hpe & Ha & _).
  split; [exact Hg |]. split; [exact Hpe |]. split; [exact Ha |].
  split; [rewrite gameLoop_bird by exact Hr; exact Hb2 |].
  split; [exact Hpipes |].
  split; [rewrite gameLoop_score by exact Hr; rewrite Hp0, Hx, Hzero; lia |].
  rewrite gameLoop_spawnTimer by exact Hr. exact Ht0.
Qed.

End FirstFrame.

(** [startGame], from any world, leaves a running game with score 0 shown
    as 0, the game-over panel hidden, no feathers, the bird at x = 50 and
    y = 289.8 falling at 0.3, and three unpassed pipes at x = 448.2, 736.2
    and 1024.2 (it runs its first frame at once: the pipes it made at 450,
    738 and 1026 have moved once); the spawn timer is at 1.  It requests
    one frame callback and cancels none: the callbacks that were pending
    stay pending.  With random numbers in [0, 1) there are 5 or 6 clouds. *)
Theorem startGame_resets (rand : nat -> Q) (w : World) :
  let w' := startGame rand w in
  (score w' = 0%Z /\ scoreDisplay w' = 0%Z /\
   gameRunning w' = true /\ gameOver w' = false /\ modalHidden w' = true /\
   particles w' = [] /\ spawnTimer w' = 1%Z) /\
  (Bird.x (bird w') = BIRD_X /\ Bird.y (bird w') == 2898 # 10 /\
   Bird.velocity (bird w') == 3 # 10) /\
  (exists p1 p2 p3,
     pipes w' = [p1; p2; p3] /\
     Pipe.x p1 == 4482 # 10 /\ Pipe.x p2 == 7362 # 10 /\
     Pipe.x p3 == 10242 # 10 /\
     Pipe.passed p1 = false /\ Pipe.passed p2 = false /\
     Pipe.passed p3 = false) /\
  (pending w' = pending w ++ [nextHandle w] /\
   animationFrameId w' = Some (nextHandle w)) /\
  (unitOracle rand -> (5 <= length (clouds w') <= 6)%nat).
Proof.
  cbv zeta. rewrite startGame_eq.
  pose proof (beforeFirstFrame_bird rand w) as Hb.
  pose proof (beforeFirstFrame_gameRunning rand w) as Hr.
  pose proof (beforeFirstFrame_pipes rand w) as Hp.
  destruct (beforeFirstFrame_fields rand w)
    as (Hsc & Hsd & Hpa & Hst & Hgo & Hmh & Hmp & Hpe & Hnh).
  pose proof (beforeFirstFrame_clouds_seeded rand w) as Hcl.
  generalize dependent (beforeFirstFrame rand w). intros F.
  intros Hb Hr Hp Hsc Hsd Hpa Hst Hgo Hmh Hmp Hpe Hnh Hcl.
  destruct (first_frame rand F _ Hb Hr Hp Hst)
    as (Hg & Hpend & Hid & Hbird & Hpipes & Hscore & Htimer).
  assert (flagsAgree (gameLoop rand F)) as (Ho & Hm & _).
  { apply gameLoop_flagsAgree. unfold flagsAgree.
    rewrite Hgo, Hmh, Hmp, Hr. repeat split. }
  assert (displaySynced (gameLoop rand F)) as Hd.
  { apply gameLoop_displaySynced. unfold displaySynced. congruence. }
  unfold displaySynced in Hd.
  split; [| split; [| split; [| split]]].
  - rewrite Hd, Hscore, Hsc, Htimer, Ho, Hm, Hg.
    rewrite gameLoop_particles by exact Hr. rewrite Hpa.
    repeat split.
  - rewrite Hbird, Hb. repeat split; vm_compute; reflexivity.
  - rewrite Hpipes, Hp. cbn [initialPipes map]. do 3 eexists.
    split; [reflexivity |]. repeat split; vm_compute; reflexivity.
  - rewrite Hpend, Hid, Hpe, Hnh. split; reflexivity.
  - intros Hrand. destruct (Hcl Hrand) as [Hseed Hlen].
    rewrite gameLoop_clouds by exact Hr. rewrite updateClouds_clouds.
    rewrite (seeded_kept (clouds F) Hseed), length_app, length_map, Hlen.
    destruct (_ && _); cbn [length]; lia.
Qed.

Lemma startGame_resets_witness :
  (5 <= length (clouds (startGame oracleHalf blank)) <= 6)%nat.
Proof.
  exact (proj2 (proj2 (proj2 (proj2 (startGame_resets oracleHalf blank))))
           oracleHalf_range).
Defined.

(** ** The shape of the pipes *)

Section PipeShape.

Variable rand : nat -> Q.
Hypothesis rand_unit : unitOracle rand.

Lemma newPipe_shape (x r : Q) : 0 <= r < 1 -> pipeShape (newPipe x r).
Proof.
  intros Hr. destruct (topPipeHeight_bounds r Hr) as (k & Hk & Hq).
  unfold pipeShape, newPipe. cbn [Pipe.topHeight Pipe.bottomY].
  split; [| reflexivity].
  assert (80 <= inject_Z k <= 320) as Hi.
  { split; [change 80 with (inject_Z 80) | change 320 with (inject_Z 320)];
      rewrite <- Zle_Qle; lia. }
  generalize dependent (topPipeHeight r). intros t Ht.
  generalize dependent (inject_Z k). intros q Ht Hi.
  unfold maxHeight, minHeight. consts. lra.
Qed.

Lemma pipeAfter_shape (bx : Q) (p : Pipe.t) : pipeShape p -> pipeShape (pipeAfter bx p).
Proof.
  unfold pipeShape, pipeAfter, movePipe. cbv zeta.
  destruct (scores bx _); cbn [Pipe.topHeight Pipe.bottomY Pipe.set_x
                                 Pipe.set_passed]; auto.
Qed.

Lemma initialPipes_shape (n : nat) :
  forall i k p, In p (initialPipes rand n i k) -> pipeShape p.
Proof.
  induction n as [| n IH]; intros i k p; cbn [initialPipes In]; [intros [] |].
  intros [<- | Hin]; [apply newPipe_shape, rand_unit | exact (IH _ _ _ Hin)].
Qed.

Lemma updatePipes_pipesShaped (w : World) :
  pipesShaped w -> pipesShaped (updatePipes rand w).
Proof.
  intros Hw p. rewrite updatePipes_pipes, In_survivors.
  intros (_ & q & Hq & ->). apply pipeAfter_shape.
  destruct (beforePipesLoop_cases rand w) as [(_ & _ & E & _) | (_ & _ & E & _)];
    rewrite E in Hq.
  - exact (Hw q Hq).
  - apply in_app_iff in Hq as [Hq | [<- | []]]; [exact (Hw q Hq) |].
    apply newPipe_shape, rand_unit.
Qed.

Lemma gameLoop_pipesShaped (w : World) :
  pipesShaped w -> pipesShaped (gameLoop rand w).
Proof.
  apply (gameLoop_by_stages rand pipesShaped); clear w; intros w Hw.
  - rewrite updateClouds_shape. exact Hw.
  - rewrite updateBird_shape.
    destruct (floorHit w); [rewrite endGame_shape |]; exact Hw.
  - apply updatePipes_pipesShaped, Hw.
  - exact Hw.
  - rewrite frameDraws_shape. exact Hw.
  - rewrite endGame_shape. exact Hw.
  - exact Hw.
Qed.

Lemma reachable_pipesShaped (w : World) : reachable rand w -> pipesShaped w.
Proof.
  apply (reachable_by_stages rand pipesShaped); clear w.
  - intros w p. rewrite beforeFirstFrame_pipes. apply initialPipes_shape.
  - apply gameLoop_pipesShaped.
  - intros w h Hw. exact Hw.
  - intros w Hw. destruct (gameRunning w) eqn:Hr.
    + rewrite flap_running by exact Hr. exact Hw.
    + unfold flap. rewrite Hr. exact Hw.
Qed.

End PipeShape.

(** With random numbers in [0, 1), every pipe of every reachable world has
    its gap 200 high ([bottomY = topHeight + PIPE_GAP]) and starting
    between 80 and 320 from the top, so both its segments are at least 80
    high: moving, scoring and pruning never change a pipe's heights. *)
Theorem pipes_keep_their_gap (rand : nat -> Q) (w : World) (p : Pipe.t) :
  unitOracle rand -> reachable rand w -> In p (pipes w) ->
  Pipe.bottomY p == Pipe.topHeight p + PIPE_GAP /\
  80 <= Pipe.topHeight p <= 320 /\
  80 <= Rect.height (topPipeRect p) /\
  80 <= Rect.height (bottomPipeRect p).
Proof.
  intros Hr Hw Hp.
  destruct (reachable_pipesShaped rand Hr w Hw p Hp) as [Ht Hb].
  unfold maxHeight, minHeight in Ht.
  cbn [topPipeRect bottomPipeRect Rect.height]. consts.
  repeat split; lra.
Qed.

Lemma pipes_keep_their_gap_witness :
  exists p, In p (pipes (loaded oracleHalf)) /\
            Pipe.bottomY p == Pipe.topHeight p + PIPE_GAP.
Proof.
  destruct (pipes (loaded oracleHalf)) as [| p ps] eqn:E.
  - vm_compute in E. discriminate E.
  - exists p. split; [left; reflexivity |].
    apply (pipes_keep_their_gap oracleHalf (loaded oracleHalf) p
             oracleHalf_range (reachable_loaded oracleHalf)).
    rewrite E. left. reflexivity.
Defined.

(** ** The final score *)

Section FinalScore.

Variable rand : nat -> Q.
Hypothesis rand_unit : unitOracle rand.

Lemma Qeq_refl_of (a b : Q) : a = b -> a == b.
Proof. intros ->. reflexivity. Qed.

(** *** Fields through the frame *)

Lemma updateBird_floor_stops (w : World) :
  floorHit w = true ->
  gameRunning (updateBird w) = false /\
  gameOver (updateBird w) = true /\
  finalScoreDisplay (updateBird w) = score w.
Proof.
  intros Hf. rewrite updateBird_shape, Hf, endGame_shape.
  repeat split; reflexivity.
Qed.

Lemma updateBird_quiet_fields (w : World) :
  floorHit w = false ->
  gameOver (updateBird w) = gameOver w /\
  finalScoreDisplay (updateBird w) = finalScoreDisplay w.
Proof. intros Hf. rewrite updateBird_shape, Hf. split; reflexivity. Qed.

Lemma updateClouds_final (w : World) :
  gameOver (updateClouds rand w) = gameOver w /\
  finalScoreDisplay (updateClouds rand w) = finalScoreDisplay w.
Proof. rewrite updateClouds_shape. split; reflexivity. Qed.

Lemma updatePipes_final (w : World) :
  gameOver (updatePipes rand w) = gameOver w /\
  finalScoreDisplay (updatePipes rand w) = finalScoreDisplay w.
Proof. rewrite updatePipes_shape. split; reflexivity. Qed.

Lemma updateParticles_final (w : World) :
  gameOver (updateParticles w) = gameOver w /\
  finalScoreDisplay (updateParticles w) = finalScoreDisplay w.
Proof. split; reflexivity. Qed.

Lemma frameDraws_final (w : World) :
  gameOver (frameDraws w) = gameOver w /\
  finalScoreDisplay (frameDraws w) = finalScoreDisplay w.
Proof. rewrite frameDraws_shape. split; reflexivity. Qed.

Lemma scheduleNext_final (w : World) :
  gameOver (scheduleNext w) = gameOver w /\
  finalScoreDisplay (scheduleNext w) = finalScoreDisplay w.
Proof. split; reflexivity. Qed.

Lemma endGame_final (w : World) : finalScoreDisplay (endGame w) = score w.
Proof. rewrite endGame_shape. reflexivity. Qed.

(** The fields of the world the collision check gets. *)
Lemma frame_final (w : World) :
  let u := updateBird (updateClouds rand w) in
  let d := frameDraws (frameUpdates rand w) in
  gameOver d = gameOver u /\
  finalScoreDisplay d = finalScoreDisplay u /\
  gameRunning d = gameRunning u /\
  bird d = bird u /\
  score d =
    (score w +
     scoredNow (Bird.x (bird w)) (pipes (beforePipesLoop rand u)))%Z.
Proof.
  cbv zeta. unfold frameUpdates.
  destruct (frameDraws_final
              (updateParticles (updatePipes rand (updateBird (updateClouds rand w)))))
    as (-> & ->).
  destruct (frameDraws_pending
              (updateParticles (updatePipes rand (updateBird (updateClouds rand w)))))
    as (_ & _ & ->).
  rewrite frameDraws_bird, frameDraws_score.
  destruct (updateParticles_final
              (updatePipes rand (updateBird (updateClouds rand w))))
    as (-> & ->).
  rewrite updateParticles_gameRunning, updateParticles_bird, updateParticles_score.
  destruct (updatePipes_final (updateBird (updateClouds rand w))) as (-> & ->).
  rewrite updatePipes_gameRunning, updatePipes_bird, updatePipes_score.
  rewrite updateBird_score, updateClouds_score, updateBird_x, updateClouds_bird.
  repeat split; reflexivity.
Qed.


(** *** A frame that ends on the floor scores nothing *)

Lemma scoredNow_zero (bx : Q) (l : list Pipe.t) :
  (forall p, In p l -> scores bx (movePipe p) = false) -> scoredNow bx l = 0%Z.
Proof.
  unfold scoredNow. induction l as [| p l IH]; intros H; [reflexivity |].
  rewrite filter_cons, (H p (or_introl eq_refl)).
  destruct (decide (false = true)) as [Hne | _]; [discriminate |].
  apply IH. intros q Hq. apply H. right. exact Hq.
Qed.

Lemma floorHit_low (w : World) :
  birdTame w -> floorHit w = true -> 520 < Bird.y (bird w).
Proof.
  intros ((_ & _ & Hh) & Hr & He & Hv) Hf.
  pose proof (speed_bounds (bird w) Hr (Qeq_refl_of _ _ Hh) He) as Hs.
  unfold floorHit in Hf. apply Qltb_lt in Hf.
  cbn [fallen Bird.y] in Hf. rewrite Hh in Hf. consts. lra.
Qed.


Lemma floor_frame_scores_nothing (w : World) :
  settled w -> gameRunning w = true ->
  floorHit (updateClouds rand w) = true ->
  scoredNow (Bird.x (bird w))
    (pipes (beforePipesLoop rand (updateBird (updateClouds rand w)))) = 0%Z.
Proof.
  intros (Hst & Htame & _ & _ & _ & Hnear & _) Hr Hf.
  assert (520 < Bird.y (bird w)) as Hlow.
  { apply floorHit_low; [exact Htame |].
    unfold floorHit in *. rewrite updateClouds_bird in Hf. exact Hf. }
  destruct Hst as ((Hx & Hwd & _) & _ & _).
  apply scoredNow_zero. intros p Hp.
  destruct (scores (Bird.x (bird w)) (movePipe p)) eqn:Hs; [exfalso | reflexivity].
  unfold scores in Hs. apply andb_true_iff in Hs as [Hun Hedge].
  apply negb_true_iff in Hun. apply Qltb_lt in Hedge.
  unfold movePipe in Hun, Hedge. cbn [Pipe.passed Pipe.x Pipe.set_x] in Hun, Hedge.
  rewrite Hx in Hedge.
  destruct (beforePipesLoop_cases rand (updateBird (updateClouds rand w)))
    as [(_ & _ & E & _) | (_ & _ & E & _)];
    rewrite E, updateBird_pipes, updateClouds_pipes in Hp.
  - specialize (Hnear Hr p Hp Hun). rewrite Hx, Hwd in Hnear.
    revert Hnear Hedge Hlow. consts. intros Hnear Hedge Hlow.
    assert (Pipe.x p < 50 + 28) as Hlt by lra. specialize (Hnear Hlt). lra.
  - apply in_app_iff in Hp as [Hp | [<- | []]].
    + specialize (Hnear Hr p Hp Hun). rewrite Hx, Hwd in Hnear.
      revert Hnear Hedge Hlow. consts. intros Hnear Hedge Hlow.
      assert (Pipe.x p < 50 + 28) as Hlt by lra. specialize (Hnear Hlt). lra.
    + revert Hedge. unfold newPipe. cbn [Pipe.x]. consts. lra.
Qed.


(** *** The final score is kept by a frame *)

Lemma gameLoop_finalShown (w : World) :
  settled w -> finalShown (gameLoop rand w).
Proof.
  intros Hs. pose proof Hs as (_ & _ & _ & _ & Hfl & _ & Hfin).
  destruct (gameRunning w) eqn:Hr;
    [| rewrite gameLoop_stopped by exact Hr; exact Hfin].
  assert (gameOver w = false) as Hover
    by (destruct Hfl as [-> _]; rewrite Hr; reflexivity).
  rewrite gameLoop_running by exact Hr.
  destruct (frame_final w) as (Hgo & Hfs & Hgr & _ & Hsc). cbv zeta in *.
  unfold finalShown.
  destruct (scheduleNext_final
              (checkCollisions (frameDraws (frameUpdates rand w)))) as (-> & ->).
  rewrite scheduleNext_score.
  destruct (checkCollisions_cases (frameDraws (frameUpdates rand w)))
    as [-> | ->].
  - rewrite Hgo, Hfs, Hsc.
    destruct (floorHit (updateClouds rand w)) eqn:Hf.
    + destruct (updateBird_floor_stops (updateClouds rand w) Hf) as (_ & _ & ->).
      rewrite (floor_frame_scores_nothing w Hs Hr Hf), updateClouds_score.
      intros _. lia.
    + destruct (updateBird_quiet_fields (updateClouds rand w) Hf) as (-> & _).
      destruct (updateClouds_final w) as (-> & _).
      rewrite Hover. discriminate.
  - intros _. rewrite endGame_final, endGame_score. reflexivity.
Qed.

(** *** Unpassed pipes that have reached the bird *)

Lemma gameLoop_running_quiet (w : World) :
  gameRunning w = true -> gameRunning (gameLoop rand w) = true ->
  floorHit (updateClouds rand w) = false.
Proof.
  intros Hr Hr'. rewrite gameLoop_running in Hr' by exact Hr.
  rewrite scheduleNext_gameRunning in Hr'.
  destruct (floorHit (updateClouds rand w)) eqn:Hf; [exfalso | reflexivity].
  destruct (frame_final w) as (_ & _ & Hgr & _). cbv zeta in Hgr.
  destruct (updateBird_floor_stops (updateClouds rand w) Hf) as (Hstop & _).
  destruct (checkCollisions_cases (frameDraws (frameUpdates rand w)))
    as [E | E]; rewrite E in Hr'.
  - rewrite Hgr, Hstop in Hr'. discriminate.
  - rewrite endGame_gameRunning in Hr'. discriminate.
Qed.

Lemma updateBird_quiet_y (w : World) :
  birdTame w -> floorHit w = false ->
  Bird.y (bird (updateBird w)) <= Bird.y (bird w) + (204 # 10).
Proof.
  intros ((_ & _ & Hh) & Hr & He & Hv) Hf.
  pose proof (speed_bounds (bird w) Hr (Qeq_refl_of _ _ Hh) He) as Hs.
  unfold floorHit in Hf. apply Qltb_ge in Hf.
  destruct (Qlt_le_dec (Bird.y (fallen (bird w))) 0) as [Hc | Hc].
  - rewrite updateBird_ceiling;
      [| rewrite Hh; consts; lra | exact Hc].
    cbn [bird set_bird Bird.y]. unfold inRange in Hr. lra.
  - rewrite updateBird_free;
      [| unfold belowFloor; cbn [fallen Bird.height]; lra
       | unfold aboveCeiling; lra].
    cbn [bird set_bird fallen Bird.y] in *. consts. lra.
Qed.


(** A bird that touches no pipe and is abreast of a well-shaped one is no
    lower than 499. *)
Lemma abreast_high (b : Bird.t) (p : Pipe.t) :
  birdShape b -> inRange b -> pipeShape p ->
  hits b p = false -> abreast b p -> Bird.y b <= 499.
Proof.
  intros (_ & _ & Hh) Hr (Ht & Hb) Hhit Ha.
  destruct (Qlt_le_dec 499 (Bird.y b)) as [Hlow | Hok]; [exfalso | exact Hok].
  assert (hits b p = true) as Hyes; [| congruence].
  apply hits_iff; [exact Hr | rewrite Hh; consts; lra |].
  split; [exact Ha |]. unfold inGap. rewrite Hh.
  unfold maxHeight, minHeight in Ht. revert Ht Hb Hlow. consts. intros. lra.
Qed.

Lemma gameLoop_nearPipesHigh (w : World) :
  settled w -> nearPipesHigh (gameLoop rand w).
Proof.
  intros (Hst & Htame & Hclear & Hshape & _ & Hnear & _).
  destruct (gameRunning w) eqn:Hr;
    [| rewrite gameLoop_stopped by exact Hr; exact Hnear].
  pose proof (gameLoop_steady rand w Hst) as (Hbs' & Hrange' & _).
  pose proof (gameLoop_clearOfPipes rand w) as Hclear'.
  pose proof (gameLoop_pipesShaped rand rand_unit w Hshape) as Hshape'.
  intros Hr' p' Hin' Hun' Hx'.
  pose proof Hbs' as (Hbx' & Hbw' & _). rewrite Hbx', Hbw' in Hx'.
  destruct (Qlt_le_dec BIRD_X (Pipe.x p' + PIPE_WIDTH)) as [Ha | Hb].
  - assert (Bird.y (bird (gameLoop rand w)) <= 499); [| lra].
    apply (abreast_high _ p'); try assumption.
    + apply Hshape'. exact Hin'.
    + apply Hclear'; assumption.
    + unfold abreast. rewrite Hbx', Hbw'. split; assumption.
  - pose proof Hin' as Hin. rewrite gameLoop_pipes in Hin by exact Hr.
    apply In_survivors in Hin as (_ & p & Hp & ->).
    rewrite pipeAfter_passed in Hun'. apply orb_false_iff in Hun' as [Hun Hedge].
    apply Qltb_ge in Hedge. unfold rightEdge in Hedge.
    rewrite pipeAfter_x in Hedge, Hb, Hx'.
    destruct Hst as ((Hbx & Hbw & Hbh) & Hrange & _). rewrite Hbx in Hedge.
    assert (In p (pipes w)) as Hpw.
    { destruct (beforePipesLoop_cases rand (updateBird (updateClouds rand w)))
        as [(_ & _ & E & _) | (_ & _ & E & _)];
        rewrite E, updateBird_pipes, updateClouds_pipes in Hp; [exact Hp |].
      apply in_app_iff in Hp as [Hp | [<- | []]]; [exact Hp | exfalso].
      revert Hb. unfold newPipe. cbn [Pipe.x]. consts. lra. }
    assert (Bird.y (bird w) <= 499) as Hy.
    { apply (abreast_high _ p); try assumption.
      - repeat split; assumption.
      - apply Hshape. exact Hpw.
      - apply Hclear; assumption.
      - unfold abreast. rewrite Hbx, Hbw. revert Hb Hedge. consts. intros.
        split; lra. }
    rewrite gameLoop_bird by exact Hr.
    pose proof (gameLoop_running_quiet w Hr Hr') as Hq.
    assert (birdTame (updateClouds rand w)) as Htame1
      by (apply (birdTame_ext w); [apply updateClouds_bird | exact Htame]).
    pose proof (updateBird_quiet_y (updateClouds rand w) Htame1 Hq) as Hstep.
    rewrite updateClouds_bird in Hstep. lra.
Qed.


(** *** Kept between all events *)

Lemma gameLoop_settled (w : World) : settled w -> settled (gameLoop rand w).
Proof.
  intros Hs. pose proof Hs as (Hst & Htame & _ & Hshape & Hfl & _ & _).
  split; [apply gameLoop_steady, Hst |].
  split; [apply gameLoop_birdTame, Htame |].
  split; [apply gameLoop_clearOfPipes |].
  split; [apply gameLoop_pipesShaped; assumption |].
  split; [apply gameLoop_flagsAgree, Hfl |].
  split; [apply gameLoop_nearPipesHigh, Hs | apply gameLoop_finalShown, Hs].
Qed.

Lemma flap_settled (w : World) : settled w -> settled (flap rand w).
Proof.
  intros (Hst & Htame & Hclear & Hshape & Hfl & Hnear & Hfin).
  split; [apply flap_steady, Hst |].
  split; [apply flap_birdTame, Htame |].
  split; [apply flap_clearOfPipes, Hclear |].
  destruct (gameRunning w) eqn:Hr.
  - rewrite flap_running by exact Hr.
    split; [exact Hshape |]. split; [exact Hfl |].
    split; [exact Hnear | exact Hfin].
  - unfold flap. rewrite Hr.
    split; [exact Hshape |]. split; [exact Hfl |].
    split; [exact Hnear | exact Hfin].
Qed.

Lemma initialPipes_far (k : nat) (p : Pipe.t) :
  In p (initialPipes rand 3 0%Z k) -> farRight p.
Proof.
  pose proof (initialPipes_farRight rand k) as H.
  rewrite Forall_forall in H. intros Hp. apply H, list_elem_of_In, Hp.
Qed.

Lemma beforeFirstFrame_settled (w : World) : settled (beforeFirstFrame rand w).
Proof.
  pose proof (beforeFirstFrame_bird rand w) as Hb.
  pose proof (beforeFirstFrame_gameRunning rand w) as Hr.
  pose proof (beforeFirstFrame_pipes rand w) as Hp.
  destruct (beforeFirstFrame_fields rand w)
    as (_ & _ & _ & _ & Hgo & Hmh & Hmp & _ & _).
  generalize dependent (beforeFirstFrame rand w). intros F Hb Hr Hp Hgo Hmh Hmp.
  assert (forall p, In p (pipes F) -> farRight p) as Hfar
    by (intros p; rewrite Hp; apply initialPipes_far).
  assert (birdShape (bird F)) as Hbs by (rewrite Hb; repeat split).
  assert (inRange (bird F)) as Hrange.
  { unfold inRange. rewrite Hb. cbn [Bird.y Bird.height].
    unfold Qdiv. change (/ 2) with (1 # 2). consts. lra. }
  unfold settled, steady, birdTame, clearOfPipes, pipesShaped, flagsAgree,
    nearPipesHigh, finalShown.
  repeat match goal with |- _ /\ _ => split end; try assumption.
  - intros p Hin Hun. destruct (Hfar p Hin) as [_ Hx].
    rewrite Hb. unfold rightEdge. cbn [Bird.x]. consts. lra.
  - unfold energyBounded. rewrite Hb. cbn [Bird.y Bird.velocity].
    unfold Qdiv. change (/ 2) with (1 # 2). consts. lra.
  - rewrite Hb. cbn [Bird.velocity]. consts. lra.
  - intros _ p Hin. destruct (Hfar p Hin) as [_ Hx].
    apply hits_far. rewrite Hb. cbn [Bird.x Bird.width]. consts. lra.
  - intros p. rewrite Hp. apply initialPipes_shape. exact rand_unit.
  - rewrite Hgo, Hr. reflexivity.
  - rewrite Hmh, Hr. reflexivity.
  - rewrite Hmp, Hr. reflexivity.
  - intros _ p Hin _ Hx. destruct (Hfar p Hin) as [_ Hx'].
    rewrite Hb in Hx. cbn [Bird.x Bird.width] in Hx. revert Hx. consts. lra.
  - rewrite Hgo. discriminate.
Qed.

Lemma reachable_settled (w : World) : reachable rand w -> settled w.
Proof.
  apply (reachable_by_stages rand settled); clear w.
  - apply beforeFirstFrame_settled.
  - apply gameLoop_settled.
  - intros w h Hw. exact Hw.
  - apply flap_settled.
Qed.

End FinalScore.

(** With random numbers in [0, 1): in every reachable world in which the
    game is over, the final score shown on the game-over panel is the
    score.  The frame in which the bird lands on the floor goes on to
    update the pipes after the panel has been filled in, but it scores no
    pipe: a pipe about to score has just had the bird in its gap, no lower
    than 520, and the bird falls at most 20.4 a frame. *)
Theorem final_score_shown_is_score (rand : nat -> Q) (w : World) :
  unitOracle rand -> reachable rand w ->
  (gameOver w = true -> finalScoreDisplay w = score w) /\
  (gameRunning w = true -> floorHit (updateClouds rand w) = true ->
   score (gameLoop rand w) = score w).
Proof.
  intros Hr Hw. pose proof (reachable_settled rand Hr w Hw) as Hs.
  split; [apply Hs |].
  intros Hrun Hf. rewrite gameLoop_score by exact Hrun.
  rewrite (floor_frame_scores_nothing rand w Hs Hrun Hf). lia.
Qed.

(** The bird, left alone, lands on the floor in the 44th frame; the game is
    then over and the panel shows the score. *)
Lemma final_score_shown_is_score_witness :
  finalScoreDisplay (run oracleHalf (repeat Refresh 43) (loaded oracleHalf)) =
  score (run oracleHalf (repeat Refresh 43) (loaded oracleHalf)).
Proof.
  assert (gameOver (run oracleHalf (repeat Refresh 43) (loaded oracleHalf)) = true)
    as Hover by (vm_compute; reflexivity).
  exact (proj1 (final_score_shown_is_score oracleHalf
                  (run oracleHalf (repeat Refresh 43) (loaded oracleHalf))
                  oracleHalf_range
                  (run_reachable oracleHalf (repeat Refresh 43)
                     (loaded oracleHalf) (reachable_loaded oracleHalf)))
           Hover).
Defined.

(** ** When a frame ends the game; ending twice *)

Section EndOfFrame.

Variable rand : nat -> Q.

Lemma filter_twice (h : nat) (l : list nat) :
  filter (fun k => k <> h) (filter (fun k => k <> h) l) =
  filter (fun k => k <> h) l.
Proof.
  induction l as [| a l IH]; [reflexivity |].
  rewrite (filter_cons _ a l).
  destruct (decide (a <> h)) as [Hne | He]; [| exact IH].
  rewrite filter_cons. destruct (decide (a <> h)); [| contradiction].
  rewrite IH. reflexivity.
Qed.

End EndOfFrame.

(** Ending the game a second time, as the frame does when the bird lands on
    the floor under a pipe, changes nothing but the count of crash sounds
    played and the record of work: flags, final score shown, pending
    callbacks, bird, pipes, feathers, clouds and score are as after the
    first end. *)
Theorem ending_twice_is_harmless (w : World) :
  endGame (endGame w) =
  set_crashPlays (S (S (crashPlays w)))
    (set_log (log w ++ [EndGame; EndGame]) (endGame w)).
Proof.
  unfold endGame, cancelAnimationFrame, note.
  destruct w as [b ps sc gr go fc af pa cl st sd fsd mh mp cp pe nh rc lg].
  destruct af as [[| h] |]; cbn; rewrite <- ?app_assoc, ?filter_twice;
    reflexivity.
Qed.

(** In every reachable world the bird is at x = 50 and is 28 wide and 21
    high: nothing but its vertical position and velocity ever changes. *)
Theorem bird_only_moves_vertically (rand : nat -> Q) (w : World) :
  reachable rand w ->
  Bird.x (bird w) = BIRD_X /\ Bird.width (bird w) = BIRD_WIDTH /\
  Bird.height (bird w) = BIRD_HEIGHT.
Proof.
  intros Hw. pose proof (reachable_steady rand w Hw) as (Hb & _ & _).
  exact Hb.
Qed.

Lemma bird_only_moves_vertically_witness :
  Bird.width (bird (run oracleHalf [FlapInput; Refresh] (loaded oracleHalf))) =
  BIRD_WIDTH.
Proof.
  exact (proj1 (proj2 (bird_only_moves_vertically oracleHalf
                         (run oracleHalf [FlapInput; Refresh] (loaded oracleHalf))
                         (run_reachable oracleHalf [FlapInput; Refresh]
                            (loaded oracleHalf) (reachable_loaded oracleHalf))))).
Defined.

(** ** Rounding to double precision *)

Section Rounding.

Import F64.

Lemma two_neq_0 : ~ 2 == 0.
Proof. discriminate. Qed.

Lemma pow2_pos (e : Z) : 0 < pow2 e.
Proof. apply Qpower_0_lt. reflexivity. Qed.

Lemma pow2_plus (a b : Z) : pow2 (a + b) == pow2 a * pow2 b.
Proof. apply Qpower_plus, two_neq_0. Qed.

Lemma pow2_le (a b : Z) : (a <= b)%Z -> pow2 a <= pow2 b.
Proof. intros H. apply Qpower_le_compat_l; [exact H | discriminate]. Qed.

Lemma pow2_lt (a b : Z) : (a < b)%Z -> pow2 a < pow2 b.
Proof. intros H. apply Qpower_lt_compat_l; [exact H | reflexivity]. Qed.

Lemma pow2_lt_inv (a b : Z) : pow2 a < pow2 b -> (a < b)%Z.
Proof. intros H. apply (Qpower_lt_compat_l_inv 2); [exact H | reflexivity]. Qed.

Lemma pow2_Z (n : Z) : (0 <= n)%Z -> inject_Z (2 ^ n) == pow2 n.
Proof. intros H. apply (Zpower_Qpower 2 n H). Qed.

Lemma pow2_split (a b : Z) : pow2 a == pow2 (a - b) * pow2 b.
Proof. rewrite <- pow2_plus. replace (a - b + b)%Z with a by lia. reflexivity. Qed.

Lemma inject_Z_minus (a b : Z) : inject_Z (a - b) == inject_Z a - inject_Z b.
Proof.
  unfold Z.sub, Qminus. rewrite inject_Z_plus, inject_Z_opp. reflexivity.
Qed.

Lemma Q_as_quotient (q : Q) :
  q * inject_Z (Z.pos (Qden q)) == inject_Z (Qnum q).
Proof.
  destruct q as [n d]. unfold Qeq, Qmult, inject_Z. simpl.
  rewrite Pos.mul_1_r. ring.
Qed.

Lemma ilog2_spec (q : Q) :
  0 < q -> pow2 (ilog2 q) <= q < pow2 (ilog2 q + 1).
Proof.
  intros Hq.
  assert (0 < Qnum q)%Z as Hn.
  { destruct q as [n d]. unfold Qlt in Hq. simpl in *. lia. }
  pose proof (Z.log2_spec (Qnum q) Hn) as [Ha1 Ha2].
  pose proof (Z.log2_spec (Z.pos (Qden q)) (Pos2Z.is_pos _)) as [Hb1 Hb2].
  pose proof (Z.log2_nonneg (Qnum q)) as Ha0.
  pose proof (Z.log2_nonneg (Z.pos (Qden q))) as Hb0.
  set (a := Z.log2 (Qnum q)) in *. set (b := Z.log2 (Z.pos (Qden q))) in *.
  rewrite Zle_Qle in Ha1, Hb1. rewrite Zlt_Qlt in Ha2, Hb2.
  rewrite pow2_Z in Ha1, Ha2, Hb1, Hb2 by lia.
  pose proof (Q_as_quotient q) as Hq'.
  set (N := inject_Z (Qnum q)) in *. set (D := inject_Z (Z.pos (Qden q))) in *.
  assert (pow2 (a - b - 1) < q) as HA.
  { pose proof (pow2_split a (Z.succ b)) as E.
    replace (a - Z.succ b)%Z with (a - b - 1)%Z in E by lia.
    pose proof (pow2_pos (Z.succ b)). pose proof (pow2_pos (a - b - 1)).
    destruct (Qlt_le_dec (pow2 (a - b - 1)) q) as [|Hle]; [assumption | exfalso].
    nra. }
  assert (q < pow2 (a - b + 1)) as HB.
  { pose proof (pow2_split (Z.succ a) b) as E.
    replace (Z.succ a - b)%Z with (a - b + 1)%Z in E by lia.
    pose proof (pow2_pos b). pose proof (pow2_pos (a - b + 1)).
    destruct (Qlt_le_dec q (pow2 (a - b + 1))) as [|Hle]; [assumption | exfalso].
    nra. }
  unfold ilog2. fold a b.
  destruct (Qle_bool (pow2 (a - b)) q) eqn:E.
  - apply Qle_bool_iff in E. split; assumption.
  - split; [apply Qlt_le_weak; exact HA |].
    replace (a - b - 1 + 1)%Z with (a - b)%Z by lia.
    apply Qnot_le_lt. intros Hle. apply Qle_bool_iff in Hle. congruence.
Qed.

Lemma ilog2_unique (q : Q) (e : Z) :
  pow2 e <= q < pow2 (e + 1) -> ilog2 q = e.
Proof.
  intros [H1 H2].
  assert (0 < q) as Hq by (pose proof (pow2_pos e); lra).
  destruct (ilog2_spec q Hq) as [H3 H4].
  assert (ilog2 q < e + 1)%Z by (apply pow2_lt_inv; lra).
  assert (e < ilog2 q + 1)%Z by (apply pow2_lt_inv; lra).
  lia.
Qed.

Lemma ilog2_mono (a b : Q) : 0 < a -> a <= b -> (ilog2 a <= ilog2 b)%Z.
Proof.
  intros Ha Hab.
  destruct (ilog2_spec a Ha) as [H1 _].
  destruct (ilog2_spec b ltac:(lra)) as [_ H2].
  assert (ilog2 a < ilog2 b + 1)%Z by (apply pow2_lt_inv; lra).
  lia.
Qed.

Lemma ilog2_comp (a b : Q) : 0 < a -> a == b -> ilog2 a = ilog2 b.
Proof.
  intros Ha E. symmetry. apply ilog2_unique.
  destruct (ilog2_spec a Ha). lra.
Qed.

Lemma exponent_comp (a b : Q) : 0 < a -> a == b -> exponent a = exponent b.
Proof. intros Ha E. unfold exponent. rewrite (ilog2_comp a b Ha E). reflexivity. Qed.

Lemma exponent_mono (a b : Q) : 0 < a -> a <= b -> (exponent a <= exponent b)%Z.
Proof. intros Ha E. unfold exponent. pose proof (ilog2_mono a b Ha E). lia. Qed.

Lemma exponent_min (q : Q) : (-1074 <= exponent q)%Z.
Proof. unfold exponent. lia. Qed.

(** *** The nearest integer *)

Lemma floor_bounds (q : Q) :
  inject_Z (Qfloor q) <= q < inject_Z (Qfloor q) + 1.
Proof.
  split; [apply Qfloor_le |].
  pose proof (Qlt_floor q) as H. rewrite inject_Z_plus in H. exact H.
Qed.

Lemma rne_cases (q : Q) :
  (rne q = Qfloor q /\ q - inject_Z (Qfloor q) <= 1 # 2) \/
  (rne q = (Qfloor q + 1)%Z /\ 1 # 2 <= q - inject_Z (Qfloor q)).
Proof.
  unfold rne.
  destruct (Qcompare (q - inject_Z (Qfloor q)) (1 # 2)) eqn:E.
  - apply Qeq_alt in E.
    destruct (Z.even (Qfloor q)); [left | right]; (split; [reflexivity | lra]).
  - apply Qlt_alt in E. left. split; [reflexivity | lra].
  - apply Qgt_alt in E. right. split; [reflexivity | lra].
Qed.

Lemma rne_comp (a b : Q) : a == b -> rne a = rne b.
Proof.
  intros E. unfold rne. rewrite (Qfloor_comp a b E).
  assert (Qcompare (a - inject_Z (Qfloor b)) (1 # 2) =
          Qcompare (b - inject_Z (Qfloor b)) (1 # 2)) as ->.
  { apply Qcompare_comp; [rewrite E |]; reflexivity. }
  reflexivity.
Qed.

Lemma rne_inject_Z (n : Z) : rne (inject_Z n) = n.
Proof.
  destruct (rne_cases (inject_Z n)) as [[E _] | [_ H]].
  - rewrite E. apply Qfloor_Z.
  - rewrite Qfloor_Z in H. lra.
Qed.

Lemma rne_le_int (q : Q) (n : Z) : q <= inject_Z n -> (rne q <= n)%Z.
Proof.
  intros H. destruct (floor_bounds q) as [H1 H2].
  assert (Qfloor q <= n)%Z as Hf by (rewrite Zle_Qle; lra).
  destruct (rne_cases q) as [[E _] | [E H3]]; rewrite E; [exact Hf |].
  destruct (Z.eq_dec (Qfloor q) n) as [En | Hne]; [| lia].
  rewrite En in H3. lra.
Qed.

Lemma rne_ge_int (q : Q) (n : Z) : inject_Z n <= q -> (n <= rne q)%Z.
Proof.
  intros H.
  assert (n <= Qfloor q)%Z as Hf.
  { rewrite <- (Qfloor_Z n). apply Qfloor_resp_le. exact H. }
  destruct (rne_cases q) as [[E _] | [E _]]; rewrite E; lia.
Qed.

Lemma rne_mono (a b : Q) : a <= b -> (rne a <= rne b)%Z.
Proof.
  intros H.
  pose proof (Qfloor_resp_le a b H) as Hf.
  destruct (Z.eq_dec (Qfloor a) (Qfloor b)) as [E | Hne].
  - destruct (floor_bounds a) as [_ Ha2]. destruct (floor_bounds b) as [Hb1 _].
    unfold rne. rewrite E.
    destruct (Qcompare (a - inject_Z (Qfloor b)) (1 # 2)) eqn:Ea;
      destruct (Qcompare (b - inject_Z (Qfloor b)) (1 # 2)) eqn:Eb;
      first [apply Qeq_alt in Ea | apply Qlt_alt in Ea | apply Qgt_alt in Ea];
      first [apply Qeq_alt in Eb | apply Qlt_alt in Eb | apply Qgt_alt in Eb];
      try (exfalso; lra); destruct (Z.even (Qfloor b)); lia.
  - destruct (rne_cases a) as [[Ea _] | [Ea _]];
      destruct (rne_cases b) as [[Eb _] | [Eb _]]; rewrite Ea, Eb; lia.
Qed.

(** *** Rounding *)

Lemma roundPos_eq (q : Q) :
  roundPos q == inject_Z (rne (q / pow2 (exponent q))) * pow2 (exponent q).
Proof. unfold roundPos. apply Qred_correct. Qed.

Lemma scaled_le (a b : Q) (e : Z) : a <= b -> a / pow2 e <= b / pow2 e.
Proof.
  intros H. unfold Qdiv. apply Qmult_le_compat_r; [exact H |].
  apply Qinv_le_0_compat, Qlt_le_weak, pow2_pos.
Qed.

Lemma scaled_back (q : Q) (e : Z) : q / pow2 e * pow2 e == q.
Proof. field. pose proof (pow2_pos e). lra. Qed.

Lemma roundPos_nonneg (q : Q) : 0 <= q -> 0 <= roundPos q.
Proof.
  intros Hq. rewrite roundPos_eq.
  apply Qmult_le_0_compat; [| apply Qlt_le_weak, pow2_pos].
  change 0 with (inject_Z 0). rewrite <- Zle_Qle. apply rne_ge_int.
  apply Qle_shift_div_l; [apply pow2_pos |].
  change (inject_Z 0) with 0. rewrite Qmult_0_l. exact Hq.
Qed.

Lemma roundPos_comp (a b : Q) : 0 < a -> a == b -> roundPos a == roundPos b.
Proof.
  intros Ha E. rewrite !roundPos_eq, (exponent_comp a b Ha E).
  rewrite (rne_comp (a / pow2 (exponent b)) (b / pow2 (exponent b))).
  - reflexivity.
  - rewrite E. reflexivity.
Qed.

Lemma roundPos_mono (a b : Q) : 0 < a -> a <= b -> roundPos a <= roundPos b.
Proof.
  intros Ha Hab. rewrite !roundPos_eq.
  pose proof (exponent_mono a b Ha Hab) as He.
  destruct (Z.eq_dec (exponent a) (exponent b)) as [E | Hne].
  - rewrite E. apply Qmult_le_compat_r; [| apply Qlt_le_weak, pow2_pos].
    rewrite <- Zle_Qle. apply rne_mono, scaled_le, Hab.
  - assert (exponent a < exponent b)%Z as Hlt by lia.
    assert (exponent b = ilog2 b - 52)%Z as Eb.
    { pose proof (exponent_min a). unfold exponent in *. lia. }
    assert (ilog2 a - 52 <= exponent a)%Z as Ea by (unfold exponent; lia).
    destruct (ilog2_spec a Ha) as [_ Ha2].
    destruct (ilog2_spec b ltac:(lra)) as [Hb1 _].
    apply Qle_trans with (pow2 (exponent b + 52)).
    + apply Qle_trans with (pow2 (53 + exponent a)).
      * rewrite pow2_plus.
        apply Qmult_le_compat_r; [| apply Qlt_le_weak, pow2_pos].
        rewrite <- (pow2_Z 53) by lia. rewrite <- Zle_Qle.
        apply rne_le_int. rewrite pow2_Z by lia.
        apply Qle_shift_div_r; [apply pow2_pos |].
        rewrite <- pow2_plus.
        apply Qle_trans with (pow2 (ilog2 a + 1)); [lra | apply pow2_le; lia].
      * apply pow2_le. lia.
    + replace (exponent b + 52)%Z with (52 + exponent b)%Z by lia.
      rewrite pow2_plus.
      apply Qmult_le_compat_r; [| apply Qlt_le_weak, pow2_pos].
      rewrite <- (pow2_Z 52) by lia. rewrite <- Zle_Qle.
      apply rne_ge_int. rewrite pow2_Z by lia.
      apply Qle_shift_div_l; [apply pow2_pos |].
      rewrite <- pow2_plus.
      replace (52 + exponent b)%Z with (ilog2 b) by lia. exact Hb1.
Qed.

Lemma round_pos (q : Q) : 0 < q -> round q = roundPos q.
Proof.
  intros H. unfold round.
  destruct (Qcompare q 0) eqn:E; [apply Qeq_alt in E | apply Qlt_alt in E |];
    try lra; reflexivity.
Qed.

Lemma round_neg (q : Q) : q < 0 -> round q = - roundPos (- q).
Proof.
  intros H. unfold round.
  destruct (Qcompare q 0) eqn:E; [apply Qeq_alt in E | | apply Qgt_alt in E];
    try lra; reflexivity.
Qed.

Lemma round_zero (q : Q) : q == 0 -> round q = 0.
Proof.
  intros H. unfold round.
  destruct (Qcompare q 0) eqn:E; [| apply Qlt_alt in E | apply Qgt_alt in E];
    try lra; reflexivity.
Qed.

Lemma round_nonneg (q : Q) : 0 <= q -> 0 <= round q.
Proof.
  intros H. destruct (Qlt_le_dec 0 q) as [Hp | Hz].
  - rewrite round_pos by exact Hp. apply roundPos_nonneg, H.
  - rewrite round_zero by lra. lra.
Qed.

Lemma round_nonpos (q : Q) : q <= 0 -> round q <= 0.
Proof.
  intros H. destruct (Qlt_le_dec q 0) as [Hn | Hz].
  - rewrite round_neg by exact Hn.
    pose proof (roundPos_nonneg (- q) ltac:(lra)). lra.
  - rewrite round_zero by lra. lra.
Qed.

(** Rounding keeps the order. *)
Lemma round_mono (a b : Q) : a <= b -> round a <= round b.
Proof.
  intros H.
  destruct (Qlt_le_dec 0 a) as [Ha | Ha].
  - rewrite (round_pos a Ha), (round_pos b) by lra. apply roundPos_mono; assumption.
  - destruct (Qlt_le_dec b 0) as [Hb | Hb].
    + rewrite (round_neg b Hb), (round_neg a) by lra.
      pose proof (roundPos_mono (- b) (- a) ltac:(lra) ltac:(lra)). lra.
    + pose proof (round_nonpos a Ha). pose proof (round_nonneg b Hb). lra.
Qed.

Lemma round_comp (a b : Q) : a == b -> round a == round b.
Proof.
  intros E. destruct (Qlt_le_dec 0 a) as [Ha | Ha].
  - rewrite (round_pos a Ha), (round_pos b) by lra. apply roundPos_comp; assumption.
  - destruct (Qlt_le_dec a 0) as [Hn | Hz].
    + rewrite (round_neg a Hn), (round_neg b) by lra.
      rewrite (roundPos_comp (- a) (- b)); [reflexivity | lra | lra].
    + rewrite (round_zero a), (round_zero b) by lra. reflexivity.
Qed.

Lemma round_opp (q : Q) : round (- q) == - round q.
Proof.
  destruct (Qlt_le_dec 0 q) as [Hp | Hp].
  - rewrite (round_pos q Hp), (round_neg (- q)) by lra.
    rewrite (roundPos_comp (- - q) q); [reflexivity | lra | lra].
  - destruct (Qlt_le_dec q 0) as [Hn | Hz].
    + rewrite (round_neg q Hn), (round_pos (- q)) by lra. lra.
    + rewrite (round_zero q), (round_zero (- q)) by lra. reflexivity.
Qed.


End Rounding.

#[global] Instance round_proper : Proper (Qeq ==> Qeq) F64.round.
Proof. intros a b E. apply round_comp, E. Qed.

(** *** Doubles *)

Section Doubles.

Import F64.

Lemma roundPos_fix (q : Q) (N : Z) :
  0 < q -> q == inject_Z N * pow2 (exponent q) -> roundPos q == q.
Proof.
  intros Hq E. rewrite roundPos_eq.
  rewrite (rne_comp (q / pow2 (exponent q)) (inject_Z N)).
  - rewrite rne_inject_Z. symmetry. exact E.
  - apply Qmult_inj_r with (pow2 (exponent q)).
    + pose proof (pow2_pos (exponent q)). lra.
    + rewrite scaled_back. exact E.
Qed.

Lemma exponent_grid (m : Z) (e : Z) :
  (0 < m < 2 ^ 53)%Z -> (-1074 <= e)%Z ->
  (exponent (inject_Z m * pow2 e) <= e)%Z.
Proof.
  intros [Hm1 Hm2] He.
  assert (ilog2 (inject_Z m * pow2 e) < 53 + e)%Z as Hk.
  { apply pow2_lt_inv.
    assert (0 < inject_Z m * pow2 e) as Hq.
    { apply Qmult_lt_0_compat; [| apply pow2_pos].
      change 0 with (inject_Z 0). rewrite <- Zlt_Qlt. exact Hm1. }
    destruct (ilog2_spec _ Hq) as [H1 _].
    apply Qle_lt_trans with (inject_Z m * pow2 e); [exact H1 |].
    rewrite pow2_plus. apply Qmult_lt_compat_r; [apply pow2_pos |].
    rewrite <- (pow2_Z 53) by lia. rewrite <- Zlt_Qlt. exact Hm2. }
  unfold exponent. lia.
Qed.

(** A significand below [2^53] with an exponent in range is a double. *)
Lemma round_grid (m : Z) (e : Z) :
  (0 < m < 2 ^ 53)%Z -> (-1074 <= e)%Z ->
  round (inject_Z m * pow2 e) == inject_Z m * pow2 e.
Proof.
  intros Hm He.
  assert (0 < inject_Z m * pow2 e) as Hq.
  { apply Qmult_lt_0_compat; [| apply pow2_pos].
    change 0 with (inject_Z 0). rewrite <- Zlt_Qlt. lia. }
  rewrite round_pos by exact Hq.
  pose proof (exponent_grid m e Hm He) as Hle.
  set (e' := exponent (inject_Z m * pow2 e)) in *.
  apply (roundPos_fix _ (m * 2 ^ (e - e'))). { exact Hq. }
  fold e'. rewrite inject_Z_mult, pow2_Z by lia.
  rewrite (pow2_split e e') at 1. ring.
Qed.

Lemma round_idem (q : Q) : round (round q) == round q.
Proof.
  assert (forall p, 0 < p -> round (roundPos p) == roundPos p) as Hpos.
  { intros p Hp. rewrite roundPos_eq.
    set (e := exponent p). set (M := rne (p / pow2 e)).
    assert (0 <= M <= 2 ^ 53)%Z as [HM0 HM1].
    { split.
      - apply rne_ge_int. apply Qle_shift_div_l; [apply pow2_pos |].
        change (inject_Z 0) with 0. lra.
      - apply rne_le_int. rewrite pow2_Z by lia.
        apply Qle_shift_div_r; [apply pow2_pos |].
        rewrite <- pow2_plus. destruct (ilog2_spec p Hp) as [_ H2].
        apply Qle_trans with (pow2 (ilog2 p + 1)); [lra |].
        apply pow2_le. unfold e, exponent. lia. }
    pose proof (exponent_min p) as He. fold e in He.
    destruct (Z.eq_dec M 0%Z) as [E0 | Hne0].
    { rewrite E0. rewrite (round_zero (inject_Z 0 * pow2 e)); ring. }
    destruct (Z.eq_dec M (2 ^ 53)%Z) as [E53 | Hne53].
    { rewrite E53.
      assert (inject_Z (2 ^ 53) * pow2 e == inject_Z (2 ^ 52) * pow2 (1 + e)) as ->.
      { rewrite pow2_plus. change (pow2 1) with 2.
        change (inject_Z (2 ^ 53)) with (inject_Z (2 ^ 52) * 2). ring. }
      apply round_grid; lia. }
    apply round_grid; lia. }
  destruct (Qlt_le_dec 0 q) as [Hp | Hp].
  - rewrite (round_pos q Hp). apply Hpos, Hp.
  - destruct (Qlt_le_dec q 0) as [Hn | Hz].
    + rewrite (round_neg q Hn), round_opp, Hpos by lra. reflexivity.
    + rewrite (round_zero q) by lra. reflexivity.
Qed.

Lemma round_isDouble (q : Q) : isDouble (round q).
Proof. apply round_idem. Qed.

(** Integers of magnitude at most [2^53] are doubles. *)
Lemma int_isDouble (n : Z) : (Z.abs n <= 2 ^ 53)%Z -> isDouble (inject_Z n).
Proof.
  assert (forall m, (0 < m <= 2 ^ 53)%Z -> round (inject_Z m) == inject_Z m) as Hpos.
  { intros m Hm. destruct (Z.eq_dec m (2 ^ 53)%Z) as [-> | Hne].
    - vm_compute. reflexivity.
    - rewrite <- (Qmult_1_r (inject_Z m)). change 1 with (pow2 0).
      apply round_grid; lia. }
  intros Hn. unfold isDouble.
  destruct (Z.lt_trichotomy n 0%Z) as [Hneg | [-> | Hp]].
  - assert (inject_Z n == - inject_Z (- n)) as E by (rewrite inject_Z_opp; ring).
    rewrite E, round_opp, Hpos by lia. reflexivity.
  - reflexivity.
  - apply Hpos. lia.
Qed.

(** A double that is at least [2^k] is a multiple of [2^(k-52)]. *)
Lemma double_on_grid (y : Q) (k : Z) :
  isDouble y -> pow2 k <= y ->
  exists N : Z, y == inject_Z N * pow2 (k - 52).
Proof.
  intros Hd Hk.
  assert (0 < y) as Hy by (pose proof (pow2_pos k); lra).
  unfold isDouble in Hd. rewrite round_pos, roundPos_eq in Hd by exact Hy.
  assert (k <= ilog2 y)%Z as Hlog.
  { destruct (ilog2_spec y Hy) as [_ H2].
    assert (k < ilog2 y + 1)%Z by (apply pow2_lt_inv; lra). lia. }
  assert (k - 52 <= exponent y)%Z as He by (unfold exponent; lia).
  set (e := exponent y) in *.
  exists (rne (y / pow2 e) * 2 ^ (e - (k - 52)))%Z.
  rewrite inject_Z_mult, pow2_Z by lia.
  rewrite <- Qmult_assoc, <- pow2_split. symmetry. exact Hd.
Qed.

(** The largest double below 1. *)
Lemma double_below_1 (r : Q) : isDouble r -> r < 1 -> r <= 1 - pow2 (-53).
Proof.
  intros Hd H1.
  assert (pow2 (-53) <= 1 # 2) as Hsmall by (vm_compute; discriminate).
  destruct (Qlt_le_dec r (1 # 2)) as [Hlow | Hhigh]; [lra |].
  destruct (double_on_grid r (-1) Hd Hhigh) as [N E].
  change (-1 - 52)%Z with (-53)%Z in E.
  assert (N < 2 ^ 53)%Z as HN.
  { rewrite Zlt_Qlt.
    apply Qmult_lt_r with (pow2 (-53)); [apply pow2_pos |].
    rewrite <- E. change (inject_Z (2 ^ 53) * pow2 (-53)) with ((2 ^ 53) * pow2 (-53)).
    assert (inject_Z (2 ^ 53) * pow2 (-53) == 1) as -> by (vm_compute; reflexivity).
    exact H1. }
  assert (inject_Z N <= inject_Z (2 ^ 53 - 1)) as HN' by (rewrite <- Zle_Qle; lia).
  rewrite E.
  assert (1 - pow2 (-53) == inject_Z (2 ^ 53 - 1) * pow2 (-53)) as ->
    by (vm_compute; reflexivity).
  apply Qmult_le_compat_r; [exact HN' | apply Qlt_le_weak, pow2_pos].
Qed.

End Doubles.

(** *** Comparing a rounded sum with a double *)

Section Comparing.

Import F64.

Lemma round_le_double (s x : Q) : isDouble x -> s <= x -> round s <= x.
Proof. intros Hx H. pose proof (round_mono _ _ H). unfold isDouble in Hx. lra. Qed.

Lemma round_ge_double (s x : Q) : isDouble x -> x <= s -> x <= round s.
Proof. intros Hx H. pose proof (round_mono _ _ H). unfold isDouble in Hx. lra. Qed.

Lemma round_lt_exact (s x : Q) : isDouble x -> x < round s -> x < s.
Proof.
  intros Hx H. apply Qnot_le_lt. intros Hle.
  pose proof (round_le_double s x Hx Hle). lra.
Qed.

Lemma round_gt_exact (s x : Q) : isDouble x -> round s < x -> s < x.
Proof.
  intros Hx H. apply Qnot_le_lt. intros Hle.
  pose proof (round_ge_double s x Hx Hle). lra.
Qed.

(** Adding at least 1 to a number of magnitude at most [2^52] gives a
    larger double. *)
Lemma round_steps_up (x d : Q) :
  - pow2 52 <= x <= pow2 52 -> 1 <= d -> x < round (x + d).
Proof.
  intros [Hlo Hhi] Hd.
  destruct (floor_bounds x) as [Hf1 Hf2].
  assert (isDouble (inject_Z (Qfloor x + 1))) as Hn.
  { apply int_isDouble.
    rewrite <- (pow2_Z 52) in Hlo, Hhi by lia.
    assert (- 2 ^ 52 < Qfloor x + 1)%Z.
    { rewrite Zlt_Qlt, inject_Z_plus.
      change (inject_Z (- 2 ^ 52)) with (- inject_Z (2 ^ 52)).
      change (inject_Z 1) with 1. lra. }
    assert (Qfloor x <= 2 ^ 52)%Z by (rewrite Zle_Qle; lra).
    lia. }
  apply Qlt_le_trans with (inject_Z (Qfloor x + 1)).
  - rewrite inject_Z_plus. exact Hf2.
  - apply round_ge_double; [exact Hn |].
    rewrite inject_Z_plus. change (inject_Z 1) with 1. lra.
Qed.

End Comparing.


(** ** The collision test in double precision *)

Section CollisionTest.

Lemma Js_isColliding_iff (r1 r2 : Rect.t) :
  Js.isColliding r1 r2 = true <->
  overlapXComputed r1 r2 /\ overlapYComputed r1 r2.
Proof.
  unfold Js.isColliding, overlapXComputed, overlapYComputed.
  rewrite !andb_true_iff, !Qltb_lt. tauto.
Qed.

Lemma Js_isColliding_false (r1 r2 : Rect.t) :
  Js.isColliding r1 r2 = false <->
  ~ (overlapXComputed r1 r2 /\ overlapYComputed r1 r2).
Proof.
  rewrite <- Js_isColliding_iff.
  destruct (Js.isColliding r1 r2); split; congruence.
Qed.

(** An overlap the script finds is an overlap of the rectangles. *)
Lemma computed_overlap_is_overlap (r1 r2 : Rect.t) :
  doubleCorner r1 -> doubleCorner r2 ->
  overlapXComputed r1 r2 /\ overlapYComputed r1 r2 ->
  overlapX r1 r2 /\ overlapY r1 r2.
Proof.
  intros [Hx1 Hy1] [Hx2 Hy2] [[H1 H2] [H3 H4]].
  unfold overlapX, overlapY, F64.add in *.
  repeat split; apply round_lt_exact; assumption.
Qed.

End CollisionTest.

(** C2 (amended).  [isColliding] answers true exactly when the projections
    on both axes overlap strictly, the far edge of each rectangle being
    the sum as the script computes it.  For rectangles placed at doubles,
    an answer of true means that the rectangles themselves overlap
    strictly; so the answer is false for rectangles that touch at an edge
    and for rectangles that are disjoint.  It is true for a bird rectangle
    (28 wide and 21 high, placed at coordinates of magnitude at most 2^52)
    that lies inside a pipe rectangle. *)
Theorem isColliding_overlap_as_computed (r1 r2 : Rect.t) :
  (Js.isColliding r1 r2 = true <->
     (Rect.x r1 < Rect.x r2 ⊕ Rect.width r2 /\
      Rect.x r1 ⊕ Rect.width r1 > Rect.x r2) /\
     (Rect.y r1 < Rect.y r2 ⊕ Rect.height r2 /\
      Rect.y r1 ⊕ Rect.height r1 > Rect.y r2)) /\
  (doubleCorner r1 -> doubleCorner r2 ->
     (Js.isColliding r1 r2 = true -> overlapX r1 r2 /\ overlapY r1 r2) /\
     (touching r1 r2 -> Js.isColliding r1 r2 = false) /\
     (disjoint r1 r2 -> Js.isColliding r1 r2 = false)) /\
  (forall (b : Bird.t) (p : Pipe.t),
     r1 = birdRect b ->
     Bird.width b == BIRD_WIDTH -> Bird.height b == BIRD_HEIGHT ->
     - F64.pow2 52 <= Bird.x b <= F64.pow2 52 ->
     - F64.pow2 52 <= Bird.y b <= F64.pow2 52 ->
     (r2 = topPipeRect p \/ r2 = Js.bottomPipeRect p) ->
     inside r1 r2 -> Js.isColliding r1 r2 = true).
Proof.
  split; [apply Js_isColliding_iff |]. split.
  - intros Hd1 Hd2.
    assert (Js.isColliding r1 r2 = true -> overlapX r1 r2 /\ overlapY r1 r2) as Hsound.
    { intros H. apply computed_overlap_is_overlap; try assumption.
      apply Js_isColliding_iff, H. }
    split; [exact Hsound |]. split.
    + intros Ht. destruct (Js.isColliding r1 r2) eqn:E; [exfalso | reflexivity].
      destruct (Hsound eq_refl) as [[? ?] [? ?]].
      unfold touching in Ht. destruct Ht as [Ht | [Ht | [Ht | Ht]]]; lra.
    + intros Hj. destruct (Js.isColliding r1 r2) eqn:E; [exfalso | reflexivity].
      destruct (Hsound eq_refl) as [[? ?] [? ?]].
      unfold disjoint in Hj. destruct Hj as [Hj | [Hj | [Hj | Hj]]]; lra.
  - intros b p -> Hw Hh Hx Hy _ (Hi1 & Hi2 & Hi3 & Hi4).
    cbn [birdRect Rect.x Rect.y Rect.width Rect.height] in *.
    assert (Bird.x b < Bird.x b ⊕ Bird.width b) as Hex.
    { apply round_steps_up; [exact Hx | rewrite Hw; consts; lra]. }
    assert (Bird.y b < Bird.y b ⊕ Bird.height b) as Hey.
    { apply round_steps_up; [exact Hy | rewrite Hh; consts; lra]. }
    assert (Bird.x b ⊕ Bird.width b <= Rect.x r2 ⊕ Rect.width r2) as Hmx
      by (apply round_mono, Hi2).
    assert (Bird.y b ⊕ Bird.height b <= Rect.y r2 ⊕ Rect.height r2) as Hmy
      by (apply round_mono, Hi4).
    apply Js_isColliding_iff.
    unfold overlapXComputed, overlapYComputed.
    cbn [birdRect Rect.x Rect.y Rect.width Rect.height].
    repeat split; lra.
Qed.

(** The bird's rectangle at height 100 inside the top segment of a pipe
    at x = 40 whose gap starts at 200. *)
Lemma isColliding_overlap_as_computed_witness :
  Js.isColliding (birdRect (Bird.mk 50 100 28 21 0))
    (topPipeRect (Pipe.mk 40 200 400 false)) = true.
Proof.
  apply (proj2 (proj2 (isColliding_overlap_as_computed _ _))
           (Bird.mk 50 100 28 21 0) (Pipe.mk 40 200 400 false)).
  - reflexivity.
  - reflexivity.
  - reflexivity.
  - cbn. split; vm_compute; discriminate.
  - cbn. split; vm_compute; discriminate.
  - left. reflexivity.
  - unfold inside. cbn. consts. lra.
Defined.

(** C2 as stated fails in the script's arithmetic.  Two unit squares, one
    placed at x = 1 and one at x = 2^-60, overlap strictly: the right edge
    of the second is at 1 + 2^-60.  The script computes that edge as 1 and
    reports no collision. *)
Lemma thin_overlap_not_reported :
  let r1 := Rect.mk 1 0 1 1 in
  let r2 := Rect.mk (F64.pow2 (-60)) 0 1 1 in
  doubleCorner r1 /\ doubleCorner r2 /\
  F64.isDouble (Rect.width r2) /\
  (Rect.x r1 < Rect.x r2 + Rect.width r2 /\
   Rect.x r1 + Rect.width r1 > Rect.x r2) /\
  (Rect.y r1 < Rect.y r2 + Rect.height r2 /\
   Rect.y r1 + Rect.height r1 > Rect.y r2) /\
  Rect.x r2 ⊕ Rect.width r2 == 1 /\
  Js.isColliding r1 r2 = false.
Proof.
  cbv zeta. unfold doubleCorner, F64.isDouble.
  repeat split; vm_compute; congruence.
Qed.

(** ** Spawning a pipe, in double precision *)

Section SpawnDoubles.

Lemma Js_span : Js.maxHeight ⊖ Js.minHeight ⊕ 1 == 241.
Proof. vm_compute. reflexivity. Qed.

Lemma int_round (n : Z) :
  (Z.abs n <= 2 ^ 53)%Z -> F64.round (inject_Z n) == inject_Z n.
Proof. apply int_isDouble. Qed.

Lemma scaled_random_eq (r : Q) :
  r ⊗ (Js.maxHeight ⊖ Js.minHeight ⊕ 1) == F64.round (r * 241).
Proof.
  unfold F64.mul at 1. apply round_comp.
  apply Qmult_comp; [reflexivity | apply Js_span].
Qed.

(** The product the floor is taken of. *)
Lemma scaled_random_bounds (r : Q) :
  F64.isDouble r -> 0 <= r < 1 ->
  0 <= r ⊗ (Js.maxHeight ⊖ Js.minHeight ⊕ 1) < 241.
Proof.
  intros Hd [H0 H1]. rewrite scaled_random_eq.
  split; [apply round_nonneg; lra |].
  pose proof (double_below_1 r Hd H1) as Hr.
  apply Qle_lt_trans with (F64.round (241 * (1 - F64.pow2 (-53)))).
  - apply round_mono. lra.
  - vm_compute. reflexivity.
Qed.

Lemma Js_topPipeHeight_int (r : Q) :
  F64.isDouble r -> 0 <= r < 1 ->
  (0 <= Qfloor (r ⊗ (Js.maxHeight ⊖ Js.minHeight ⊕ 1)) <= 240)%Z /\
  Js.topPipeHeight r ==
  inject_Z (Qfloor (r ⊗ (Js.maxHeight ⊖ Js.minHeight ⊕ 1)) + 80).
Proof.
  intros Hd Hr. destruct (scaled_random_bounds r Hd Hr) as [Hlo Hhi].
  set (p := r ⊗ (Js.maxHeight ⊖ Js.minHeight ⊕ 1)) in *.
  assert (0 <= Qfloor p <= 240)%Z as Hf.
  { split.
    - change 0%Z with (Qfloor 0). apply Qfloor_resp_le, Hlo.
    - assert (Qfloor p < 241)%Z; [| lia].
      rewrite Zlt_Qlt. change (inject_Z 241) with 241.
      pose proof (Qfloor_le p). lra. }
  split; [exact Hf |].
  unfold Js.topPipeHeight. fold p. unfold F64.add, Js.minHeight.
  change 80 with (inject_Z 80). rewrite <- inject_Z_plus.
  apply int_round. lia.
Qed.

(** From the lower end of the interval of [k] on, the height is at least
    [k]. *)
Lemma Js_topPipeHeight_lower (r : Q) (k : Z) :
  F64.isDouble r -> 0 <= r < 1 -> (80 <= k <= 320)%Z ->
  inject_Z (k - 80) / 241 <= r -> inject_Z k <= Js.topPipeHeight r.
Proof.
  intros Hd Hr Hk Hlow.
  destruct (Js_topPipeHeight_int r Hd Hr) as [_ ->].
  rewrite <- Zle_Qle.
  assert (k - 80 <= Qfloor (r ⊗ (Js.maxHeight ⊖ Js.minHeight ⊕ 1)))%Z; [| lia].
  rewrite <- (Qfloor_Z (k - 80)). apply Qfloor_resp_le.
  rewrite scaled_random_eq.
  apply round_ge_double; [apply int_isDouble; lia |].
  unfold Qdiv in Hlow. change (/ 241) with (1 # 241) in Hlow.
  generalize dependent (inject_Z (k - 80)). intros a Ha. lra.
Qed.

(** Up to [2^-52] before the upper end, it is at most [k]. *)
Lemma Js_topPipeHeight_upper (r : Q) (k : Z) :
  F64.isDouble r -> 0 <= r < 1 -> (80 <= k <= 320)%Z ->
  r <= inject_Z (k - 79) / 241 - F64.pow2 (-52) ->
  Js.topPipeHeight r <= inject_Z k.
Proof.
  intros Hd Hr Hk Hup.
  destruct (Js_topPipeHeight_int r Hd Hr) as [_ ->].
  rewrite <- Zle_Qle.
  assert (Qfloor (r ⊗ (Js.maxHeight ⊖ Js.minHeight ⊕ 1)) < k - 79)%Z; [| lia].
  rewrite Zlt_Qlt.
  apply Qle_lt_trans with (r ⊗ (Js.maxHeight ⊖ Js.minHeight ⊕ 1));
    [apply Qfloor_le |].
  rewrite scaled_random_eq.
  set (d := inject_Z ((k - 79) * 2 ^ 45 - 1) * F64.pow2 (-45)).
  assert (d == inject_Z (k - 79) - F64.pow2 (-45)) as Ed.
  { unfold d. rewrite inject_Z_minus, inject_Z_mult.
    change (inject_Z 1) with 1.
    assert (inject_Z (2 ^ 45) * F64.pow2 (-45) == 1) as E
      by (vm_compute; reflexivity).
    transitivity
      (inject_Z (k - 79) * (inject_Z (2 ^ 45) * F64.pow2 (-45)) - F64.pow2 (-45));
      [ring | rewrite E; ring]. }
  assert (F64.isDouble d) as Hdd by (apply round_grid; lia).
  apply Qle_lt_trans with d.
  - apply round_le_double; [exact Hdd |]. rewrite Ed.
    assert (F64.pow2 (-45) <= 241 * F64.pow2 (-52)) as Hs
      by (vm_compute; discriminate).
    unfold Qdiv in Hup. change (/ 241) with (1 # 241) in Hup.
    generalize dependent (F64.pow2 (-52)). generalize (F64.pow2 (-45)).
    generalize dependent (inject_Z (k - 79)). intros. lra.
  - rewrite Ed. pose proof (pow2_pos (-45)). lra.
Qed.

End SpawnDoubles.

Lemma Js_generatePipe_pipes (rand : nat -> Q) (xOverride : option Q) (w : World) :
  pipes (Js.generatePipe rand xOverride w) =
  pipes w ++
    [Js.newPipe match xOverride with Some x => x | None => VIRTUAL_WIDTH end
       (rand (randCalls w))].
Proof. reflexivity. Qed.

Lemma oracleHalf_unitDouble : unitDouble oracleHalf.
Proof. intros n. unfold oracleHalf. split; [vm_compute; reflexivity | lra]. Qed.

(** C5.  The top-gap height is [Math.floor(r * 241) + 80] for the random
    number [r] the spawn draws, the product rounded as the script rounds
    it.  For a double [r] in [0, 1) it is an integer between 80 and 320,
    which are [minHeight] and [VIRTUAL_HEIGHT - PIPE_GAP - minHeight].
    Each integer k of that range is the value for every r from
    [(k - 80) / 241] up to [2^-52] before [(k - 79) / 241], and for no r
    outside [(k - 80) / 241 - 2^-52, (k - 79) / 241): the 241 values have
    intervals of one length up to the last place of r.  The top segment,
    and the bottom segment below the gap, are at least [minHeight] high;
    and the pipe [generatePipe] appends is built from that height,
    unpassed. *)
Theorem spawned_gap_uniform_in_bounds (rand : nat -> Q) :
  unitDouble rand ->
  Js.minHeight == 80 /\ Js.maxHeight == 320 /\
  (forall (r : Q) (k : Z),
     F64.isDouble r -> 0 <= r < 1 -> (80 <= k <= 320)%Z ->
     (inject_Z (k - 80) / 241 <= r <=
        inject_Z (k - 79) / 241 - F64.pow2 (-52) ->
      Js.topPipeHeight r == inject_Z k) /\
     (Js.topPipeHeight r == inject_Z k ->
      inject_Z (k - 80) / 241 - F64.pow2 (-52) < r <
        inject_Z (k - 79) / 241)) /\
  (forall (xOverride : option Q) (w : World),
     exists p : Pipe.t,
       pipes (Js.generatePipe rand xOverride w) = pipes w ++ [p] /\
       Pipe.x p = match xOverride with Some x => x | None => VIRTUAL_WIDTH end /\
       Pipe.topHeight p = Js.topPipeHeight (rand (randCalls w)) /\
       Pipe.bottomY p = Pipe.topHeight p ⊕ PIPE_GAP /\
       Pipe.passed p = false /\
       (exists k : Z, (80 <= k <= 320)%Z /\ Pipe.topHeight p == inject_Z k) /\
       Pipe.bottomY p == Pipe.topHeight p + PIPE_GAP /\
       Js.minHeight <= Pipe.topHeight p <= Js.maxHeight /\
       Pipe.topHeight p + PIPE_GAP + Js.minHeight <= VIRTUAL_HEIGHT /\
       Js.minHeight <= Rect.height (topPipeRect p) /\
       Js.minHeight <= Rect.height (Js.bottomPipeRect p)).
Proof.
  intros Hrand.
  split; [reflexivity |]. split; [vm_compute; reflexivity |]. split.
  - intros r k Hd Hr Hk. split.
    + intros [Hlo Hhi]. apply Qle_antisym.
      * apply Js_topPipeHeight_upper; assumption.
      * apply Js_topPipeHeight_lower; assumption.
    + intros E. split.
      * apply Qnot_le_lt. intros Hle.
        destruct (Z.eq_dec k 80%Z) as [-> | Hne].
        { unfold Qdiv in Hle. change (inject_Z (80 - 80)) with 0 in Hle.
          change (/ 241) with (1 # 241) in Hle.
          pose proof (pow2_pos (-52)). lra. }
        pose proof (Js_topPipeHeight_upper r (k - 1) Hd Hr ltac:(lia)) as Hu.
        replace (k - 1 - 79)%Z with (k - 80)%Z in Hu by lia.
        specialize (Hu Hle). rewrite E in Hu.
        rewrite <- Zle_Qle in Hu. lia.
      * apply Qnot_le_lt. intros Hle.
        destruct (Z.eq_dec k 320%Z) as [-> | Hne].
        { unfold Qdiv in Hle. change (inject_Z (320 - 79)) with 241 in Hle.
          change (/ 241) with (1 # 241) in Hle. lra. }
        pose proof (Js_topPipeHeight_lower r (k + 1) Hd Hr ltac:(lia)) as Hl.
        replace (k + 1 - 80)%Z with (k - 79)%Z in Hl by lia.
        specialize (Hl Hle). rewrite E in Hl.
        rewrite <- Zle_Qle in Hl. lia.
  - intros xOverride w.
    eexists. split; [apply Js_generatePipe_pipes |].
    unfold Js.newPipe.
    cbn [Pipe.x Pipe.topHeight Pipe.bottomY Pipe.passed
           topPipeRect Js.bottomPipeRect Rect.height].
    destruct (Hrand (randCalls w)) as [Hd Hr].
    destruct (Js_topPipeHeight_int _ Hd Hr) as [Hf Hq].
    set (k := (Qfloor (rand (randCalls w) ⊗ (Js.maxHeight ⊖ Js.minHeight ⊕ 1)) + 80)%Z) in *.
    repeat (split; [reflexivity |]).
    split; [exists k; split; [lia | exact Hq] |].
    assert (80 <= inject_Z k <= 320) as Hrange.
    { split; [change 80 with (inject_Z 80) | change 320 with (inject_Z 320)];
        rewrite <- Zle_Qle; lia. }
    assert (Js.topPipeHeight (rand (randCalls w)) ⊕ PIPE_GAP ==
            Js.topPipeHeight (rand (randCalls w)) + PIPE_GAP) as Hb.
    { unfold F64.add. rewrite Hq. unfold PIPE_GAP.
      change 200 with (inject_Z 200). rewrite <- inject_Z_plus.
      apply int_round. lia. }
    assert (VIRTUAL_HEIGHT ⊖ (Js.topPipeHeight (rand (randCalls w)) ⊕ PIPE_GAP) ==
            VIRTUAL_HEIGHT - (Js.topPipeHeight (rand (randCalls w)) + PIPE_GAP)) as Hh.
    { unfold F64.sub. rewrite Hb, Hq. unfold PIPE_GAP, VIRTUAL_HEIGHT.
      change 200 with (inject_Z 200). change 600 with (inject_Z 600).
      rewrite <- inject_Z_plus, <- inject_Z_minus.
      apply int_round. lia. }
    split; [exact Hb |].
    rewrite Hh.
    generalize dependent (Js.topPipeHeight (rand (randCalls w))). intros t Hq _ _.
    assert (Js.maxHeight == 320) as -> by (vm_compute; reflexivity).
    unfold Js.minHeight. consts. rewrite Hq. repeat split; lra.
Qed.

(** With the oracle at 1/2 the height is [floor(120.5) + 80 = 200]. *)
Lemma spawned_gap_uniform_in_bounds_witness :
  Js.topPipeHeight (1 # 2) == inject_Z 200.
Proof.
  apply (proj1 (proj1 (proj2 (proj2 (spawned_gap_uniform_in_bounds oracleHalf
                               oracleHalf_unitDouble))) (1 # 2) 200%Z
                 ltac:(vm_compute; reflexivity) ltac:(lra) ltac:(lia))).
  vm_compute. split; discriminate.
Defined.

(** The exact thresholds are not the script's: at r = 0.012448132780082987,
    a double just below 3/241, the product rounds up to 3 and the height
    is 83, not 82. *)
Lemma threshold_moves_by_rounding :
  let r := 7175859987179545 # 576460752303423488 in
  F64.isDouble r /\ r < 3 # 241 /\ Js.topPipeHeight r == 83.
Proof.
  cbv zeta. unfold F64.isDouble. repeat split; vm_compute; reflexivity.
Qed.

(** ** The frame in double precision: what each routine leaves alone *)

Section JsFrames.

Variable rand : nat -> Q.

Ltac js_split_ifs :=
  repeat match goal with
         | |- context [if ?c then _ else _] => destruct c eqn:?
         | |- context [match ?c with Some _ => _ | None => _ end] => destruct c eqn:?
         | |- context [match ?c with O => _ | S _ => _ end] => destruct c eqn:?
         end.

Create HintDb jsengine.

#[local] Hint Unfold random note requestAnimationFrame cancelAnimationFrame
  Js.generateCloud Js.updateClouds Js.updateParticles Js.generatePipe endGame
  Js.updateBird Js.pipeBody : jsengine.

Ltac jsframe := autounfold with jsengine; wsimpl; js_split_ifs; reflexivity.

(** *** Clouds *)

Lemma Js_updateClouds_bird (w : World) : bird (Js.updateClouds rand w) = bird w.
Proof. jsframe. Qed.

Lemma Js_updateClouds_pipes (w : World) : pipes (Js.updateClouds rand w) = pipes w.
Proof. jsframe. Qed.

Lemma Js_updateClouds_gameRunning (w : World) :
  gameRunning (Js.updateClouds rand w) = gameRunning w.
Proof. jsframe. Qed.

Lemma Js_updateClouds_log (w : World) :
  log (Js.updateClouds rand w) = log w ++ [UpdateClouds].
Proof. jsframe. Qed.

(** *** Bird *)

Lemma Js_updateBird_floor (w : World) :
  Bird.height (bird w) <= VIRTUAL_HEIGHT ->
  Js.belowFloor (Js.fallen (bird w)) ->
  Js.updateBird w =
  endGame
    (set_bird
       (Bird.mk (Bird.x (bird w)) (VIRTUAL_HEIGHT ⊖ Bird.height (bird w))
          (Bird.width (bird w)) (Bird.height (bird w)) 0)
       (note UpdateBird w)).
Proof.
  unfold Js.belowFloor, Js.fallen. cbn [Bird.y Bird.height]. intros Hh Hf.
  unfold Js.updateBird. cbv zeta. unfold note. wsimpl.
  apply Qltb_lt in Hf. rewrite Hf. rewrite endGame_bird. wsimpl.
  replace (Qltb (VIRTUAL_HEIGHT ⊖ Bird.height (bird w)) 0) with false.
  - reflexivity.
  - symmetry. apply Qltb_ge. apply round_nonneg. lra.
Qed.

Lemma Js_updateBird_ceiling (w : World) :
  Bird.height (bird w) <= VIRTUAL_HEIGHT ->
  aboveCeiling (Js.fallen (bird w)) ->
  Js.updateBird w =
  set_bird
    (Bird.mk (Bird.x (bird w)) 0 (Bird.width (bird w)) (Bird.height (bird w)) 0)
    (note UpdateBird w).
Proof.
  unfold aboveCeiling, Js.fallen. cbn [Bird.y Bird.height]. intros Hh Hc.
  unfold Js.updateBird. cbv zeta. unfold note. wsimpl.
  replace (Qltb VIRTUAL_HEIGHT _) with false.
  - wsimpl. apply Qltb_lt in Hc. rewrite Hc. reflexivity.
  - symmetry. apply Qltb_ge.
    apply round_le_double; [vm_compute; reflexivity | lra].
Qed.

Lemma Js_updateBird_free (w : World) :
  ~ Js.belowFloor (Js.fallen (bird w)) ->
  ~ aboveCeiling (Js.fallen (bird w)) ->
  Js.updateBird w = set_bird (Js.fallen (bird w)) (note UpdateBird w).
Proof.
  unfold Js.belowFloor, aboveCeiling, Js.fallen. cbn [Bird.y Bird.height].
  intros Hf Hc.
  unfold Js.updateBird. cbv zeta. unfold note. wsimpl.
  replace (Qltb VIRTUAL_HEIGHT _) with false
    by (symmetry; apply Qltb_ge; lra).
  wsimpl.
  replace (Qltb _ 0) with false by (symmetry; apply Qltb_ge; lra).
  reflexivity.
Qed.

Lemma Js_updateBird_shape (w : World) :
  Js.updateBird w =
  set_bird (bird (Js.updateBird w))
    (if Js.floorHit w then endGame (note UpdateBird w) else note UpdateBird w).
Proof.
  destruct w as [b ps sc gr go fc af pa cl st sd fsd mh mp cp pe nh rc lg].
  unfold Js.updateBird, Js.floorHit, Js.fallen, endGame, cancelAnimationFrame, note.
  wsimpl.
  destruct (Qltb VIRTUAL_HEIGHT _); wsimpl;
    [destruct af as [[| h] |]; wsimpl |];
    destruct (Qltb _ 0); reflexivity.
Qed.

Lemma set_bird_others (b : Bird.t) (w : World) :
  log (set_bird b w) = log w /\ gameRunning (set_bird b w) = gameRunning w /\
  pipes (set_bird b w) = pipes w.
Proof. repeat split; reflexivity. Qed.

(** The bird update ends the game exactly when its floor test fires. *)
Lemma Js_updateBird_log (w : World) :
  log (Js.updateBird w) =
  log w ++ UpdateBird :: (if Js.floorHit w then [EndGame] else []).
Proof.
  rewrite Js_updateBird_shape.
  destruct (set_bird_others (bird (Js.updateBird w))
              (if Js.floorHit w then endGame (note UpdateBird w)
               else note UpdateBird w)) as (-> & _ & _).
  destruct (Js.floorHit w); [rewrite endGame_log |]; unfold note; wsimpl;
    rewrite <- ?app_assoc; reflexivity.
Qed.

Lemma Js_updateBird_gameRunning (w : World) :
  gameRunning (Js.updateBird w) =
  if Js.floorHit w then false else gameRunning w.
Proof.
  rewrite Js_updateBird_shape.
  destruct (set_bird_others (bird (Js.updateBird w))
              (if Js.floorHit w then endGame (note UpdateBird w)
               else note UpdateBird w)) as (_ & -> & _).
  destruct (Js.floorHit w); [apply endGame_gameRunning | reflexivity].
Qed.

Lemma Js_updateBird_pipes (w : World) : pipes (Js.updateBird w) = pipes w.
Proof.
  rewrite Js_updateBird_shape.
  destruct (set_bird_others (bird (Js.updateBird w))
              (if Js.floorHit w then endGame (note UpdateBird w)
               else note UpdateBird w)) as (_ & _ & ->).
  destruct (Js.floorHit w); [rewrite endGame_pipes |]; reflexivity.
Qed.

Lemma Js_floorHit_clouds (w : World) :
  Js.floorHit (Js.updateClouds rand w) = Js.floorHit w.
Proof. unfold Js.floorHit. rewrite Js_updateClouds_bird. reflexivity. Qed.

Lemma Js_updateBird_bird_clouds (w : World) :
  bird (Js.updateBird (Js.updateClouds rand w)) = bird (Js.updateBird w).
Proof.
  generalize (Js_updateClouds_bird w).
  generalize (Js.updateClouds rand w). intros u Hu.
  destruct w as [b ps sc gr go fc af pa cl st sd fsd mh mp cp pe nh rc lg].
  destruct u as [b' ps' sc' gr' go' fc' af' pa' cl' st' sd' fsd' mh' mp' cp' pe' nh' rc' lg'].
  cbn in Hu. subst b'.
  unfold Js.updateBird, endGame, cancelAnimationFrame, note. wsimpl.
  destruct (Qltb VIRTUAL_HEIGHT _); wsimpl;
    [destruct af as [[| h] |]; destruct af' as [[| h'] |]; wsimpl |];
    destruct (Qltb _ 0); reflexivity.
Qed.

(** *** Pipes *)

Lemma Js_pipesLoop_keeps {A : Type} (f : World -> A) :
  (forall i p w, f (Js.pipeBody i p w) = f w) ->
  forall n w, f (Js.pipesLoop n w) = f w.
Proof.
  intros Hbody. induction n as [| n IH]; intros w; [reflexivity |].
  cbn [Js.pipesLoop]. rewrite IH.
  destruct (pipes w !! n); [apply Hbody | reflexivity].
Qed.

Lemma Js_pipesLoop_bird (n : nat) (w : World) : bird (Js.pipesLoop n w) = bird w.
Proof. apply (Js_pipesLoop_keeps bird). intros i p v. jsframe. Qed.

Lemma Js_pipesLoop_log (n : nat) (w : World) : log (Js.pipesLoop n w) = log w.
Proof. apply (Js_pipesLoop_keeps log). intros i p v. jsframe. Qed.

Lemma Js_pipesLoop_gameRunning (n : nat) (w : World) :
  gameRunning (Js.pipesLoop n w) = gameRunning w.
Proof. apply (Js_pipesLoop_keeps gameRunning). intros i p v. jsframe. Qed.

Lemma Js_updatePipes_bird (w : World) : bird (Js.updatePipes rand w) = bird w.
Proof. unfold Js.updatePipes. cbv zeta. rewrite Js_pipesLoop_bird. jsframe. Qed.

Lemma Js_updatePipes_log (w : World) :
  log (Js.updatePipes rand w) = log w ++ [UpdatePipes].
Proof. unfold Js.updatePipes. cbv zeta. rewrite Js_pipesLoop_log. jsframe. Qed.

Lemma Js_updatePipes_gameRunning (w : World) :
  gameRunning (Js.updatePipes rand w) = gameRunning w.
Proof.
  unfold Js.updatePipes. cbv zeta. rewrite Js_pipesLoop_gameRunning. jsframe.
Qed.

(** *** Feathers *)

Lemma Js_updateParticles_bird (w : World) : bird (Js.updateParticles w) = bird w.
Proof. jsframe. Qed.

Lemma Js_updateParticles_pipes (w : World) : pipes (Js.updateParticles w) = pipes w.
Proof. jsframe. Qed.

Lemma Js_updateParticles_log (w : World) :
  log (Js.updateParticles w) = log w ++ [UpdateParticles].
Proof. jsframe. Qed.

Lemma Js_updateParticles_gameRunning (w : World) :
  gameRunning (Js.updateParticles w) = gameRunning w.
Proof. jsframe. Qed.

(** *** The collision check either does nothing or ends the game *)

Lemma Js_collisionLoop_cases (ps : list Pipe.t) (w : World) :
  (existsb (Js.hits (bird w)) ps = false /\ Js.collisionLoop ps w = w) \/
  (existsb (Js.hits (bird w)) ps = true /\ Js.collisionLoop ps w = endGame w).
Proof.
  induction ps as [| p ps IH]; cbn [Js.collisionLoop existsb].
  - left. split; reflexivity.
  - destruct (Js.hits (bird w) p) eqn:Hp.
    + right. split; reflexivity.
    + exact IH.
Qed.

Lemma Js_checkCollisions_cases (w : World) :
  (existsb (Js.hits (bird w)) (pipes w) = false /\ Js.checkCollisions w = w) \/
  (existsb (Js.hits (bird w)) (pipes w) = true /\
   Js.checkCollisions w = endGame w).
Proof. apply Js_collisionLoop_cases. Qed.

Lemma Js_checkCollisions_bird (w : World) : bird (Js.checkCollisions w) = bird w.
Proof.
  destruct (Js_checkCollisions_cases w) as [[_ ->] | [_ ->]];
    [| apply endGame_bird]; reflexivity.
Qed.

Lemma Js_checkCollisions_pipes (w : World) : pipes (Js.checkCollisions w) = pipes w.
Proof.
  destruct (Js_checkCollisions_cases w) as [[_ ->] | [_ ->]];
    [| apply endGame_pipes]; reflexivity.
Qed.

(** *** The frame *)

Lemma Js_gameLoop_stopped (w : World) :
  gameRunning w = false -> Js.gameLoop rand w = w.
Proof. intros H. unfold Js.gameLoop. rewrite H. reflexivity. Qed.

Lemma Js_gameLoop_running (w : World) :
  gameRunning w = true ->
  Js.gameLoop rand w =
  scheduleNext (Js.checkCollisions (frameDraws (Js.frameUpdates rand w))).
Proof. intros H. unfold Js.gameLoop. rewrite H. reflexivity. Qed.

Lemma Js_frameUpdates_bird (w : World) :
  bird (Js.frameUpdates rand w) = bird (Js.updateBird w).
Proof.
  unfold Js.frameUpdates.
  rewrite Js_updateParticles_bird, Js_updatePipes_bird.
  apply Js_updateBird_bird_clouds.
Qed.

Lemma Js_frameUpdates_log (w : World) :
  log (Js.frameUpdates rand w) =
  log w ++ [UpdateClouds; UpdateBird] ++
    (if Js.floorHit w then [EndGame] else []) ++ [UpdatePipes; UpdateParticles].
Proof.
  unfold Js.frameUpdates.
  rewrite Js_updateParticles_log, Js_updatePipes_log, Js_updateBird_log,
    Js_updateClouds_log, Js_floorHit_clouds.
  destruct (Js.floorHit w); rewrite <- !app_assoc; reflexivity.
Qed.

Lemma Js_frameUpdates_gameRunning (w : World) :
  gameRunning (Js.frameUpdates rand w) =
  if Js.floorHit w then false else gameRunning w.
Proof.
  unfold Js.frameUpdates.
  rewrite Js_updateParticles_gameRunning, Js_updatePipes_gameRunning,
    Js_updateBird_gameRunning, Js_updateClouds_gameRunning, Js_floorHit_clouds.
  reflexivity.
Qed.

(** The bird and the pipes the collision check of a frame sees are those
    the frame leaves. *)
Lemma Js_gameLoop_bird_pipes (w : World) :
  gameRunning w = true ->
  bird (Js.gameLoop rand w) = bird (Js.updateBird w) /\
  pipes (Js.gameLoop rand w) = pipes (frameDraws (Js.frameUpdates rand w)) /\
  bird (frameDraws (Js.frameUpdates rand w)) = bird (Js.updateBird w).
Proof.
  intros Hr. rewrite Js_gameLoop_running by exact Hr.
  rewrite scheduleNext_bird, scheduleNext_pipes, Js_checkCollisions_bird,
    Js_checkCollisions_pipes, frameDraws_bird, Js_frameUpdates_bird.
  repeat split; reflexivity.
Qed.

(** The work of a frame: the updates, the draws, and the game ended by
    the bird update, by the collision check, by both or by neither. *)
Lemma Js_frameLog_running (w : World) :
  gameRunning w = true ->
  Js.frameLog rand w =
  [UpdateClouds; UpdateBird] ++
    (if Js.floorHit w then [EndGame] else []) ++
    [UpdatePipes; UpdateParticles;
     ClearCanvas; DrawClouds; DrawPipes; DrawParticles; DrawBird] ++
    (if existsb (Js.hits (bird (Js.gameLoop rand w))) (pipes (Js.gameLoop rand w))
     then [EndGame] else []).
Proof.
  intros Hr. unfold Js.frameLog.
  destruct (Js_gameLoop_bird_pipes w Hr) as (-> & -> & Hb).
  rewrite Js_gameLoop_running by exact Hr. rewrite scheduleNext_log.
  destruct (Js_checkCollisions_cases (frameDraws (Js.frameUpdates rand w)))
    as [[Hex ->] | [Hex ->]]; rewrite Hb in Hex; rewrite Hex.
  - rewrite frameDraws_log, Js_frameUpdates_log.
    rewrite <- !app_assoc, drop_app_length.
    destruct (Js.floorHit w); reflexivity.
  - rewrite endGame_log, frameDraws_log, Js_frameUpdates_log.
    rewrite <- !app_assoc, drop_app_length.
    destruct (Js.floorHit w); reflexivity.
Qed.

Lemma Js_gameLoop_gameRunning (w : World) :
  gameRunning w = true ->
  gameRunning (Js.gameLoop rand w) =
  negb (Js.floorHit w) &&
  negb (existsb (Js.hits (bird (Js.gameLoop rand w))) (pipes (Js.gameLoop rand w))).
Proof.
  intros Hr.
  destruct (Js_gameLoop_bird_pipes w Hr) as (-> & -> & Hb).
  rewrite Js_gameLoop_running by exact Hr. rewrite scheduleNext_gameRunning.
  destruct (Js_checkCollisions_cases (frameDraws (Js.frameUpdates rand w)))
    as [[Hex ->] | [Hex ->]]; rewrite Hb in Hex; rewrite Hex.
  - destruct (frameDraws_pending (Js.frameUpdates rand w)) as (_ & _ & ->).
    rewrite Js_frameUpdates_gameRunning, Hr.
    destruct (Js.floorHit w); reflexivity.
  - rewrite endGame_gameRunning, andb_false_r. reflexivity.
Qed.

End JsFrames.

(** ** The bird update and the end of the game, in double precision *)

Section JsBird.

Variable rand : nat -> Q.

Lemma Js_floorHit_iff (w : World) :
  Js.floorHit w = true <-> Js.belowFloor (Js.fallen (bird w)).
Proof. unfold Js.floorHit, Js.belowFloor. apply Qltb_lt. Qed.

Lemma Js_floorHit_false (w : World) :
  Bird.height (bird w) <= VIRTUAL_HEIGHT ->
  aboveCeiling (Js.fallen (bird w)) -> Js.floorHit w = false.
Proof.
  unfold aboveCeiling, Js.floorHit, Js.fallen. cbn [Bird.y Bird.height].
  intros Hh Hc. apply Qltb_ge.
  apply round_le_double; [vm_compute; reflexivity | lra].
Qed.

Lemma ends_two_parts (a b : bool) :
  ends
    ([UpdateClouds; UpdateBird] ++ (if a then [EndGame] else []) ++
     [UpdatePipes; UpdateParticles;
      ClearCanvas; DrawClouds; DrawPipes; DrawParticles; DrawBird] ++
     (if b then [EndGame] else [])) =
  ((if a then 1 else 0) + (if b then 1 else 0))%nat.
Proof. destruct a, b; reflexivity. Qed.

(** How often a frame ends the game: once for the floor, once for a pipe. *)
Lemma Js_frame_ends (w : World) :
  gameRunning w = true ->
  ends (Js.frameLog rand w) =
  ((if Js.floorHit w then 1 else 0) +
   (if existsb (Js.hits (bird (Js.gameLoop rand w))) (pipes (Js.gameLoop rand w))
    then 1 else 0))%nat.
Proof.
  intros Hr. rewrite Js_frameLog_running by exact Hr. apply ends_two_parts.
Qed.

Lemma Js_gameLoop_bird (w : World) :
  gameRunning w = true -> bird (Js.gameLoop rand w) = bird (Js.updateBird w).
Proof. intros Hr. apply (Js_gameLoop_bird_pipes rand w Hr). Qed.

End JsBird.

(** C3 (amended).  After gravity and the move, each sum rounded as the
    script rounds it: a bird whose bottom is below the floor is put on the
    floor with velocity 0 and the bird update ends the game, once; the
    frame that runs this update leaves the bird there and ends the game
    once, or twice when a pipe overlaps the bird in the collision check of
    that frame.  A bird whose top is above the ceiling is put at the
    ceiling with velocity 0 and the bird update does not end the game; the
    frame leaves the bird there and ends the game only if a pipe overlaps
    the bird in its collision check. *)
Theorem updateBird_clamps_in_frame (rand : nat -> Q) (w : World) :
  Bird.height (bird w) <= VIRTUAL_HEIGHT ->
  (Js.belowFloor (Js.fallen (bird w)) ->
     (Bird.y (bird (Js.updateBird w)) = VIRTUAL_HEIGHT ⊖ Bird.height (bird w) /\
      Bird.velocity (bird (Js.updateBird w)) = 0 /\
      gameRunning (Js.updateBird w) = false /\
      log (Js.updateBird w) = log w ++ [UpdateBird; EndGame]) /\
     (gameRunning w = true ->
      Bird.y (bird (Js.gameLoop rand w)) = VIRTUAL_HEIGHT ⊖ Bird.height (bird w) /\
      Bird.velocity (bird (Js.gameLoop rand w)) = 0 /\
      gameRunning (Js.gameLoop rand w) = false /\
      ends (Js.frameLog rand w) =
        if existsb (Js.hits (bird (Js.gameLoop rand w)))
             (pipes (Js.gameLoop rand w))
        then 2%nat else 1%nat)) /\
  (aboveCeiling (Js.fallen (bird w)) ->
     (Bird.y (bird (Js.updateBird w)) = 0 /\
      Bird.velocity (bird (Js.updateBird w)) = 0 /\
      gameRunning (Js.updateBird w) = gameRunning w /\
      log (Js.updateBird w) = log w ++ [UpdateBird]) /\
     (gameRunning w = true ->
      Bird.y (bird (Js.gameLoop rand w)) = 0 /\
      Bird.velocity (bird (Js.gameLoop rand w)) = 0 /\
      ends (Js.frameLog rand w) =
        if existsb (Js.hits (bird (Js.gameLoop rand w)))
             (pipes (Js.gameLoop rand w))
        then 1%nat else 0%nat)).
Proof.
  intros Hh. split.
  - intros Hf.
    assert (Bird.y (bird (Js.updateBird w)) = VIRTUAL_HEIGHT ⊖ Bird.height (bird w) /\
            Bird.velocity (bird (Js.updateBird w)) = 0) as [Hy Hv].
    { rewrite Js_updateBird_floor by assumption. rewrite endGame_bird.
      split; reflexivity. }
    pose proof (proj2 (Js_floorHit_iff w) Hf) as Hb.
    split.
    + split; [exact Hy |]. split; [exact Hv |].
      rewrite Js_updateBird_gameRunning, Js_updateBird_log, Hb.
      split; reflexivity.
    + intros Hr. pose proof (Js_gameLoop_bird rand w Hr) as Eb.
      split; [rewrite Eb; exact Hy |]. split; [rewrite Eb; exact Hv |].
      rewrite (Js_gameLoop_gameRunning rand w Hr), (Js_frame_ends rand w Hr), Hb.
      split; [reflexivity |].
      destruct (existsb _ _); reflexivity.
  - intros Hc.
    assert (Bird.y (bird (Js.updateBird w)) = 0 /\
            Bird.velocity (bird (Js.updateBird w)) = 0) as [Hy Hv].
    { rewrite Js_updateBird_ceiling by assumption. split; reflexivity. }
    pose proof (Js_floorHit_false w Hh Hc) as Hb.
    split.
    + split; [exact Hy |]. split; [exact Hv |].
      rewrite Js_updateBird_gameRunning, Js_updateBird_log, Hb.
      split; reflexivity.
    + intros Hr. pose proof (Js_gameLoop_bird rand w Hr) as Eb.
      split; [rewrite Eb; exact Hy |]. split; [rewrite Eb; exact Hv |].
      rewrite (Js_frame_ends rand w Hr), Hb.
      destruct (existsb _ _); reflexivity.
Qed.

(** The free fall from the start: the frame of the 43rd display refresh
    puts the bird on the floor, with no pipe near, and ends the game
    once. *)
Lemma updateBird_clamps_in_frame_witness :
  Bird.y (bird (Js.gameLoop oracleHalf
                  (Js.run oracleHalf (repeat Refresh 42) (Js.loaded oracleHalf)))) =
    VIRTUAL_HEIGHT ⊖
      Bird.height (bird (Js.run oracleHalf (repeat Refresh 42) (Js.loaded oracleHalf))) /\
  gameRunning (Js.gameLoop oracleHalf
                 (Js.run oracleHalf (repeat Refresh 42) (Js.loaded oracleHalf))) =
    false /\
  ends (Js.frameLog oracleHalf
          (Js.run oracleHalf (repeat Refresh 42) (Js.loaded oracleHalf))) = 1%nat.
Proof.
  pattern (Js.run oracleHalf (repeat Refresh 42) (Js.loaded oracleHalf)).
  set (W := Js.run oracleHalf (repeat Refresh 42) (Js.loaded oracleHalf)).
  cbv beta.
  assert (Bird.height (bird W) <= VIRTUAL_HEIGHT) as Hh
    by (vm_compute; discriminate).
  assert (Js.belowFloor (Js.fallen (bird W))) as Hf by (vm_compute; reflexivity).
  assert (gameRunning W = true) as Hr by (vm_compute; reflexivity).
  assert (existsb (Js.hits (bird (Js.gameLoop oracleHalf W)))
            (pipes (Js.gameLoop oracleHalf W)) = false) as Hex
    by (vm_compute; reflexivity).
  destruct (proj2 (proj1 (updateBird_clamps_in_frame oracleHalf W Hh) Hf) Hr)
    as (Hy & _ & Hg & He).
  rewrite Hex in He.
  split; [exact Hy |]. split; [exact Hg | exact He].
Defined.

(** A frame run while the game is running leaves it stopped exactly when
    the floor test of the bird update fires or, after the updates, some
    pipe hits the bird.  Nothing else ends the game; reaching the ceiling
    does not. *)
Theorem frame_ends_game_iff (rand : nat -> Q) (w : World) :
  gameRunning w = true ->
  gameRunning (Js.gameLoop rand w) = false <->
  Js.belowFloor (Js.fallen (bird w)) \/
  exists p, In p (pipes (Js.gameLoop rand w)) /\
            Js.hits (bird (Js.gameLoop rand w)) p = true.
Proof.
  intros Hr. rewrite (Js_gameLoop_gameRunning rand w Hr).
  rewrite <- Js_floorHit_iff, andb_false_iff, !negb_false_iff.
  rewrite existsb_exists. reflexivity.
Qed.

(** The free fall from the start: the frame of the 43rd refresh ends the
    game. *)
Lemma frame_ends_game_iff_witness :
  gameRunning
    (Js.gameLoop oracleHalf
       (Js.run oracleHalf (repeat Refresh 42) (Js.loaded oracleHalf))) =
  false.
Proof.
  assert (gameRunning (Js.run oracleHalf (repeat Refresh 42) (Js.loaded oracleHalf)) =
          true) as Hr by (vm_compute; reflexivity).
  assert (Js.belowFloor
            (Js.fallen
               (bird (Js.run oracleHalf (repeat Refresh 42) (Js.loaded oracleHalf)))))
    as Hf by (vm_compute; reflexivity).
  exact (proj2 (frame_ends_game_iff oracleHalf
                  (Js.run oracleHalf (repeat Refresh 42) (Js.loaded oracleHalf)) Hr)
           (or_introl Hf)).
Defined.

(** The floor test is made on rounded sums.  A bird at 562.5 falling at
    16.200000000000014, a state the game reaches, would be below the floor
    after an exact move, at 579.000000000000014; the script moves it to
    579 exactly and the test does not fire. *)
Lemma floor_test_is_rounded :
  let b := Bird.mk 50 (5625 # 10) 28 21 (4559894622712631 # 281474976710656) in
  F64.isDouble (Bird.velocity b) /\
  VIRTUAL_HEIGHT < Bird.y b + (Bird.velocity b + Js.GRAVITY) + Bird.height b /\
  Bird.y (Js.fallen b) == 579 /\
  ~ Js.belowFloor (Js.fallen b).
Proof.
  cbv zeta. unfold F64.isDouble, Js.belowFloor.
  repeat split; vm_compute; congruence.
Qed.

(** After that flight the game is still running and the next pipe update
    prunes the first pipe, which has been in the list since the start and
    was scored when it passed the bird. *)
Lemma pruned_pipes_were_scored_witness :
  exists p : Pipe.t,
    In p (pipes (beforePipesLoop oracleHalf
                   (run oracleHalf flightPastFirstPipe (loaded oracleHalf)))) /\
    offLeft (movePipe p) = true /\
    In p (pipes (run oracleHalf flightPastFirstPipe (loaded oracleHalf))) /\
    Pipe.passed p = true.
Proof.
  pattern (run oracleHalf flightPastFirstPipe (loaded oracleHalf)).
  set (W := run oracleHalf flightPastFirstPipe (loaded oracleHalf)).
  cbv beta.
  exists (nth 0 (pipes W) (Pipe.mk 0 0 0 false)).
  assert ((fun w =>
             In (nth 0 (pipes w) (Pipe.mk 0 0 0 false))
               (pipes (beforePipesLoop oracleHalf w)) /\
             offLeft (movePipe (nth 0 (pipes w) (Pipe.mk 0 0 0 false))) = true) W)
    as [Hin Hoff]
    by (vm_compute; split; [left; reflexivity | reflexivity]).
  split; [exact Hin |]. split; [exact Hoff |].
  exact (proj1 (proj2 (proj2 (proj2 (pruned_pipes_were_scored oracleHalf))
                         W (run_reachable oracleHalf flightPastFirstPipe
                              (loaded oracleHalf) (reachable_loaded oracleHalf))))
           (nth 0 (pipes W) (Pipe.mk 0 0 0 false)) Hin Hoff).
Defined.

(** ** Clouds in double precision *)

Section JsClouds.

Variable rand : nat -> Q.

(** A random number times a constant. *)
Lemma unit_times_bounds (r c : Q) :
  F64.isDouble r -> 0 <= r < 1 -> 0 <= c ->
  0 <= r ⊗ c <= F64.round (c * (1 - F64.pow2 (-53))).
Proof.
  intros Hd [H0 H1] Hc. pose proof (double_below_1 r Hd H1) as Hr.
  unfold F64.mul. split.
  - apply round_nonneg. apply Qmult_le_0_compat; assumption.
  - apply round_mono. generalize dependent (F64.pow2 (-53)). intros t Ht. nra.
Qed.

Lemma Js_newCloud_shape (randomX : bool) (r1 r2 r3 r4 : Q) :
  F64.isDouble r1 /\ 0 <= r1 < 1 -> F64.isDouble r2 /\ 0 <= r2 < 1 ->
  F64.isDouble r3 /\ 0 <= r3 < 1 -> F64.isDouble r4 /\ 0 <= r4 < 1 ->
  cloudInShape (Js.newCloud randomX r1 r2 r3 r4) /\
  (if randomX then 0 <= Cloud.x (Js.newCloud randomX r1 r2 r3 r4) < VIRTUAL_WIDTH
   else VIRTUAL_WIDTH <= Cloud.x (Js.newCloud randomX r1 r2 r3 r4)
        <= VIRTUAL_WIDTH + 100).
Proof.
  intros [D1 H1] [D2 H2] [D3 H3] [D4 H4].
  unfold cloudInShape, Js.newCloud. cbn [Cloud.x Cloud.y Cloud.size Cloud.speed].
  split; [split; [| split] |].
  - assert (VIRTUAL_HEIGHT ⊘ 2 == 300) as E by (vm_compute; reflexivity).
    destruct (unit_times_bounds r2 300 D2 H2 ltac:(lra)) as [Hlo Hhi].
    assert (F64.round (300 * (1 - F64.pow2 (-53))) < 300) as Hc
      by (vm_compute; reflexivity).
    assert (r2 ⊗ (VIRTUAL_HEIGHT ⊘ 2) == r2 ⊗ 300) as ->
      by (apply round_comp, Qmult_comp; [reflexivity | exact E]).
    unfold Qdiv. change (/ 2) with (1 # 2). consts. lra.
  - destruct (unit_times_bounds r3 25 D3 H3 ltac:(lra)) as [Hlo Hhi].
    unfold F64.add. split.
    + apply round_ge_double; [vm_compute; reflexivity | lra].
    + apply round_le_double; [vm_compute; reflexivity |].
      assert (F64.round (25 * (1 - F64.pow2 (-53))) <= 25) as Hc
        by (vm_compute; discriminate).
      lra.
  - destruct (unit_times_bounds r4 (F64.round (4 # 10)) D4 H4
                ltac:(vm_compute; discriminate)) as [Hlo Hhi].
    unfold F64.add. split.
    + apply Qle_trans with (F64.round (F64.round (1 # 10)));
        [vm_compute; discriminate |].
      apply round_mono. lra.
    + apply Qle_trans with
        (F64.round
           (F64.round (F64.round (4 # 10) * (1 - F64.pow2 (-53))) +
            F64.round (1 # 10))); [| vm_compute; discriminate].
      apply round_mono. lra.
  - destruct randomX.
    + destruct (unit_times_bounds r1 400 D1 H1 ltac:(lra)) as [Hlo Hhi].
      assert (F64.round (400 * (1 - F64.pow2 (-53))) < 400) as Hc
        by (vm_compute; reflexivity).
      unfold VIRTUAL_WIDTH. lra.
    + destruct (unit_times_bounds r1 100 D1 H1 ltac:(lra)) as [Hlo Hhi].
      assert (F64.round (100 * (1 - F64.pow2 (-53))) <= 100) as Hc
        by (vm_compute; discriminate).
      unfold F64.add, VIRTUAL_WIDTH. split.
      * apply round_ge_double; [vm_compute; reflexivity | lra].
      * apply round_le_double; [vm_compute; reflexivity | lra].
Qed.

Lemma Js_generateCloud_shape (randomX : bool) (w : World) :
  Js.generateCloud rand randomX w =
  set_clouds
    (clouds w ++
       [Js.newCloud randomX (rand (randCalls w)) (rand (S (randCalls w)))
          (rand (S (S (randCalls w)))) (rand (S (S (S (randCalls w)))))])
    (set_randCalls (S (S (S (S (randCalls w))))) w).
Proof. destruct w. reflexivity. Qed.

Lemma Js_cloudBody_spec (l l2 : list Cloud.t) (c : Cloud.t) :
  Js.cloudBody (length l) c (l ++ c :: l2) =
  l ++ (if Js.cloudGone (Js.moveCloud c) then [] else [Js.moveCloud c]) ++ l2.
Proof.
  unfold Js.cloudBody. cbv zeta.
  replace (length l) with (length l + 0)%nat by lia.
  rewrite insert_app_r. cbn [insert list_insert].
  destruct (Js.cloudGone _); [| reflexivity].
  rewrite Nat.add_0_r. apply delete_middle.
Qed.

Lemma keptCloudsComputed_snoc (l : list Cloud.t) (c : Cloud.t) :
  keptCloudsComputed (l ++ [c]) =
  keptCloudsComputed l ++
    (if Js.cloudGone (Js.moveCloud c) then [] else [Js.moveCloud c]).
Proof.
  unfold keptCloudsComputed. rewrite map_app, filter_app. f_equal.
  cbn [map]. rewrite filter_cons, filter_nil.
  destruct (Js.cloudGone (Js.moveCloud c)); reflexivity.
Qed.

(** The loop of [updateClouds] in closed form. *)
Lemma Js_cloudsLoop_spec (l : list Cloud.t) :
  forall l2, Js.cloudsLoop (length l) (l ++ l2) = keptCloudsComputed l ++ l2.
Proof.
  induction l as [| c l IH] using rev_ind; intros l2; [reflexivity |].
  rewrite length_app. cbn [length]. rewrite Nat.add_1_r. cbn [Js.cloudsLoop].
  rewrite <- app_assoc. cbn [app].
  rewrite list_lookup_middle by reflexivity.
  rewrite Js_cloudBody_spec, IH, keptCloudsComputed_snoc, <- app_assoc.
  reflexivity.
Qed.

Lemma Js_updateClouds_clouds (w : World) :
  clouds (Js.updateClouds rand w) =
  keptCloudsComputed (clouds w) ++
    (if gameRunning w && Qltb (rand (randCalls w)) (F64.round (5 # 1000)) then
       [Js.newCloud false (rand (1 + randCalls w)) (rand (2 + randCalls w))
          (rand (3 + randCalls w)) (rand (4 + randCalls w))]
     else []).
Proof.
  pose proof (Js_cloudsLoop_spec (clouds w) []) as E.
  rewrite !app_nil_r in E.
  unfold Js.updateClouds, Js.generateCloud, random, note.
  destruct w as [b ps sc gr go fc af pa cl st sd fsd mh mp cp pe nh rc lg].
  wsimpl. wsimpl_in E. rewrite E.
  destruct gr; cbn [andb]; wsimpl; [| rewrite app_nil_r; reflexivity].
  destruct (Qltb (rand rc) (F64.round (5 # 1000))); wsimpl;
    [reflexivity | rewrite app_nil_r; reflexivity].
Qed.

Lemma In_keptCloudsComputed (l : list Cloud.t) (c : Cloud.t) :
  In c (keptCloudsComputed l) <->
  Js.cloudGone c = false /\ exists d, In d l /\ c = Js.moveCloud d.
Proof.
  unfold keptCloudsComputed. rewrite <- list_elem_of_In, list_elem_of_filter,
    list_elem_of_In, in_map_iff.
  split; intros [Ho (q & H1 & H2)]; (split; [exact Ho |]); exists q; auto.
Qed.

End JsClouds.

(** [generateCloud] draws four random numbers and appends one cloud made
    from them.  When the numbers are doubles in [0, 1), the cloud is in the
    top half of the viewport, its size is in [20, 45] and its speed in
    [0.1, 0.5], both upper ends reached by rounding; asked for a random
    place it is put at an x in [0, 400), otherwise right of the viewport
    at an x in [400, 500]. *)
Theorem generateCloud_appends_one_in_range (rand : nat -> Q) :
  unitDouble rand ->
  forall (randomX : bool) (w : World),
  exists c : Cloud.t,
    clouds (Js.generateCloud rand randomX w) = clouds w ++ [c] /\
    randCalls (Js.generateCloud rand randomX w) = (4 + randCalls w)%nat /\
    cloudInShape c /\
    (if randomX then 0 <= Cloud.x c < VIRTUAL_WIDTH
     else VIRTUAL_WIDTH <= Cloud.x c <= VIRTUAL_WIDTH + 100).
Proof.
  intros Hrand randomX w. rewrite Js_generateCloud_shape.
  eexists. split; [reflexivity |]. split; [reflexivity |].
  apply Js_newCloud_shape; apply Hrand.
Qed.

Lemma generateCloud_appends_one_in_range_witness :
  exists c : Cloud.t,
    clouds (Js.generateCloud oracleHalf false (worldWith (Bird.mk 50 300 28 21 0))) =
      [c] /\
    20 <= Cloud.size c <= 45.
Proof.
  destruct (generateCloud_appends_one_in_range oracleHalf oracleHalf_unitDouble
              false (worldWith (Bird.mk 50 300 28 21 0)))
    as (c & E & _ & (_ & Hs & _) & _).
  exists c. split; [exact E | exact Hs].
Defined.

(** The upper ends are reached: with all four random numbers at the
    largest double below 1 the new cloud is at x = 500, of size 45 and of
    speed 0.5. *)
Lemma cloud_bounds_reached :
  let r := 1 - F64.pow2 (-53) in
  F64.isDouble r /\ 0 <= r < 1 /\
  Cloud.x (Js.newCloud false r r r r) == 500 /\
  Cloud.size (Js.newCloud false r r r r) == 45 /\
  Cloud.speed (Js.newCloud false r r r r) == 5 # 10.
Proof.
  cbv zeta. unfold F64.isDouble. repeat split; vm_compute; congruence.
Qed.

(** One cloud update moves every cloud left by its own speed, drops
    exactly the clouds whose left edge plus three times the size, as the
    script computes that sum, is then below 0, keeps the others in their
    order, and, only while the game runs and only when the random number
    it draws is below 0.005, appends one new cloud; so the number of
    clouds grows by at most one. *)
Theorem updateClouds_moves_and_prunes (rand : nat -> Q) (w : World) :
  (exists fresh : list Cloud.t,
     clouds (Js.updateClouds rand w) = keptCloudsComputed (clouds w) ++ fresh /\
     (length fresh <= 1)%nat /\
     (gameRunning w = false -> fresh = []) /\
     (F64.round (5 # 1000) <= rand (randCalls w) -> fresh = [])) /\
  (forall c : Cloud.t,
     In c (keptCloudsComputed (clouds w)) <->
     0 <= Cloud.x c ⊕ Cloud.size c ⊗ 3 /\
     exists d, In d (clouds w) /\
       c = Cloud.mk (Cloud.x d ⊖ Cloud.speed d) (Cloud.y d) (Cloud.size d)
             (Cloud.speed d)) /\
  (length (clouds (Js.updateClouds rand w)) <= S (length (clouds w)))%nat.
Proof.
  assert (length (keptCloudsComputed (clouds w)) <= length (clouds w))%nat as Hk.
  { unfold keptCloudsComputed. etransitivity; [apply length_filter |].
    rewrite length_map. reflexivity. }
  split; [| split].
  - rewrite Js_updateClouds_clouds. eexists. split; [reflexivity |].
    split; [| split].
    + destruct (_ && _); cbn; lia.
    + intros ->. reflexivity.
    + intros Hr. apply Qltb_ge in Hr. rewrite Hr, andb_false_r. reflexivity.
  - intros c. rewrite In_keptCloudsComputed. unfold Js.cloudGone.
    rewrite Qltb_ge. reflexivity.
  - rewrite Js_updateClouds_clouds, length_app.
    destruct (_ && _); cbn [length]; lia.
Qed.

(** A cloud whose moved left edge plus three times its size is below 0 by
    less than the script can tell is kept: the sum is computed as 0. *)
Lemma cloud_at_edge_kept :
  let c := Cloud.mk (- (5185681749548187 # 70368744177664)) 10
             (6937698580790137 # 281474976710656) (1 # 4) in
  F64.isDouble (Cloud.x c) /\ F64.isDouble (Cloud.size c) /\
  Cloud.x (Js.moveCloud c) + Cloud.size c * 3 < 0 /\
  Cloud.x (Js.moveCloud c) ⊕ Cloud.size c ⊗ 3 == 0 /\
  keptCloudsComputed [c] = [Js.moveCloud c].
Proof.
  cbv zeta. unfold F64.isDouble. repeat split; vm_compute; congruence.
Qed.
